(** * AmqpMessageQueue (src/mq.ts): a message queue over an AMQP 0-9-1 broker

    The class publishes messages with [enqueue] (optionally delayed through a
    per-delay queue that dead-letters into the main queue) and consumes them
    with [listen].  Both are [async] functions over the amqplib channel API.

    The development has three layers:
    - the data the code handles (numbers, options, messages);
    - a small model of asynchronous JavaScript: a program is a tree of
      instructions ([task]); an event loop ([step], [exec]) runs it against a
      broker whose replies, deliveries and signals arrive as inputs;
    - the methods of the class, written in that model in the order of the
      source, and the properties they have. *)

From Stdlib Require Import ZArith NArith List String Ascii Bool Lia.
From Stdlib Require Import DecimalString DecimalN.
From Stdlib Require Import Permutation.
Import ListNotations.
Local Open Scope string_scope.
Local Open Scope Z_scope.

(** ** Data *)

(** JavaScript exceptions that reach this code: the two the JSON codec and
    [Buffer.from] raise, and those amqplib rejects a call with. *)
Inductive exn : Type :=
| TypeError (reason : string)
| SyntaxError (reason : string)
| AmqpError (reason : string)
| UserError (reason : string).

Definition Buffer := list Byte.byte.

(** The runtime functions [enqueue] and [listen] call and that are not part of
    this repository: the JSON codec of the platform and the UTF-8 conversions
    of [node:buffer].  [payload] is the type of the values called [any] in the
    source.  [JSON_stringify] answers [None] where JavaScript answers
    [undefined]. *)
Class Runtime : Type := {
  payload : Type;
  JSON_stringify : payload -> exn + option string;
  JSON_parse : string -> exn + payload;
  utf8_encode : string -> Buffer;
  utf8_decode : Buffer -> string
}.

(** [Buffer.from(s, "utf-8")]: a [TypeError] when [s] is [undefined]. *)
Definition Buffer_from `{Runtime} (s : option string) : exn + Buffer :=
  match s with
  | Some s => inr (utf8_encode s)
  | None => inl (TypeError "The first argument must be of type string")
  end.

(** A JavaScript number that measures time in milliseconds.  It is kept
    exactly, as a whole count of nanoseconds (the finest unit of
    [Temporal.Duration]): the value is [nanos / 10^6].  The rounding of
    binary floating point is not modelled. *)
Record number : Type := Number { nanos : Z }.

Definition milliseconds (ms : Z) : number := Number (ms * 1000000).

(** [Temporal.Duration], by its length; [total("millisecond")] is that length
    as a number of milliseconds, fractional below one millisecond. *)
Record Duration : Type := { nanoseconds : Z }.

Definition total_millisecond (d : Duration) : number :=
  Number (nanoseconds d).

(** Decimal digits of a natural number, without sign or separators. *)
Definition digits (n : Z) : string :=
  NilEmpty.string_of_uint (N.to_uint (Z.to_N n)).

Definition digit (n : Z) : string :=
  String (ascii_of_N (48 + Z.to_N n)) EmptyString.

(** [width] digits of [n], with leading zeros. *)
Fixpoint fixed (width : nat) (n : Z) : string :=
  match width with
  | O => ""
  | S w => fixed w (n / 10) ++ digit (n mod 10)
  end.

(** The same without the trailing zeros. *)
Fixpoint trimmed (width : nat) (n : Z) : string :=
  match width with
  | O => ""
  | S w => if n mod 10 =? 0 then trimmed w (n / 10) else fixed (S w) n
  end.

(** The fraction digits of a value given in thousandths: none for a whole
    number, else a point and up to three digits with no trailing zero. *)
Definition fraction (thousandths : Z) : string :=
  if thousandths =? 0 then "" else "." ++ trimmed 3 thousandths.

(** [x.toLocaleString("en", { useGrouping: false })]: the number in the "en"
    locale's decimal style, which keeps at most three fraction digits (rounding
    half away from zero), drops trailing zeros and, as grouping is off,
    inserts no separators. *)
Definition toLocaleString_en_noGrouping (x : number) : string :=
  let thousandths := (Z.abs (nanos x) + 500) / 1000 in
  (if nanos x <? 0 then "-" else "")
  ++ digits (thousandths / 1000) ++ fraction (thousandths mod 1000).

Definition Channel := nat.

(** Options of [channel.assertQueue]; an absent property is [None]. *)
Record AssertQueueOptions : Type := {
  durable : option bool;
  autoDelete : option bool;
  deadLetterExchange : option string;
  deadLetterRoutingKey : option string;
  messageTtl : option number
}.

Record PublishOptions : Type := {
  persistent : bool;
  contentType : string
}.

Record ConsumeOptions : Type := { noAck : bool }.

(** What [channel.consume] resolves to. *)
Record ConsumeReply : Type := { consumerTag : string }.

(** A delivery handed to the consume callback. *)
Record ConsumeMessage : Type := {
  content : Buffer;
  deliveryTag : nat
}.

(** [AmqpMessageQueueOptions]: every property optional. *)
Record AmqpMessageQueueOptions : Type := {
  opt_queue : option string;
  opt_delayedQueuePrefix : option string;
  opt_durable : option bool
}.

Record MessageQueueEnqueueOptions : Type := { delay : option Duration }.

(** An [AbortSignal], by identity. *)
Definition AbortSignal := nat.

Record MessageQueueListenOptions : Type := { signal : option AbortSignal }.

(** The private fields of the class that never change after construction.
    [#senderChannel] is mutable and lives in the [world]. *)
Record AmqpMessageQueue : Type := {
  this_queue : string;
  this_delayedQueuePrefix : string;
  this_durable : bool
}.

Definition nullish {A} (x : option A) (default : A) : A :=
  match x with Some v => v | None => default end.

(** The constructor. *)
Definition new_AmqpMessageQueue (options : AmqpMessageQueueOptions)
  : AmqpMessageQueue :=
  {| this_queue := nullish (opt_queue options) "fedify_queue";
     this_delayedQueuePrefix :=
       nullish (opt_delayedQueuePrefix options) "fedify_delayed_";
     this_durable := nullish (opt_durable options) true |}.

(** ** Asynchronous programs *)

(** Promises made by the caller's handler, and promises made by this code. *)
Definition HandlerPromise := nat.
Definition Promise := nat.

(** What a call of the caller's handler does: it returns nothing, returns a
    promise, or throws. *)
Inductive HandlerResult : Type :=
| returns_void
| returns_promise (p : HandlerPromise)
| throws (e : exn).

(** The amqplib calls that return a promise. *)
Inductive request : Type :=
| createChannel
| assertQueue (ch : Channel) (q : string) (o : AssertQueueOptions)
| prefetch (ch : Channel) (count : nat)
| consume (ch : Channel) (q : string) (o : ConsumeOptions)
| cancel (ch : Channel) (tag : string)
| close (ch : Channel).

Definition reply (r : request) : Type :=
  match r with
  | createChannel => Channel
  | consume _ _ _ => ConsumeReply
  | _ => unit
  end.

Section Model.
Context `{RT : Runtime}.

(** The calls that complete at once. *)
Inductive action : Type :=
| get_senderChannel
| set_senderChannel (ch : Channel)
| sendToQueue (ch : Channel) (q : string) (body : Buffer) (o : PublishOptions)
| ack (ch : Channel) (msg : ConsumeMessage)
| invoke (handler : payload -> HandlerResult) (message : payload)
| resolve (p : Promise).

Definition result (a : action) : Type :=
  match a with
  | get_senderChannel => option Channel
  | sendToQueue _ _ _ _ => bool
  | invoke _ _ => HandlerResult
  | _ => unit
  end.

(** A running piece of code, up to its end. *)
Inductive task : Type :=
| Done
| Throw (e : exn)
| Do (a : action) (k : result a -> task)
| Await (r : request) (k : reply r -> task)
| AwaitConsume (ch : Channel) (q : string)
    (onMessage : option ConsumeMessage -> task) (o : ConsumeOptions)
    (k : ConsumeReply -> task)
| Float (t : task) (k : task)
| Finally (p : HandlerPromise) (callback : task) (k : task)
| NewPromise (k : Promise -> task)
| AwaitPromise (p : Promise) (k : task)
| AddAbortListener (s : AbortSignal) (listener : task) (k : task).

(** An [async] function body yielding an [A], in continuation-passing style. *)
Definition async (A : Type) : Type := (A -> task) -> task.

Definition ret {A} (a : A) : async A := fun k => k a.
Definition bind {A B} (m : async A) (f : A -> async B) : async B :=
  fun k => m (fun a => f a k).
Definition throw {A} (e : exn) : async A := fun _ => Throw e.
(** A computation of the runtime that may throw. *)
Definition checked {A} (r : exn + A) : async A :=
  match r with inl e => throw e | inr a => ret a end.
Definition call (a : action) : async (result a) := Do a.
Definition await (r : request) : async (reply r) := Await r.
(** Calling an [async] function and dropping the promise it returns. *)
Definition float (m : async unit) : async unit :=
  fun k => Float (m (fun _ => Done)) (k tt).
(** [promise.then(callback)], the promise that [then] returns being dropped. *)
Definition then_ (r : request) (callback : reply r -> async unit) : async unit :=
  float (bind (await r) callback).
(** [channel.consume(queue, onMessage, options)], awaited. *)
Definition await_consume (ch : Channel) (q : string)
  (onMessage : option ConsumeMessage -> task) (o : ConsumeOptions)
  : async ConsumeReply :=
  AwaitConsume ch q onMessage o.
(** [promise.finally(callback)] on a promise of the handler. *)
Definition finally (p : HandlerPromise) (callback : async unit) : async unit :=
  fun k => Finally p (callback (fun _ => Done)) (k tt).
(** [new Promise(executor)]: the executor runs at once and is given the
    function that resolves the promise. *)
Definition new_Promise (executor : (unit -> async unit) -> async unit)
  : async Promise :=
  fun k => NewPromise (fun p =>
    executor (fun _ => call (resolve p)) (fun _ => k p)).
Definition await_promise (p : Promise) : async unit :=
  fun k => AwaitPromise p (k tt).
(** [signal.addEventListener("abort", listener)]. *)
Definition addEventListener (s : AbortSignal) (listener : async unit)
  : async unit :=
  fun k => AddAbortListener s (listener (fun _ => Done)) (k tt).

End Model.

Arguments task {RT}.
Arguments action {RT}.

Declare Scope async_scope.
Delimit Scope async_scope with async.
Notation "x <- m ;; f" := (bind m (fun x => f))
  (at level 61, m at next level, right associativity) : async_scope.
Notation "m ;; f" := (bind m (fun _ => f))
  (at level 61, right associativity) : async_scope.

(** ** The event loop *)

Section EventLoop.
Context `{RT : Runtime}.

(** Whose code is running, which decides where an uncaught exception goes:
    into the promise an [async] method gave its caller, into a promise nobody
    holds, or out of a callback into whoever called it. *)
Inductive owner : Type :=
| caller (method : string)
| dropped
| consumer (tag : string)
| reaction (p : HandlerPromise)
| listener (s : AbortSignal).

(** What has happened, as seen at the amqplib and promise interfaces. *)
Inductive event : Type :=
| sent (id : nat) (r : request)
| replied (id : nat) (r : request) (outcome : option exn)
| published (ch : Channel) (q : string) (body : Buffer) (o : PublishOptions)
| acked (ch : Channel) (msg : ConsumeMessage)
| delivered (tag : string) (msg : option ConsumeMessage)
| invoked (message : payload)
| handler_settled (p : HandlerPromise) (outcome : option exn)
| fired (s : AbortSignal)
| resolved (p : Promise)
| returned (o : owner)
| threw (o : owner) (e : exn).

(** A call whose promise is pending, with the code that waits for it. *)
Record waiter : Type := {
  w_id : nat;
  w_owner : owner;
  w_request : request;
  w_onMessage : option (option ConsumeMessage -> task);
  w_k : reply w_request -> task
}.

Record world : Type := {
  senderChannel : option Channel;          (* this.#senderChannel *)
  trace : list event;                      (* oldest first *)
  next : nat;                              (* source of fresh identities *)
  outstanding : list waiter;
  consumers : list (string * (option ConsumeMessage -> task));
  reactions : list (HandlerPromise * task);
  listeners : list (AbortSignal * task);
  awaiting : list (Promise * (owner * task));
  resolved_promises : list Promise;
  settled_promises : list HandlerPromise;
  aborted : list AbortSignal
}.

Definition emit (e : event) (w : world) : world :=
  {| senderChannel := senderChannel w; trace := trace w ++ [e];
     next := next w; outstanding := outstanding w; consumers := consumers w;
     reactions := reactions w; listeners := listeners w;
     awaiting := awaiting w; resolved_promises := resolved_promises w;
     settled_promises := settled_promises w; aborted := aborted w |}.

Definition with_senderChannel (c : option Channel) (w : world) : world :=
  {| senderChannel := c; trace := trace w;
     next := next w; outstanding := outstanding w; consumers := consumers w;
     reactions := reactions w; listeners := listeners w;
     awaiting := awaiting w; resolved_promises := resolved_promises w;
     settled_promises := settled_promises w; aborted := aborted w |}.

Definition with_next (n : nat) (w : world) : world :=
  {| senderChannel := senderChannel w; trace := trace w;
     next := n; outstanding := outstanding w; consumers := consumers w;
     reactions := reactions w; listeners := listeners w;
     awaiting := awaiting w; resolved_promises := resolved_promises w;
     settled_promises := settled_promises w; aborted := aborted w |}.

Definition with_outstanding (l : list waiter) (w : world) : world :=
  {| senderChannel := senderChannel w; trace := trace w;
     next := next w; outstanding := l; consumers := consumers w;
     reactions := reactions w; listeners := listeners w;
     awaiting := awaiting w; resolved_promises := resolved_promises w;
     settled_promises := settled_promises w; aborted := aborted w |}.

Definition with_consumers
  (l : list (string * (option ConsumeMessage -> task))) (w : world) : world :=
  {| senderChannel := senderChannel w; trace := trace w;
     next := next w; outstanding := outstanding w; consumers := l;
     reactions := reactions w; listeners := listeners w;
     awaiting := awaiting w; resolved_promises := resolved_promises w;
     settled_promises := settled_promises w; aborted := aborted w |}.

Definition with_reactions (l : list (HandlerPromise * task)) (w : world)
  : world :=
  {| senderChannel := senderChannel w; trace := trace w;
     next := next w; outstanding := outstanding w; consumers := consumers w;
     reactions := l; listeners := listeners w;
     awaiting := awaiting w; resolved_promises := resolved_promises w;
     settled_promises := settled_promises w; aborted := aborted w |}.

Definition with_listeners (l : list (AbortSignal * task)) (w : world)
  : world :=
  {| senderChannel := senderChannel w; trace := trace w;
     next := next w; outstanding := outstanding w; consumers := consumers w;
     reactions := reactions w; listeners := l;
     awaiting := awaiting w; resolved_promises := resolved_promises w;
     settled_promises := settled_promises w; aborted := aborted w |}.

Definition with_awaiting (l : list (Promise * (owner * task))) (w : world)
  : world :=
  {| senderChannel := senderChannel w; trace := trace w;
     next := next w; outstanding := outstanding w; consumers := consumers w;
     reactions := reactions w; listeners := listeners w;
     awaiting := l; resolved_promises := resolved_promises w;
     settled_promises := settled_promises w; aborted := aborted w |}.

Definition with_resolved (l : list Promise) (w : world) : world :=
  {| senderChannel := senderChannel w; trace := trace w;
     next := next w; outstanding := outstanding w; consumers := consumers w;
     reactions := reactions w; listeners := listeners w;
     awaiting := awaiting w; resolved_promises := l;
     settled_promises := settled_promises w; aborted := aborted w |}.

Definition with_settled (l : list HandlerPromise) (w : world) : world :=
  {| senderChannel := senderChannel w; trace := trace w;
     next := next w; outstanding := outstanding w; consumers := consumers w;
     reactions := reactions w; listeners := listeners w;
     awaiting := awaiting w; resolved_promises := resolved_promises w;
     settled_promises := l; aborted := aborted w |}.

Definition with_aborted (l : list AbortSignal) (w : world) : world :=
  {| senderChannel := senderChannel w; trace := trace w;
     next := next w; outstanding := outstanding w; consumers := consumers w;
     reactions := reactions w; listeners := listeners w;
     awaiting := awaiting w; resolved_promises := resolved_promises w;
     settled_promises := settled_promises w; aborted := l |}.

(** A newly made instance in a program where nothing has happened yet, but
    for the signals in [gone], which have fired already. *)
Definition initial (gone : list AbortSignal) : world :=
  {| senderChannel := None; trace := []; next := 0%nat; outstanding := [];
     consumers := []; reactions := []; listeners := []; awaiting := [];
     resolved_promises := []; settled_promises := []; aborted := gone |}.

(** The effect and the value of a call that completes at once.
    [sendToQueue] hands the message to the channel; its boolean (whether the
    write buffer has room) is not looked at by the code. *)
Definition perform (a : action) (w : world) : result a * world :=
  match a return result a * world with
  | get_senderChannel => (senderChannel w, w)
  | set_senderChannel ch => (tt, with_senderChannel (Some ch) w)
  | sendToQueue ch q body o => (true, emit (published ch q body o) w)
  | ack ch msg => (tt, emit (acked ch msg) w)
  | invoke handler message => (handler message, emit (invoked message) w)
  | resolve p =>
      (tt, emit (resolved p) (with_resolved (p :: resolved_promises w) w))
  end.

(** The call is made (its request leaves for the broker) and the code that
    waits for the answer is put aside. *)
Definition suspend (o : owner) (r : request)
  (onMessage : option (option ConsumeMessage -> task))
  (k : reply r -> task) (w : world) : world :=
  let id := next w in
  with_outstanding
    (outstanding w ++
       [{| w_id := id; w_owner := o; w_request := r;
           w_onMessage := onMessage; w_k := k |}])
    (with_next (S id) (emit (sent id r) w)).

(** Runs a piece of code until it ends or has to wait. *)
Fixpoint run (o : owner) (t : task) (w : world) : world :=
  match t with
  | Done => emit (returned o) w
  | Throw e => emit (threw o e) w
  | Do a k => let (r, w') := perform a w in run o (k r) w'
  | Await r k => suspend o r None k w
  | AwaitConsume ch q onMessage opts k =>
      suspend o (consume ch q opts) (Some onMessage) k w
  | Float t' k => run o k (run dropped t' w)
  | Finally p callback k =>
      run o k (with_reactions (reactions w ++ [(p, callback)]) w)
  | NewPromise k => run o (k (next w)) (with_next (S (next w)) w)
  | AwaitPromise p k => with_awaiting (awaiting w ++ [(p, (o, k))]) w
  | AddAbortListener s l k =>
      run o k (with_listeners (listeners w ++ [(s, l)]) w)
  end.

(** What reaches the program from outside. *)
Inductive input : Type :=
| Reply (id : nat) (outcome : option exn)   (* the broker answers call [id] *)
| Deliver (tag : string) (msg : option ConsumeMessage)
| Settle (p : HandlerPromise) (outcome : option exn)
| Abort (s : AbortSignal)
| Resume (p : Promise).                      (* code awaiting [p] continues *)

Definition tag_of (id : nat) : string :=
  "amq.ctag-" ++ digits (Z.of_nat id).

(** The value a successful call resolves to: channels and consumer tags are
    named after the call that made them. *)
Definition fresh_reply (r : request) (id : nat) : reply r :=
  match r return reply r with
  | createChannel => id
  | consume _ _ _ => {| consumerTag := tag_of id |}
  | assertQueue _ _ _ => tt
  | prefetch _ _ => tt
  | cancel _ _ => tt
  | close _ => tt
  end.

Fixpoint take_waiter (id : nat) (l : list waiter)
  : option (waiter * list waiter) :=
  match l with
  | [] => None
  | x :: rest =>
      if Nat.eqb (w_id x) id then Some (x, rest)
      else match take_waiter id rest with
           | Some (y, rest') => Some (y, x :: rest')
           | None => None
           end
  end.

(** amqplib keeps the table of consumers: [consume] enters the callback once
    the broker has named the consumer, [cancel] removes it. *)
Definition confirm (x : waiter) (w : world) : world :=
  match w_request x, w_onMessage x with
  | consume _ _ _, Some onMessage =>
      with_consumers (consumers w ++ [(tag_of (w_id x), onMessage)]) w
  | cancel _ tag, _ =>
      with_consumers
        (filter (fun c => negb (String.eqb (fst c) tag)) (consumers w)) w
  | _, _ => w
  end.

Fixpoint find_consumer (tag : string)
  (l : list (string * (option ConsumeMessage -> task)))
  : option (option ConsumeMessage -> task) :=
  match l with
  | [] => None
  | (t, f) :: rest => if String.eqb t tag then Some f else find_consumer tag rest
  end.

Definition run_all (l : list (owner * task)) (w : world) : world :=
  fold_left (fun w' ot => run (fst ot) (snd ot) w') l w.

Definition step (i : input) (w : world) : world :=
  match i with
  | Reply id outcome =>
      match take_waiter id (outstanding w) with
      | None => w
      | Some (x, rest) =>
          let w1 := emit (replied id (w_request x) outcome)
                         (with_outstanding rest w) in
          match outcome with
          | Some e => run (w_owner x) (Throw e) w1
          | None =>
              run (w_owner x) (w_k x (fresh_reply (w_request x) id))
                  (confirm x w1)
          end
      end
  | Deliver tag msg =>
      match find_consumer tag (consumers w) with
      | None => w
      | Some onMessage =>
          run (consumer tag) (onMessage msg) (emit (delivered tag msg) w)
      end
  | Settle p outcome =>
      let w1 := if existsb (Nat.eqb p) (settled_promises w) then w
                else emit (handler_settled p outcome)
                          (with_settled (p :: settled_promises w) w) in
      let due := filter (fun c => Nat.eqb (fst c) p) (reactions w1) in
      let rest := filter (fun c => negb (Nat.eqb (fst c) p)) (reactions w1) in
      run_all (map (fun c => (reaction p, snd c)) due) (with_reactions rest w1)
  | Abort s =>
      if existsb (Nat.eqb s) (aborted w) then w
      else
        let w1 := emit (fired s) (with_aborted (s :: aborted w) w) in
        let due := filter (fun c => Nat.eqb (fst c) s) (listeners w1) in
        run_all (map (fun c => (listener s, snd c)) due) w1
  | Resume p =>
      if existsb (Nat.eqb p) (resolved_promises w) then
        let due := filter (fun c => Nat.eqb (fst c) p) (awaiting w) in
        let rest := filter (fun c => negb (Nat.eqb (fst c) p)) (awaiting w) in
        run_all (map snd due) (with_awaiting rest w)
      else w
  end.

Definition exec (schedule : list input) (w : world) : world :=
  fold_left (fun w' i => step i w') schedule w.

(** Calling an [async] method: its body runs at once, up to its first wait. *)
Definition start (method : string) (m : async unit) (w : world) : world :=
  run (caller method) (m (fun _ => Done)) w.

End EventLoop.

(** ** The methods of AmqpMessageQueue *)

Section Methods.
Context `{RT : Runtime}.
Local Open Scope async_scope.

(** [#prepareQueue] (mq.ts 71-75). *)
Definition prepareQueue (this : AmqpMessageQueue) (channel : Channel)
  : async unit :=
  await (assertQueue channel (this_queue this)
           {| durable := Some (this_durable this); autoDelete := None;
              deadLetterExchange := None; deadLetterRoutingKey := None;
              messageTtl := None |}).

(** [#getSenderChannel] (mq.ts 77-83).  The call of [#prepareQueue] on line 81
    is not awaited. *)
Definition getSenderChannel (this : AmqpMessageQueue) : async Channel :=
  cached <- call get_senderChannel ;;
  match cached with
  | Some channel => ret channel
  | None =>
      channel <- await createChannel ;;
      call (set_senderChannel channel) ;;
      float (prepareQueue this channel) ;;
      ret (channel : Channel)
  end.

(** [options?.delay?.total("millisecond")] (mq.ts 91). *)
Definition delay_of (options : option MessageQueueEnqueueOptions)
  : option number :=
  match options with
  | Some o => option_map total_millisecond (delay o)
  | None => None
  end.

(** [delay == null || delay <= 0] (mq.ts 93). *)
Definition no_delay (d : option number) : bool :=
  match d with
  | None => true
  | Some x => nanos x <=? 0
  end.

(** The name of the queue that holds messages delayed by [d] (mq.ts 96-97). *)
Definition delayedQueue (this : AmqpMessageQueue) (d : number) : string :=
  let delayStr := toLocaleString_en_noGrouping d in
  this_delayedQueuePrefix this ++ delayStr.

(** Where the message goes (mq.ts 91-105): to the main queue, or to the
    queue of its delay, which is declared first. *)
Definition route (this : AmqpMessageQueue) (channel : Channel)
  (options : option MessageQueueEnqueueOptions) : async string :=
  let delay := delay_of options in
  match delay with
  | Some d =>
      if no_delay delay then ret (this_queue this)
      else
        let queue := delayedQueue this d in
        await (assertQueue channel queue
                 {| autoDelete := Some true;
                    durable := Some (this_durable this);
                    deadLetterExchange := Some "";
                    deadLetterRoutingKey := Some (this_queue this);
                    messageTtl := Some d |}) ;;
        ret queue
  | None => ret (this_queue this)
  end.

(** [Buffer.from(JSON.stringify(message), "utf-8")] (mq.ts 108). *)
Definition message_body (message : payload) : exn + Buffer :=
  match JSON_stringify message with
  | inl e => inl e
  | inr text => Buffer_from text
  end.

(** The call of [sendToQueue] (mq.ts 106-113).  Its arguments are evaluated
    before the call is made, so a message that cannot be serialized is not
    sent. *)
Definition publish (this : AmqpMessageQueue) (channel : Channel)
  (queue : string) (message : payload) : async unit :=
  body <- checked (message_body message) ;;
  call (sendToQueue channel queue body
          {| persistent := this_durable this;
             contentType := "application/json" |}) ;;
  ret tt.

(** [enqueue] (mq.ts 85-114). *)
Definition enqueue (this : AmqpMessageQueue) (message : payload)
  (options : option MessageQueueEnqueueOptions) : async unit :=
  channel <- getSenderChannel this ;;
  queue <- route this channel options ;;
  publish this channel queue message.

(** The callback given to [channel.consume] (mq.ts 124-133).  Nothing in it
    catches: an exception of [JSON.parse] or of the handler leaves it. *)
Definition onMessage (channel : Channel)
  (handler : payload -> HandlerResult) (msg : option ConsumeMessage) : task :=
  match msg with
  | None => Done
  | Some msg =>
      (message <- checked (JSON_parse (utf8_decode (content msg))) ;;
       result <- call (invoke handler message) ;;
       match result with
       | throws e => throw e
       | returns_promise p => finally p (call (ack channel msg))
       | returns_void => call (ack channel msg)
       end) (fun _ => Done)
  end.

(** The listener for "abort" (mq.ts 137-141). *)
Definition onAbort (channel : Channel) (reply : ConsumeReply)
  (resolve_ : unit -> async unit) : async unit :=
  then_ (cancel channel (consumerTag reply)) (fun _ =>
    then_ (close channel) (fun _ => resolve_ tt)).

(** [listen] (mq.ts 116-143). *)
Definition listen (this : AmqpMessageQueue)
  (handler : payload -> HandlerResult) (options : MessageQueueListenOptions)
  : async unit :=
  channel <- await createChannel ;;
  prepareQueue this channel ;;
  await (prefetch channel 1) ;;
  reply <- await_consume channel (this_queue this)
             (onMessage channel handler) {| noAck := false |} ;;
  completion <- new_Promise (fun resolve_ =>
    match signal options with
    | Some s => addEventListener s (onAbort channel reply resolve_)
    | None => ret tt
    end) ;;
  await_promise completion.

End Methods.

(** ** A runtime to run the model on

    The properties below hold for every [Runtime].  To evaluate the methods on
    concrete messages, [Sample] gives one: JSON on the values [undefined],
    [null], booleans, BigInts and strings of characters below U+0080.  Its
    encoder is [JSON.stringify] on these values.  Its decoder reads back what
    the encoder writes ([sample_decodes_what_it_encodes]) and, like
    [JSON.parse], rejects the empty text; numbers, arrays, objects and white
    space around a value are outside the sample. *)

Module Sample.

Inductive jsval : Type :=
| js_undefined
| js_null
| js_bool (b : bool)
| js_bigint (n : Z)
| js_string (s : string).

Definition quote : ascii := ascii_of_nat 34.
Definition backslash : ascii := ascii_of_nat 92.

Definition hex (n : nat) : ascii :=
  match n with
  | 0 => "0" | 1 => "1" | 2 => "2" | 3 => "3" | 4 => "4" | 5 => "5"
  | 6 => "6" | 7 => "7" | 8 => "8" | 9 => "9" | 10 => "a" | 11 => "b"
  | 12 => "c" | 13 => "d" | 14 => "e" | _ => "f"
  end%nat%char.

(** How a character of a string is written: the quote, the backslash and the
    control characters are escaped. *)
Definition escape (c : ascii) : string :=
  let n := nat_of_ascii c in
  if Nat.eqb n 34 then String backslash (String quote "")
  else if Nat.eqb n 92 then String backslash (String backslash "")
  else if Nat.eqb n 8 then String backslash "b"
  else if Nat.eqb n 9 then String backslash "t"
  else if Nat.eqb n 10 then String backslash "n"
  else if Nat.eqb n 12 then String backslash "f"
  else if Nat.eqb n 13 then String backslash "r"
  else if Nat.ltb n 32 then
    String backslash
      ("u00" ++ String (hex (n / 16)) (String (hex (n mod 16)) ""))
  else String c "".

Fixpoint escaped (s : string) : string :=
  match s with
  | EmptyString => ""
  | String c rest => escape c ++ escaped rest
  end.

Definition literal (s : string) : string :=
  String quote (escaped s ++ String quote "").

Definition stringify (v : jsval) : exn + option string :=
  match v with
  | js_undefined => inr None
  | js_null => inr (Some "null")
  | js_bool true => inr (Some "true")
  | js_bool false => inr (Some "false")
  | js_bigint _ => inl (TypeError "Do not know how to serialize a BigInt")
  | js_string s => inr (Some (literal s))
  end.

Definition unhex (c : ascii) : option nat :=
  let n := nat_of_ascii c in
  if (Nat.leb 48 n && Nat.leb n 57)%bool then Some (n - 48)%nat
  else if (Nat.leb 97 n && Nat.leb n 102)%bool then Some (n - 87)%nat
  else if (Nat.leb 65 n && Nat.leb n 70)%bool then Some (n - 55)%nat
  else None.

(** The character that a backslash and [c] stand for. *)
Definition unescape (c : ascii) : option ascii :=
  let n := nat_of_ascii c in
  if Nat.eqb n 34 then Some quote
  else if Nat.eqb n 92 then Some backslash
  else if Nat.eqb n 47 then Some "/"%char
  else if Nat.eqb n 98 then Some (ascii_of_nat 8)
  else if Nat.eqb n 116 then Some (ascii_of_nat 9)
  else if Nat.eqb n 110 then Some (ascii_of_nat 10)
  else if Nat.eqb n 102 then Some (ascii_of_nat 12)
  else if Nat.eqb n 114 then Some (ascii_of_nat 13)
  else None.

(** Reads a string literal after its opening quote; the closing quote has to
    end the text. *)
Fixpoint unquote (s : string) : option string :=
  match s with
  | EmptyString => None
  | String c rest =>
      let n := nat_of_ascii c in
      if Nat.eqb n 34 then
        match rest with
        | EmptyString => Some EmptyString
        | _ => None
        end
      else if Nat.eqb n 92 then
        match rest with
        | EmptyString => None
        | String e rest1 =>
            if Nat.eqb (nat_of_ascii e) 117 then
              match rest1 with
              | String a (String b (String x (String y rest2))) =>
                  match unhex a, unhex b, unhex x, unhex y with
                  | Some O, Some O, Some h, Some l =>
                      if Nat.ltb h 8 then
                        option_map (String (ascii_of_nat (16 * h + l)))
                                   (unquote rest2)
                      else None
                  | _, _, _, _ => None
                  end
              | _ => None
              end
            else
              match unescape e with
              | Some ch => option_map (String ch) (unquote rest1)
              | None => None
              end
        end
      else if Nat.ltb n 32 then None
      else option_map (String c) (unquote rest)
  end.

Definition parse (s : string) : exn + jsval :=
  if String.eqb s "null" then inr js_null
  else if String.eqb s "true" then inr (js_bool true)
  else if String.eqb s "false" then inr (js_bool false)
  else match s with
       | EmptyString => inl (SyntaxError "Unexpected end of JSON input")
       | String c rest =>
           if Nat.eqb (nat_of_ascii c) 34 then
             match unquote rest with
             | Some v => inr (js_string v)
             | None => inl (SyntaxError "Bad string in JSON")
             end
           else inl (SyntaxError "Unexpected token")
       end.

#[export] Instance runtime : Runtime := {|
  payload := jsval;
  JSON_stringify := stringify;
  JSON_parse := parse;
  utf8_encode := list_byte_of_string;
  utf8_decode := string_of_list_byte
|}.

(** The queue of the repository's test, with the default options. *)
Definition mq : AmqpMessageQueue :=
  new_AmqpMessageQueue
    {| opt_queue := None; opt_delayedQueuePrefix := None;
       opt_durable := None |}.

Definition hello : jsval := js_string "Hello, world!".

(** A handler that is not [async] and throws, and one that returns a promise
    for [true] and nothing otherwise. *)
Definition failing (message : jsval) : HandlerResult :=
  throws (UserError "handler failed").

Definition collecting (message : jsval) : HandlerResult :=
  match message with
  | js_bool true => returns_promise 7%nat
  | _ => returns_void
  end.

Definition delivery (text : string) (n : nat) : ConsumeMessage :=
  {| content := list_byte_of_string text; deliveryTag := n |}.

(** The world in which [listen] has subscribed: the channel is 0 and the
    consumer tag is that of call 3. *)
Definition listening (handler : jsval -> HandlerResult) : world :=
  exec [Reply 0 None; Reply 1 None; Reply 2 None; Reply 3 None]
       (start "listen" (listen mq handler {| signal := None |}) (initial [])).

Definition hello_body : Buffer :=
  list_byte_of_string (literal "Hello, world!").

Definition three_seconds : option MessageQueueEnqueueOptions :=
  Some {| delay := Some {| nanoseconds := 3000000000 |} |}.

End Sample.

(** ** The polling helper of the repository's test *)

(** How a call of [waitFor] ends, and after how many delays: it returns, or
    it throws [Error("Timeout")]. *)
Inductive waited : Type :=
| wait_returned (delays : nat)
| wait_timed_out (delays : nat).

(** [waitFor(predicate, timeoutMs)] (the test file, 65-76).  [predicate k] is
    what the predicate answers when it is called after [k] delays and [now k]
    what [Date.now()] answers then, in milliseconds; [now 0] is the reading
    taken on entry.  [k] counts the delays made so far: a call starts with
    [k = 0].  [fuel] bounds the rounds of the loop: the answer is [None] when
    the loop is not over after that many rounds. *)
Fixpoint waitFor (fuel : nat) (predicate : nat -> bool) (now : nat -> Z)
  (timeoutMs : Z) (k : nat) : option waited :=
  match fuel with
  | O => None
  | S fuel' =>
      if predicate k then Some (wait_returned k)
      else if now (S k) - now 0%nat >? timeoutMs
           then Some (wait_timed_out (S k))
           else waitFor fuel' predicate now timeoutMs (S k)
  end.

(** ** Vocabulary of the properties *)

Section Permissions.
Context `{RT : Runtime}.

(** The values an immediate call can have: the handler is a function of the
    message; of the other calls nothing is assumed. *)
Definition possible (a : action) : result a -> Prop :=
  match a return result a -> Prop with
  | invoke handler message => fun r => r = handler message
  | _ => fun _ => True
  end.

(** Code that only makes the immediate calls [may_do] allows and only sends
    the requests [may_ask] allows, whatever answers it gets. *)
Variable may_do : action -> Prop.
Variable may_ask : request -> Prop.

Inductive within : task -> Prop :=
| within_Done : within Done
| within_Throw e : within (Throw e)
| within_Do a k :
    may_do a -> (forall r, possible a r -> within (k r)) -> within (Do a k)
| within_Await r k :
    may_ask r -> (forall v, within (k v)) -> within (Await r k)
| within_AwaitConsume ch q f o k :
    may_ask (consume ch q o) -> (forall m, within (f m)) ->
    (forall v, within (k v)) -> within (AwaitConsume ch q f o k)
| within_Float t k : within t -> within k -> within (Float t k)
| within_Finally p c k : within c -> within k -> within (Finally p c k)
| within_NewPromise k : (forall p, within (k p)) -> within (NewPromise k)
| within_AwaitPromise p k : within k -> within (AwaitPromise p k)
| within_AddAbortListener s l k :
    within l -> within k -> within (AddAbortListener s l k).

Definition permitted (e : event) : Prop :=
  match e with
  | sent _ r => may_ask r
  | published ch q body o => may_do (sendToQueue ch q body o)
  | acked ch msg => may_do (ack ch msg)
  | resolved p => may_do (resolve p)
  | _ => True
  end.

Definition waiter_within (x : waiter) : Prop :=
  (forall v, within (w_k x v)) /\
  (forall f, w_onMessage x = Some f -> forall m, within (f m)).

(** A world in which nothing forbidden has happened and no code that is put
    aside can do anything forbidden. *)
Record tidy (w : world) : Prop := {
  tidy_trace : Forall permitted (trace w);
  tidy_outstanding : Forall waiter_within (outstanding w);
  tidy_consumers : Forall (fun c => forall m, within (snd c m)) (consumers w);
  tidy_reactions : Forall (fun c => within (snd c)) (reactions w);
  tidy_listeners : Forall (fun c => within (snd c)) (listeners w);
  tidy_awaiting : Forall (fun c => within (snd (snd c))) (awaiting w)
}.

End Permissions.

(** A new instance, or one that has a sender channel already, in a program
    where nothing is pending. *)
Definition instance `{RT : Runtime} (cached : option Channel)
  (gone : list AbortSignal) : world :=
  with_senderChannel cached (initial gone).

(** Identities of put-aside calls are older than the next fresh one. *)
Definition well_numbered `{RT : Runtime} (w : world) : Prop :=
  Forall (fun x => (w_id x < next w)%nat) (outstanding w).

(** The call [enqueue this message options] made in [w], at the moment it
    has its channel: at once when the channel is cached, else when the broker
    has answered [createChannel]. *)
Definition enqueued `{RT : Runtime} (this : AmqpMessageQueue)
  (message : payload) (options : option MessageQueueEnqueueOptions)
  (w : world) : world :=
  let called := start "enqueue" (enqueue this message options) w in
  match senderChannel w with
  | Some _ => called
  | None => step (Reply (next w) None) called
  end.

(** The channel that call publishes on. *)
Definition sender `{RT : Runtime} (w : world) : Channel :=
  match senderChannel w with
  | Some channel => channel
  | None => next w
  end.

(** What obtaining the channel adds to the trace: nothing when it is cached,
    else its creation and the request that declares the main queue. *)
Definition opening `{RT : Runtime} (this : AmqpMessageQueue) (w : world)
  : list event :=
  match senderChannel w with
  | Some _ => []
  | None =>
      [sent (next w) createChannel;
       replied (next w) createChannel None;
       sent (S (next w))
         (assertQueue (next w) (this_queue this)
            {| durable := Some (this_durable this); autoDelete := None;
               deadLetterExchange := None; deadLetterRoutingKey := None;
               messageTtl := None |})]
  end.

(** The identity of the next call made after the channel is there. *)
Definition following `{RT : Runtime} (w : world) : nat :=
  match senderChannel w with
  | Some _ => next w
  | None => S (S (next w))
  end.

(** The queue [enqueue] sends a message with these options to. *)
Definition target (this : AmqpMessageQueue)
  (options : option MessageQueueEnqueueOptions) : string :=
  match delay_of options with
  | Some d => if no_delay (Some d) then this_queue this
              else delayedQueue this d
  | None => this_queue this
  end.




(** *** The life of a listener *)

(** The events that mark the life of a [listen] call.  A channel and a
    consumer tag are named after the call that made them ([fresh_reply]). *)
Inductive mark : Type :=
| channel_opened (ch : Channel)
| subscribed (ch : Channel) (tag : string)
| cancel_requested (ch : Channel) (tag : string)
| cancel_confirmed (ch : Channel) (tag : string)
| close_requested (ch : Channel)
| close_confirmed (ch : Channel)
| promise_resolved (p : Promise)
| listen_returned.

Definition mark_of `{RT : Runtime} (e : event) : list mark :=
  match e with
  | replied id createChannel None => [channel_opened id]
  | replied id (consume ch _ _) None => [subscribed ch (tag_of id)]
  | sent _ (cancel ch tag) => [cancel_requested ch tag]
  | replied _ (cancel ch tag) None => [cancel_confirmed ch tag]
  | sent _ (close ch) => [close_requested ch]
  | replied _ (close ch) None => [close_confirmed ch]
  | resolved p => [promise_resolved p]
  | returned (caller method) =>
      if String.eqb method "listen" then [listen_returned] else []
  | _ => []
  end.

Definition marks `{RT : Runtime} (t : list event) : list mark :=
  flat_map mark_of t.

(** The whole life, in order: the channel is opened, the consumer subscribed;
    on the signal the consumer is cancelled, the cancellation confirmed, the
    channel closed, the closing confirmed; then the promise of [listen] is
    resolved and [listen] returns. *)
Definition lifecycle (ch : Channel) (tag : string) (p : Promise) : list mark :=
  [channel_opened ch; subscribed ch tag;
   cancel_requested ch tag; cancel_confirmed ch tag;
   close_requested ch; close_confirmed ch;
   promise_resolved p; listen_returned].

(** The schedule on which everything succeeds and the signal fires once the
    listener is in place. *)
Definition orderly (s : AbortSignal) : list input :=
  [Reply 0 None; Reply 1 None; Reply 2 None; Reply 3 None;
   Abort s; Reply 5 None; Reply 6 None; Resume 4%nat].

Section Stages.
Context `{RT : Runtime}.
Variable this : AmqpMessageQueue.
Variable handler : payload -> HandlerResult.
Variable sig : option AbortSignal.

(** How far a [listen] call has come. *)
Inductive stage : Type :=
| Creating | Declaring | Prefetching | Subscribing
| Failed            (* the channel was refused *)
| Orphaned          (* the channel is open, a later step was refused *)
| Listening | Cancelling | CancelFailed | Closing | CloseFailed
| Resolved | Returned.

(** A world at each stage, reached with no other input than the answers that
    lead there. *)
Definition canon (st : stage) : world :=
  let c0 := start "listen" (listen this handler {| signal := sig |})
                  (initial []) in
  let c4 := exec [Reply 0 None; Reply 1 None; Reply 2 None; Reply 3 None] c0 in
  let c5 := run (listener (nullish sig 0%nat))
                (onAbort 0%nat {| consumerTag := tag_of 3 |}
                   (fun _ => call (resolve 4%nat)) (fun _ => Done))
                (emit (fired (nullish sig 0%nat)) c4) in
  let c6 := step (Reply 5 None) c5 in
  let c7 := step (Reply 6 None) c6 in
  match st with
  | Creating => c0
  | Declaring => exec [Reply 0 None] c0
  | Prefetching => exec [Reply 0 None; Reply 1 None] c0
  | Subscribing => exec [Reply 0 None; Reply 1 None; Reply 2 None] c0
  | Failed => initial []
  | Orphaned => step (Reply 1 (Some (AmqpError ""))) (exec [Reply 0 None] c0)
  | Listening => c4
  | Cancelling => c5
  | CancelFailed => step (Reply 5 (Some (AmqpError ""))) c5
  | Closing => c6
  | CloseFailed => step (Reply 6 (Some (AmqpError ""))) c6
  | Resolved => c7
  | Returned => step (Resume 4%nat) c7
  end.

Definition late (st : stage) : bool :=
  match st with
  | Cancelling | CancelFailed | Closing | CloseFailed | Resolved | Returned =>
      true
  | _ => false
  end.

Definition dead (st : stage) : bool :=
  match st with
  | Failed | Orphaned => true
  | _ => false
  end.

(** The code put aside in a world. *)
Definition core (w : world) :=
  (outstanding w, consumers w, listeners w, awaiting w, resolved_promises w).

(** A promise reaction that acknowledges a message on the listener's channel
    and does nothing else. *)
Definition is_ack (c : HandlerPromise * task) : Prop :=
  exists msg, snd c = Do (ack 0%nat msg) (fun _ => Done).

(** What holds of a world in which [listen] was called on an instance, the
    signals in [gone] having fired before, and
    that is at stage [st]. *)
Definition at_stage (gone : list AbortSignal) (st : stage) (w : world)
  : Prop :=
  core w = core (canon st) /\
  (dead st = true \/ next w = next (canon st)) /\
  marks (trace w) = marks (trace (canon st)) /\
  Forall is_ack (reactions w) /\
  incl gone (aborted w) /\
  (late st = true ->
   exists s, sig = Some s /\ In s (aborted w) /\ ~ In s gone).

End Stages.

(** A step that leaves the code put aside as it is and marks nothing. *)
Definition calm `{RT : Runtime} (w w' : world) : Prop :=
  core w' = core w /\ next w' = next w /\
  marks (trace w') = marks (trace w) /\
  (Forall is_ack (reactions w) -> Forall is_ack (reactions w')) /\
  incl (aborted w) (aborted w').

(** *** Worlds in which nothing waits *)

(** A world with no call outstanding, no consumer, no reaction, no listener
    and no code awaiting a promise. *)
Definition idle `{RT : Runtime} (w : world) : Prop :=
  outstanding w = [] /\ consumers w = [] /\ reactions w = [] /\
  listeners w = [] /\ awaiting w = [].

(** The events that come from outside the class: a promise of a handler
    settles, a signal fires. *)
Definition outside `{RT : Runtime} (e : event) : Prop :=
  match e with
  | handler_settled _ _ => True
  | fired _ => True
  | _ => False
  end.

(** The answers that make the four calls of the setup of [listen] succeed,
    [listen] being called when the next identity is [n]. *)
Definition setup (n : nat) : list input :=
  [Reply n None; Reply (S n) None; Reply (S (S n)) None;
   Reply (S (S (S n))) None].

(** The stages from which a listener does not move any more. *)
Definition stuck (st : stage) : bool :=
  match st with
  | Failed | Orphaned | CancelFailed | CloseFailed | Returned => true
  | _ => false
  end.

(** *** Calls that wait for the broker *)

(** The rest of [enqueue] once the broker has created the channel: the
    channel is kept, the declaration of the main queue is sent and not waited
    for, and the message is routed and published (mq.ts 80-82, 90-113). *)
Definition created `{RT : Runtime} (this : AmqpMessageQueue)
  (message : payload) (options : option MessageQueueEnqueueOptions)
  (channel : Channel) : task :=
  (bind (call (set_senderChannel channel)) (fun _ =>
   bind (float (prepareQueue this channel)) (fun _ =>
   bind (route this channel options) (fun queue =>
   publish this channel queue message)))) (fun _ => Done).

(** The declaration of the main queue and the options of a publication. *)
Definition main_queue (this : AmqpMessageQueue) : AssertQueueOptions :=
  {| durable := Some (this_durable this); autoDelete := None;
     deadLetterExchange := None; deadLetterRoutingKey := None;
     messageTtl := None |}.

Definition sending (this : AmqpMessageQueue) : PublishOptions :=
  {| persistent := this_durable this; contentType := "application/json" |}.

(** What the setup of [listen] adds to the trace when the broker accepts
    everything, [listen] being called when the next identity is [n]: four
    calls, each sent when the one before it has been answered. *)
Definition subscription `{RT : Runtime} (this : AmqpMessageQueue) (n : nat)
  : list event :=
  [sent n createChannel;
   replied n createChannel None;
   sent (S n) (assertQueue n (this_queue this) (main_queue this));
   replied (S n) (assertQueue n (this_queue this) (main_queue this)) None;
   sent (S (S n)) (prefetch n 1);
   replied (S (S n)) (prefetch n 1) None;
   sent (S (S (S n))) (consume n (this_queue this) {| noAck := false |});
   replied (S (S (S n))) (consume n (this_queue this) {| noAck := false |})
     None].

(** *** Counting publications *)

Section Counting.
Context `{RT : Runtime}.

Definition is_published (e : event) : bool :=
  match e with
  | published _ _ _ _ => true
  | _ => false
  end.

(** How many messages a trace shows as handed to a channel. *)
Definition publications (t : list event) : nat :=
  List.length (filter is_published t).

(** Code that calls [sendToQueue] at most [n] times, whatever answers it
    gets, and that only makes calls and waits for answers. *)
Inductive publishes_at_most : nat -> task -> Prop :=
| pam_Done n : publishes_at_most n Done
| pam_Throw n e : publishes_at_most n (Throw e)
| pam_send n ch q body o k :
    (forall r, publishes_at_most n (k r)) ->
    publishes_at_most (S n) (Do (sendToQueue ch q body o) k)
| pam_Do n a k :
    (forall ch q body o, a <> sendToQueue ch q body o) ->
    (forall r, publishes_at_most n (k r)) ->
    publishes_at_most n (Do a k)
| pam_Await n r k :
    (forall v, publishes_at_most n (k v)) -> publishes_at_most n (Await r k)
| pam_Float a b t k :
    publishes_at_most a t -> publishes_at_most b k ->
    publishes_at_most (a + b) (Float t k).

(** The publications that the code put aside can still make. *)
Inductive budget : list waiter -> nat -> Prop :=
| budget_nil : budget [] 0
| budget_cons x l a b :
    w_onMessage x = None ->
    (forall v, publishes_at_most a (w_k x v)) ->
    budget l b -> budget (x :: l) (a + b).

(** A world with no consumer, reaction, listener or awaited promise. *)
Definition plain (w : world) : Prop :=
  consumers w = [] /\ reactions w = [] /\ listeners w = [] /\
  awaiting w = [].

(** A world whose publications, made and still possible, are at most [n]. *)
Definition owes (n : nat) (w : world) : Prop :=
  plain w /\
  exists m, budget (outstanding w) m /\ (publications (trace w) + m <= n)%nat.

End Counting.

(** *** What a listener is given and what it answers *)

Section Attention.
Context `{RT : Runtime}.

(** The values the handler was called with, in order. *)
Definition handled (t : list event) : list payload :=
  flat_map (fun e => match e with invoked m => [m] | _ => [] end) t.

(** The messages that were delivered to a consumer, in order. *)
Definition deliveries (t : list event) : list ConsumeMessage :=
  flat_map (fun e => match e with
                     | delivered _ (Some msg) => [msg]
                     | _ => []
                     end) t.

(** The messages that were acknowledged, in order. *)
Definition acknowledged (t : list event) : list ConsumeMessage :=
  flat_map (fun e => match e with acked _ msg => [msg] | _ => [] end) t.

(** The values of the messages whose payload can be decoded. *)
Definition decoded (l : list ConsumeMessage) : list payload :=
  flat_map (fun msg => match JSON_parse (utf8_decode (content msg)) with
                       | inr m => [m]
                       | inl _ => []
                       end) l.

Variable handler : payload -> HandlerResult.

(** Code that neither calls the handler nor acknowledges, leaves no reaction
    behind, and subscribes with the callback of [listen] only. *)
Inductive quiet : task -> Prop :=
| quiet_Done : quiet Done
| quiet_Throw e : quiet (Throw e)
| quiet_Do a k :
    match a with ack _ _ | invoke _ _ => False | _ => True end ->
    (forall r, quiet (k r)) -> quiet (Do a k)
| quiet_Await r k : (forall v, quiet (k v)) -> quiet (Await r k)
| quiet_AwaitConsume ch q o k :
    (forall v, quiet (k v)) ->
    quiet (AwaitConsume ch q (onMessage ch handler) o k)
| quiet_Float t k : quiet t -> quiet k -> quiet (Float t k)
| quiet_NewPromise k : (forall p, quiet (k p)) -> quiet (NewPromise k)
| quiet_AwaitPromise p k : quiet k -> quiet (AwaitPromise p k)
| quiet_AddAbortListener s l k :
    quiet l -> quiet k -> quiet (AddAbortListener s l k).

(** What a trace says of the handler and of the messages. *)
Definition heard (t : list event) :=
  (handled t, deliveries t, acknowledged t).

(** A reaction that acknowledges [msg] and does nothing else. *)
Definition acknowledges (c : HandlerPromise * task) (msg : ConsumeMessage)
  : Prop :=
  exists ch, snd c = Do (ack ch msg) (fun _ => Done).

(** A world in which all code put aside is quiet, but for the callbacks of
    [listen] and for the reactions that acknowledge the messages in
    [pending], one each. *)
Record attentive (pending : list ConsumeMessage) (w : world) : Prop := {
  att_outstanding :
    Forall (fun x => (forall v, quiet (w_k x v)) /\
                     (forall f, w_onMessage x = Some f ->
                        exists ch, f = onMessage ch handler))
           (outstanding w);
  att_consumers :
    Forall (fun c => exists ch, snd c = onMessage ch handler) (consumers w);
  att_reactions : Forall2 acknowledges (reactions w) pending;
  att_listeners : Forall (fun c => quiet (snd c)) (listeners w);
  att_awaiting : Forall (fun c => quiet (snd (snd c))) (awaiting w)
}.

(** Every delivery is acknowledged, waits in [pending] for the promise of the
    handler, or is left alone; none is counted twice. *)
Definition balanced (pending : list ConsumeMessage) (t : list event) : Prop :=
  exists rest,
    Permutation (acknowledged t ++ pending ++ rest)%list (deliveries t).

(** The handler was called once for every delivery that could be decoded, in
    the order of the deliveries, and no delivery is acknowledged twice. *)
Definition faithful (w : world) : Prop :=
  exists pending,
    attentive pending w /\
    handled (trace w) = decoded (deliveries (trace w)) /\
    balanced pending (trace w).

End Attention.

(** * Properties *)

Local Open Scope list_scope.

(** ** The sample runtime *)

Lemma unquote_escape (c : ascii) (rest : string) :
  Sample.unquote (Sample.escape c ++ rest)%string =
  option_map (String c) (Sample.unquote rest).
Proof.
  destruct c as [[ | ] [ | ] [ | ] [ | ] [ | ] [ | ] [ | ] [ | ]];
    reflexivity.
Qed.

Lemma append_assoc (a b c : string) :
  ((a ++ b) ++ c)%string = (a ++ (b ++ c))%string.
Proof. induction a as [ | x a IH]; simpl; [ | rewrite IH]; reflexivity. Qed.

Lemma unquote_escaped (s : string) :
  Sample.unquote (Sample.escaped s ++ String Sample.quote "")%string = Some s.
Proof.
  induction s as [ | c s IH]; simpl.
  - reflexivity.
  - rewrite append_assoc, unquote_escape, IH. reflexivity.
Qed.

(** The decoder of the sample reads back what its encoder writes. *)
Lemma sample_decodes_what_it_encodes (v : Sample.jsval) (text : string) :
  Sample.stringify v = inr (Some text) -> Sample.parse text = inr v.
Proof.
  destruct v as [ | | [ | ] | n | s]; simpl; intros E; inversion E; subst;
    try reflexivity.
  unfold Sample.parse, Sample.literal. simpl.
  rewrite unquote_escaped. reflexivity.
Qed.

(** ** The event loop keeps permissions *)

Section PermissionsKept.
Context `{RT : Runtime}.
Variable may_do : action -> Prop.
Variable may_ask : request -> Prop.
Local Abbreviation within := (within may_do may_ask).
Local Abbreviation tidy := (tidy may_do may_ask).
Local Abbreviation permitted := (permitted may_do may_ask).
Local Abbreviation waiter_within := (waiter_within may_do may_ask).

Lemma tidy_emit e w : permitted e -> tidy w -> tidy (emit e w).
Proof.
  intros He [Ht Ho Hc Hr Hl Ha]; constructor; simpl; auto.
  apply Forall_app; split; auto.
Qed.

Lemma run_tidy t :
  within t -> forall o w, tidy w -> tidy (run o t w).
Proof.
  induction 1 as [ | e | a k Ha Hk IH | r k Hr Hk IH
                 | ch q f opts k Hr Hf Hk IH | t k Ht IHt Hk IHk
                 | p c k Hc IHc Hk IHk | k Hk IH | p k Hk IH
                 | s l k Hl IHl Hk IHk ]; intros o w Hw; simpl.
  - apply tidy_emit; simpl; auto.
  - apply tidy_emit; simpl; auto.
  - destruct a; simpl; apply IH; simpl; auto.
    + destruct Hw; constructor; simpl; auto.
    + apply tidy_emit; simpl; auto.
    + apply tidy_emit; simpl; auto.
    + apply tidy_emit; simpl; auto.
    + apply tidy_emit; simpl; auto.
      destruct Hw; constructor; simpl; auto.
  - destruct Hw as [Ht Ho Hc Hr' Hl Ha]; constructor; simpl; auto.
    + apply Forall_app; split; auto.
    + apply Forall_app; split; auto.
      constructor; auto. split; simpl; auto. discriminate.
  - destruct Hw as [Ht Ho Hc Hr' Hl Ha]; constructor; simpl; auto.
    + apply Forall_app; split; auto.
    + apply Forall_app; split; auto.
      constructor; auto. split; simpl; auto.
      intros f' E; inversion E; subst; auto.
  - apply IHk, IHt, Hw.
  - apply IHk. destruct Hw; constructor; simpl; auto.
    apply Forall_app; split; auto.
  - apply IH. destruct Hw; constructor; simpl; auto.
  - destruct Hw; constructor; simpl; auto.
    apply Forall_app; split; auto.
  - apply IHk. destruct Hw; constructor; simpl; auto.
    apply Forall_app; split; auto.
Qed.

Lemma run_all_tidy l :
  Forall (fun c => within (snd c)) l ->
  forall w, tidy w -> tidy (run_all l w).
Proof.
  induction 1 as [ | [o t] l Ht Hl IH]; intros w Hw; simpl; auto.
  apply IH, run_tidy; auto.
Qed.

Lemma take_waiter_Forall (P : waiter -> Prop) id l x rest :
  take_waiter id l = Some (x, rest) ->
  Forall P l -> P x /\ Forall P rest.
Proof.
  revert x rest; induction l as [ | y l IH]; simpl; intros x rest E H.
  - discriminate.
  - inversion H as [ | ? ? Hy Hl]; subst.
    destruct (Nat.eqb (w_id y) id).
    + inversion E; subst; auto.
    + destruct (take_waiter id l) as [[z rest'] | ]; try discriminate.
      destruct (IH z rest' eq_refl Hl).
      inversion E; subst; auto.
Qed.

Lemma find_consumer_Forall
  (P : string * (option ConsumeMessage -> task) -> Prop) tag l f :
  find_consumer tag l = Some f -> Forall P l -> exists t, P (t, f).
Proof.
  induction l as [ | [t g] l IH]; simpl; intros E H.
  - discriminate.
  - inversion H; subst.
    destruct (String.eqb t tag).
    + inversion E; subst; eauto.
    + auto.
Qed.

Lemma Forall_filter {A} (P : A -> Prop) f l :
  Forall P l -> Forall P (filter f l).
Proof.
  induction 1; simpl; auto. destruct (f x); auto.
Qed.

Lemma confirm_tidy x w : waiter_within x -> tidy w -> tidy (confirm x w).
Proof.
  intros [Hk Hf] Hw. unfold confirm.
  destruct x as [xid xo xr xf xk]; simpl in *.
  destruct xr; auto.
  - destruct xf as [f | ]; auto.
    destruct Hw; constructor; simpl in *; auto.
    apply Forall_app; split; auto.
  - destruct Hw; constructor; simpl in *; auto.
    apply Forall_filter; auto.
Qed.

Lemma step_tidy i w : tidy w -> tidy (step i w).
Proof.
  intros Hw. destruct i as [id outcome | tag msg | p outcome | s | p]; simpl.
  - destruct (take_waiter id (outstanding w)) as [[x rest] | ] eqn:E; auto.
    destruct (take_waiter_Forall _ _ _ _ _ E (tidy_outstanding _ _ _ Hw))
      as [[Hk Hf] Hrest].
    assert (H1 : tidy (emit (replied id (w_request x) outcome)
                            (with_outstanding rest w))).
    { apply tidy_emit; simpl; auto.
      destruct Hw; constructor; simpl; auto. }
    destruct outcome as [e | ].
    + apply (run_tidy (Throw e)); auto. constructor.
    + apply run_tidy; auto. apply confirm_tidy; auto. split; auto.
  - destruct (find_consumer tag (consumers w)) as [f | ] eqn:E; auto.
    destruct (find_consumer_Forall _ _ _ _ E (tidy_consumers _ _ _ Hw))
      as [t Hf].
    apply run_tidy; auto. apply tidy_emit; simpl; auto.
  - set (w1 := if existsb (Nat.eqb p) (settled_promises w) then w
               else emit (handler_settled p outcome)
                         (with_settled (p :: settled_promises w) w)).
    assert (H1 : tidy w1).
    { unfold w1. destruct (existsb (Nat.eqb p) (settled_promises w)); auto.
      apply tidy_emit; simpl; auto. destruct Hw; constructor; simpl; auto. }
    apply run_all_tidy.
    + apply Forall_map; simpl. apply Forall_filter.
      apply (tidy_reactions _ _ _ H1).
    + destruct H1; constructor; simpl; auto. apply Forall_filter; auto.
  - destruct (existsb (Nat.eqb s) (aborted w)); auto.
    apply run_all_tidy.
    + apply Forall_map; simpl. apply Forall_filter.
      apply (tidy_listeners _ _ _ Hw).
    + apply tidy_emit; simpl; auto. destruct Hw; constructor; simpl; auto.
  - destruct (existsb (Nat.eqb p) (resolved_promises w)); auto.
    apply run_all_tidy.
    + apply Forall_map; simpl. apply Forall_filter.
      apply (tidy_awaiting _ _ _ Hw).
    + destruct Hw; constructor; simpl; auto. apply Forall_filter; auto.
Qed.

Lemma exec_tidy schedule : forall w, tidy w -> tidy (exec schedule w).
Proof.
  induction schedule as [ | i l IH]; simpl; intros w Hw; auto.
  apply IH, step_tidy, Hw.
Qed.

Lemma tidy_instance cached gone : tidy (instance cached gone).
Proof. constructor; simpl; constructor. Qed.

(** Whatever reaches a program that starts with one permitted call, only
    permitted events happen. *)
Lemma permitted_always method (m : async unit) cached gone schedule :
  within (m (fun _ => Done)) ->
  Forall permitted
    (trace (exec schedule (start method m (instance cached gone)))).
Proof.
  intros H. apply tidy_trace, exec_tidy, run_tidy; auto.
  apply tidy_instance.
Qed.

End PermissionsKept.

(** ** Every world that is reached is well numbered *)

Section Numbering.
Context `{RT : Runtime}.

Lemma well_numbered_next w n l :
  well_numbered w -> (next w <= n)%nat ->
  Forall (fun x => (w_id x < n)%nat) l ->
  well_numbered (with_outstanding (outstanding w ++ l) (with_next n w)).
Proof.
  intros Hw Hn Hl. unfold well_numbered; simpl.
  apply Forall_app; split; auto.
  eapply Forall_impl; [ | exact Hw]. simpl; intros; lia.
Qed.

Lemma run_well_numbered t :
  forall o w, well_numbered w -> well_numbered (run o t w).
Proof.
  induction t as [ | e | a k IH | r k IH | ch q f IHf opts k IH
                 | t IHt k IHk | p c IHc k IHk | k IH | p k IH
                 | s l IHl k IHk ]; intros o w Hw; simpl.
  - exact Hw.
  - exact Hw.
  - destruct a; simpl; apply IH; exact Hw.
  - apply (well_numbered_next w (S (next w)) [_]); auto.
  - apply (well_numbered_next w (S (next w)) [_]); auto.
  - apply IHk, IHt, Hw.
  - apply IHk. exact Hw.
  - apply IH. unfold well_numbered in *; simpl.
    eapply Forall_impl; [ | exact Hw]. simpl; intros; lia.
  - exact Hw.
  - apply IHk. exact Hw.
Qed.

Lemma run_all_well_numbered l :
  forall w, well_numbered w -> well_numbered (run_all l w).
Proof.
  induction l as [ | [o t] l IH]; simpl; intros w Hw; auto.
  apply IH, run_well_numbered, Hw.
Qed.

Lemma step_well_numbered i w : well_numbered w -> well_numbered (step i w).
Proof.
  intros Hw. destruct i as [id outcome | tag msg | p outcome | s | p]; simpl.
  - destruct (take_waiter id (outstanding w)) as [[x rest] | ] eqn:E; auto.
    destruct (take_waiter_Forall _ _ _ _ _ E Hw) as [_ Hrest].
    destruct outcome as [e | ]; [exact Hrest | ].
    apply run_well_numbered. unfold confirm.
    destruct (w_request x); try exact Hrest.
    destruct (w_onMessage x); exact Hrest.
  - destruct (find_consumer tag (consumers w)); auto.
    apply run_well_numbered. exact Hw.
  - apply run_all_well_numbered.
    destruct (existsb (Nat.eqb p) (settled_promises w)); exact Hw.
  - destruct (existsb (Nat.eqb s) (aborted w)); auto.
    apply run_all_well_numbered. exact Hw.
  - destruct (existsb (Nat.eqb p) (resolved_promises w)); auto.
    apply run_all_well_numbered. exact Hw.
Qed.

(** The worlds that the calls of the class and the inputs lead to from an
    instance satisfy the hypothesis [well_numbered] of the properties
    below. *)
Lemma exec_well_numbered schedule :
  forall w, well_numbered w -> well_numbered (exec schedule w).
Proof.
  induction schedule as [ | i l IH]; simpl; intros w Hw; auto.
  apply IH, step_well_numbered, Hw.
Qed.

Lemma start_well_numbered method (m : async unit) w :
  well_numbered w -> well_numbered (start method m w).
Proof. apply run_well_numbered. Qed.

Lemma instance_well_numbered cached gone :
  well_numbered (instance cached gone).
Proof. constructor. Qed.

End Numbering.

(** ** enqueue *)

Section Enqueue.
Context `{RT : Runtime}.
Variable this : AmqpMessageQueue.

Lemma take_waiter_last id (l : list waiter) x :
  Forall (fun y => (w_id y < id)%nat) l -> w_id x = id ->
  take_waiter id (l ++ [x]) = Some (x, l).
Proof.
  intros Hl Hx. induction Hl as [ | y l Hy Hl IH]; simpl.
  - rewrite Hx, Nat.eqb_refl. reflexivity.
  - destruct (Nat.eqb_spec (w_id y) id) as [E | _]; [lia | ].
    rewrite IH. reflexivity.
Qed.

Lemma app_cons_assoc {A} (l : list A) x m : (l ++ [x]) ++ m = l ++ x :: m.
Proof. rewrite <- app_assoc. reflexivity. Qed.

(** The call without a delay, when nothing fails. *)
Lemma enqueued_direct message options body w :
  well_numbered w ->
  no_delay (delay_of options) = true ->
  message_body message = inr body ->
  trace (enqueued this message options w) =
  trace w ++ opening this w ++
  [published (sender w) (this_queue this) body
     {| persistent := this_durable this; contentType := "application/json" |};
   returned (caller "enqueue")].
Proof.
  intros Hw Hd Hb.
  unfold enqueued, sender, opening, start, enqueue, getSenderChannel, publish,
    bind, call, checked.
  simpl. destruct (senderChannel w) as [channel | ] eqn:Hc; simpl.
  - unfold route, ret.
    destruct (delay_of options) as [d | ]; [rewrite Hd | ]; rewrite Hb;
      simpl; rewrite app_cons_assoc; reflexivity.
  - rewrite take_waiter_last by auto. simpl.
    unfold route, ret.
    destruct (delay_of options) as [d | ]; [rewrite Hd | ]; rewrite Hb;
      simpl; rewrite !app_cons_assoc; reflexivity.
Qed.

(** The call without a delay, when the message cannot be serialized. *)
Lemma enqueued_direct_unserializable message options e w :
  well_numbered w ->
  no_delay (delay_of options) = true ->
  message_body message = inl e ->
  trace (enqueued this message options w) =
  trace w ++ opening this w ++ [threw (caller "enqueue") e].
Proof.
  intros Hw Hd Hb.
  unfold enqueued, sender, opening, start, enqueue, getSenderChannel, publish,
    bind, call, checked.
  simpl. destruct (senderChannel w) as [channel | ] eqn:Hc; simpl.
  - unfold route, ret.
    destruct (delay_of options) as [d | ]; [rewrite Hd | ]; rewrite Hb;
      reflexivity.
  - rewrite take_waiter_last by auto. simpl.
    unfold route, ret.
    destruct (delay_of options) as [d | ]; [rewrite Hd | ]; rewrite Hb;
      simpl; rewrite !app_cons_assoc; reflexivity.
Qed.

Lemma positive_delay d : 0 < nanos d -> no_delay (Some d) = false.
Proof. simpl. intros H. apply Z.leb_gt, H. Qed.

(** The call with a positive delay declares the queue of that delay and
    waits. *)
Lemma enqueued_delayed message options d w :
  well_numbered w ->
  delay_of options = Some d -> 0 < nanos d ->
  trace (enqueued this message options w) =
  trace w ++ opening this w ++
  [sent (following w)
     (assertQueue (sender w) (delayedQueue this d)
        {| autoDelete := Some true;
           durable := Some (this_durable this);
           deadLetterExchange := Some "";
           deadLetterRoutingKey := Some (this_queue this);
           messageTtl := Some d |})].
Proof.
  intros Hw Hd Hp.
  unfold enqueued, sender, opening, following, start, enqueue,
    getSenderChannel, bind, call.
  simpl. destruct (senderChannel w) as [channel | ] eqn:Hc; simpl.
  - unfold route, ret, bind, await. rewrite Hd, (positive_delay d Hp).
    reflexivity.
  - rewrite take_waiter_last by auto. simpl.
    unfold route, ret, bind, await. rewrite Hd, (positive_delay d Hp).
    simpl. rewrite !app_cons_assoc; reflexivity.
Qed.

(** What the broker's answer to that declaration leads to. *)
Lemma enqueued_delayed_answered message options d outcome w :
  well_numbered w ->
  delay_of options = Some d -> 0 < nanos d ->
  trace (step (Reply (following w) outcome)
              (enqueued this message options w)) =
  trace (enqueued this message options w) ++
  replied (following w)
    (assertQueue (sender w) (delayedQueue this d)
       {| autoDelete := Some true;
          durable := Some (this_durable this);
          deadLetterExchange := Some "";
          deadLetterRoutingKey := Some (this_queue this);
          messageTtl := Some d |}) outcome ::
  match outcome, message_body message with
  | Some e, _ => [threw (caller "enqueue") e]
  | None, inl e => [threw (caller "enqueue") e]
  | None, inr body =>
      [published (sender w) (delayedQueue this d) body
         {| persistent := this_durable this;
            contentType := "application/json" |};
       returned (caller "enqueue")]
  end.
Proof.
  intros Hw Hd Hp.
  unfold enqueued, sender, opening, following, start, enqueue,
    getSenderChannel, bind, call.
  simpl. destruct (senderChannel w) as [channel | ] eqn:Hc; simpl.
  - unfold route, ret, bind, await. rewrite Hd, (positive_delay d Hp).
    simpl. rewrite take_waiter_last by auto. simpl.
    destruct outcome as [e | ]; simpl.
    + rewrite !app_cons_assoc; reflexivity.
    + unfold publish, bind, checked, call, ret.
      destruct (message_body message) as [e | body]; simpl;
        rewrite !app_cons_assoc; reflexivity.
  - rewrite take_waiter_last by auto. simpl.
    unfold route, ret, bind, await. rewrite Hd, (positive_delay d Hp).
    simpl. rewrite take_waiter_last.
    + simpl. destruct outcome as [e | ]; simpl.
      * rewrite !app_cons_assoc; reflexivity.
      * unfold publish, bind, checked, call, ret.
        destruct (message_body message) as [e | body]; simpl;
          rewrite !app_cons_assoc; reflexivity.
    + apply Forall_app; split.
      * eapply Forall_impl; [ | exact Hw]. simpl; intros; lia.
      * constructor; simpl; auto.
    + reflexivity.
Qed.

(** When the broker refuses the channel, the call fails with that error. *)
Lemma enqueue_without_channel message options e w :
  well_numbered w -> senderChannel w = None ->
  trace (step (Reply (next w) (Some e))
              (start "enqueue" (enqueue this message options) w)) =
  trace w ++ [sent (next w) createChannel;
              replied (next w) createChannel (Some e);
              threw (caller "enqueue") e].
Proof.
  intros Hw Hc.
  unfold start, enqueue, getSenderChannel, bind, call.
  simpl. rewrite Hc. simpl. rewrite take_waiter_last by auto. simpl.
  rewrite !app_cons_assoc; reflexivity.
Qed.

(** All that [enqueue] can do, under any answers of the broker. *)
Lemma enqueue_within (may_do : action -> Prop) (may_ask : request -> Prop)
  message options :
  may_do get_senderChannel ->
  (forall ch, may_do (set_senderChannel ch)) ->
  may_ask createChannel ->
  (forall ch,
     may_ask (assertQueue ch (this_queue this)
                {| durable := Some (this_durable this); autoDelete := None;
                   deadLetterExchange := None; deadLetterRoutingKey := None;
                   messageTtl := None |})) ->
  (forall ch d, delay_of options = Some d -> 0 < nanos d ->
     may_ask (assertQueue ch (delayedQueue this d)
                {| autoDelete := Some true;
                   durable := Some (this_durable this);
                   deadLetterExchange := Some "";
                   deadLetterRoutingKey := Some (this_queue this);
                   messageTtl := Some d |})) ->
  (forall ch body, message_body message = inr body ->
     may_do (sendToQueue ch (target this options) body
               {| persistent := this_durable this;
                  contentType := "application/json" |})) ->
  within may_do may_ask (enqueue this message options (fun _ => Done)).
Proof.
  intros Hget Hset Hcreate Hmain Hdelay Hsend.
  assert (Hpublish : forall ch,
            within may_do may_ask
              (publish this ch (target this options) message
                 (fun _ => Done))).
  { intros ch. unfold publish, bind, checked, call, ret, throw.
    destruct (message_body message) as [e | body] eqn:Hb.
    - constructor.
    - constructor; auto. intros _ _. constructor. }
  assert (Hroute : forall ch,
            within may_do may_ask
              (route this ch options
                 (fun queue => publish this ch queue message
                                 (fun _ => Done)))).
  { intros ch. generalize (Hpublish ch) (Hdelay ch). unfold target, route.
    destruct (delay_of options) as [d | ]; auto.
    unfold bind, await, ret.
    destruct (no_delay (Some d)) eqn:Hd; auto.
    intros Hp Ha. constructor; auto.
    apply Ha; auto. simpl in Hd. apply Z.leb_gt, Hd. }
  unfold enqueue, getSenderChannel, bind, call.
  constructor; auto. intros [channel | ] _; simpl.
  - apply Hroute.
  - constructor; auto. intros channel.
    constructor; auto. intros _ _.
    unfold float, prepareQueue, await, ret.
    constructor.
    + constructor; auto. intros _. constructor.
    + apply Hroute.
Qed.

End Enqueue.

Lemma no_delay_cases (d : option number) :
  d = None \/ (exists x, d = Some x /\ nanos x <= 0) -> no_delay d = true.
Proof.
  intros [-> | [x [-> Hx]]]; simpl; auto. apply Z.leb_le, Hx.
Qed.

Lemma Forall_In_inv {A} (P : A -> Prop) l :
  Forall P l -> forall x, In x l -> P x.
Proof. intros H. apply Forall_forall, H. Qed.

(** C6: an [enqueue] call whose delay is absent, zero or negative publishes
    the message directly to the main queue and declares no delay queue: the
    call adds to the trace the opening of the channel (if it is not cached),
    the publication to the main queue and its return; and whatever the broker
    and the schedule, every queue declaration of that call is the one of the
    main queue and every publication goes to the main queue. *)
Theorem enqueue_without_delay_uses_main_queue `{RT : Runtime}
  (this : AmqpMessageQueue) (message : payload)
  (options : option MessageQueueEnqueueOptions) (body : Buffer) :
  (delay_of options = None \/
   exists d, delay_of options = Some d /\ nanos d <= 0) ->
  message_body message = inr body ->
  (forall w, well_numbered w ->
     trace (enqueued this message options w) =
     trace w ++ opening this w ++
     [published (sender w) (this_queue this) body
        {| persistent := this_durable this;
           contentType := "application/json" |};
      returned (caller "enqueue")]) /\
  (forall cached gone schedule e,
     In e (trace (exec schedule
                    (start "enqueue" (enqueue this message options)
                       (instance cached gone)))) ->
     match e with
     | sent _ (assertQueue _ q o) =>
         q = this_queue this /\
         o = {| durable := Some (this_durable this); autoDelete := None;
                deadLetterExchange := None; deadLetterRoutingKey := None;
                messageTtl := None |}
     | published _ q _ _ => q = this_queue this
     | _ => True
     end).
Proof.
  intros Hd Hb. apply no_delay_cases in Hd. split.
  - intros w Hw. apply enqueued_direct; auto.
  - intros cached gone schedule e He.
    set (may_do := fun a : action =>
           match a with
           | sendToQueue _ q _ _ => q = this_queue this
           | _ => True
           end).
    set (may_ask := fun r : request =>
           match r with
           | assertQueue _ q o =>
               q = this_queue this /\
               o = {| durable := Some (this_durable this); autoDelete := None;
                      deadLetterExchange := None;
                      deadLetterRoutingKey := None; messageTtl := None |}
           | _ => True
           end).
    assert (H : permitted may_do may_ask e).
    { eapply Forall_In_inv; [ | exact He].
      apply permitted_always.
      apply enqueue_within; simpl; auto.
      - intros ch d E Hp. rewrite E in Hd. simpl in Hd.
        apply Z.leb_le in Hd. lia.
      - intros ch b _. unfold target.
        destruct (delay_of options) as [d | ]; auto. rewrite Hd; auto. }
    destruct e; simpl in H; auto.
Qed.

Lemma enqueue_without_delay_uses_main_queue_witness :
  trace (enqueued (RT := Sample.runtime) Sample.mq Sample.hello None
           (initial [])) =
  [sent 0 createChannel;
   replied 0 createChannel None;
   sent 1 (assertQueue 0%nat "fedify_queue"
             {| durable := Some true; autoDelete := None;
                deadLetterExchange := None; deadLetterRoutingKey := None;
                messageTtl := None |});
   published 0%nat "fedify_queue" Sample.hello_body
     {| persistent := true; contentType := "application/json" |};
   returned (caller "enqueue")].
Proof.
  apply (proj1 (enqueue_without_delay_uses_main_queue
                  (RT := Sample.runtime) Sample.mq Sample.hello None
                  Sample.hello_body
                  (or_introl eq_refl) eq_refl) (initial [])).
  constructor.
Defined.

(** ** The name of a delay queue *)









(** ** What enqueue declares and publishes *)

(** C7: an [enqueue] call with a positive delay [d] declares the queue of
    that delay with auto-delete on, a message time-to-live of [d],
    dead-lettering through the default exchange with the name of the main
    queue as routing key, and the configured durability; it publishes only
    when the broker has answered that declaration, and not at all when the
    broker refuses it. *)
Theorem enqueue_with_delay_declares_delay_queue `{RT : Runtime}
  (this : AmqpMessageQueue) (message : payload)
  (options : option MessageQueueEnqueueOptions) (d : number) (w : world) :
  well_numbered w ->
  delay_of options = Some d -> 0 < nanos d ->
  let declaration :=
    assertQueue (sender w) (delayedQueue this d)
      {| autoDelete := Some true;
         durable := Some (this_durable this);
         deadLetterExchange := Some "";
         deadLetterRoutingKey := Some (this_queue this);
         messageTtl := Some d |} in
  let declared := enqueued this message options w in
  trace declared =
    trace w ++ opening this w ++ [sent (following w) declaration] /\
  (forall body, message_body message = inr body ->
     trace (step (Reply (following w) None) declared) =
     trace declared ++
     [replied (following w) declaration None;
      published (sender w) (delayedQueue this d) body
        {| persistent := this_durable this;
           contentType := "application/json" |};
      returned (caller "enqueue")]) /\
  (forall e,
     trace (step (Reply (following w) (Some e)) declared) =
     trace declared ++
     [replied (following w) declaration (Some e);
      threw (caller "enqueue") e]).
Proof.
  intros Hw Hd Hp declaration declared. split; [ | split].
  - apply enqueued_delayed; auto.
  - intros body Hb. unfold declared.
    rewrite (enqueued_delayed_answered this message options d None w) by auto.
    rewrite Hb. reflexivity.
  - intros e. unfold declared.
    rewrite (enqueued_delayed_answered this message options d (Some e) w)
      by auto.
    reflexivity.
Qed.

Lemma enqueue_with_delay_declares_delay_queue_witness :
  trace (step (Reply 2 None)
           (enqueued (RT := Sample.runtime) Sample.mq Sample.hello
              Sample.three_seconds (initial []))) =
  [sent 0 createChannel;
   replied 0 createChannel None;
   sent 1 (assertQueue 0%nat "fedify_queue"
             {| durable := Some true; autoDelete := None;
                deadLetterExchange := None; deadLetterRoutingKey := None;
                messageTtl := None |});
   sent 2 (assertQueue 0%nat "fedify_delayed_3000"
             {| autoDelete := Some true; durable := Some true;
                deadLetterExchange := Some "";
                deadLetterRoutingKey := Some "fedify_queue";
                messageTtl := Some (milliseconds 3000) |});
   replied 2 (assertQueue 0%nat "fedify_delayed_3000"
                {| autoDelete := Some true; durable := Some true;
                   deadLetterExchange := Some "";
                   deadLetterRoutingKey := Some "fedify_queue";
                   messageTtl := Some (milliseconds 3000) |}) None;
   published 0%nat "fedify_delayed_3000" Sample.hello_body
     {| persistent := true; contentType := "application/json" |};
   returned (caller "enqueue")].
Proof.
  destruct (enqueue_with_delay_declares_delay_queue
              (RT := Sample.runtime) Sample.mq Sample.hello
              Sample.three_seconds (milliseconds 3000) (initial [])
              (Forall_nil _) eq_refl eq_refl) as [H1 [H2 _]].
  etransitivity; [exact (H2 Sample.hello_body eq_refl) | ].
  rewrite H1. reflexivity.
Defined.

(** C8: every message that [enqueue] publishes, whatever the options, the
    answers of the broker and the schedule, is sent with the persistent flag
    equal to the configured durable flag and the content type
    "application/json", and its body is the UTF-8 encoding of the JSON text of
    the message. *)
Theorem enqueue_publishes_persistent_json `{RT : Runtime}
  (this : AmqpMessageQueue) (message : payload)
  (options : option MessageQueueEnqueueOptions)
  (cached : option Channel) (gone : list AbortSignal) (schedule : list input)
  (ch : Channel) (q : string) (body : Buffer) (o : PublishOptions) :
  In (published ch q body o)
     (trace (exec schedule
               (start "enqueue" (enqueue this message options)
                  (instance cached gone)))) ->
  o = {| persistent := this_durable this;
         contentType := "application/json" |} /\
  exists text,
    JSON_stringify message = inr (Some text) /\ body = utf8_encode text.
Proof.
  intros He.
  set (may_do := fun a : action =>
         match a with
         | sendToQueue _ _ b p =>
             p = {| persistent := this_durable this;
                    contentType := "application/json" |} /\
             exists text,
               JSON_stringify message = inr (Some text) /\
               b = utf8_encode text
         | _ => True
         end).
  assert (H : permitted may_do (fun _ => True) (published ch q body o)).
  { eapply Forall_In_inv; [ | exact He].
    apply permitted_always.
    apply enqueue_within; simpl; auto.
    intros c b Hb. split; auto.
    unfold message_body in Hb.
    destruct (JSON_stringify message) as [e | [text | ]]; try discriminate.
    simpl in Hb. inversion Hb. eauto. }
  exact H.
Qed.

Lemma enqueue_publishes_persistent_json_witness :
  {| persistent := true; contentType := "application/json" |} =
  {| persistent := this_durable Sample.mq;
     contentType := "application/json" |} /\
  exists text,
    Sample.stringify Sample.hello = inr (Some text) /\
    Sample.hello_body = list_byte_of_string text.
Proof.
  apply (enqueue_publishes_persistent_json
           (RT := Sample.runtime) Sample.mq Sample.hello None
           None [] [Reply 0 None] 0%nat "fedify_queue").
  simpl. auto.
Defined.

(** C2, as amended: when the message cannot be serialized, [enqueue] fails
    with the error of the serialization and publishes nothing, under any
    schedule; the failure comes once the channel is there (created, with the
    declaration of the main queue sent, when it is not cached) and, for a
    positive delay, once the delay queue is declared. *)
Theorem unserializable_message_is_not_published `{RT : Runtime}
  (this : AmqpMessageQueue) (message : payload)
  (options : option MessageQueueEnqueueOptions) (e : exn) :
  message_body message = inl e ->
  (forall cached gone schedule ch q body o,
     ~ In (published ch q body o)
          (trace (exec schedule
                    (start "enqueue" (enqueue this message options)
                       (instance cached gone))))) /\
  (forall w, well_numbered w ->
     no_delay (delay_of options) = true ->
     trace (enqueued this message options w) =
     trace w ++ opening this w ++ [threw (caller "enqueue") e]) /\
  (forall w d, well_numbered w ->
     delay_of options = Some d -> 0 < nanos d ->
     let declaration :=
       assertQueue (sender w) (delayedQueue this d)
         {| autoDelete := Some true;
            durable := Some (this_durable this);
            deadLetterExchange := Some "";
            deadLetterRoutingKey := Some (this_queue this);
            messageTtl := Some d |} in
     trace (step (Reply (following w) None)
                 (enqueued this message options w)) =
     trace w ++ opening this w ++
     [sent (following w) declaration;
      replied (following w) declaration None;
      threw (caller "enqueue") e]).
Proof.
  intros Hb. split; [ | split].
  - intros cached gone schedule ch q body o He.
    set (may_do := fun a : action =>
           match a with
           | sendToQueue _ _ _ _ => False
           | _ => True
           end).
    assert (H : permitted may_do (fun _ => True) (published ch q body o)).
    { eapply Forall_In_inv; [ | exact He].
      apply permitted_always.
      apply enqueue_within; simpl; auto.
      intros c b Hb'. rewrite Hb in Hb'. discriminate. }
    exact H.
  - intros w Hw Hd. apply enqueued_direct_unserializable; auto.
  - intros w d Hw Hd Hp declaration.
    rewrite (enqueued_delayed_answered this message options d None w) by auto.
    rewrite (enqueued_delayed this message options d w) by auto.
    rewrite Hb. rewrite <- !app_assoc. reflexivity.
Qed.

Lemma unserializable_message_is_not_published_witness :
  trace (enqueued (RT := Sample.runtime) Sample.mq (Sample.js_bigint 1) None
           (initial [])) =
  [sent 0 createChannel;
   replied 0 createChannel None;
   sent 1 (assertQueue 0%nat "fedify_queue"
             {| durable := Some true; autoDelete := None;
                deadLetterExchange := None; deadLetterRoutingKey := None;
                messageTtl := None |});
   threw (caller "enqueue")
     (TypeError "Do not know how to serialize a BigInt")].
Proof.
  apply (proj1 (proj2 (unserializable_message_is_not_published
                         (RT := Sample.runtime) Sample.mq
                         (Sample.js_bigint 1) None
                         (TypeError "Do not know how to serialize a BigInt")
                         eq_refl)) (initial []) (Forall_nil _) eq_refl).
Defined.

(** C2, as stated, fails: a BigInt cannot be serialized, and the call that is
    to send it with a delay of three seconds on a new instance creates the
    channel, sends the declaration of the main queue and has the delay queue
    declared before it fails with the [TypeError] of [JSON.stringify]. *)
Lemma unserializable_message_reaches_broker :
  Sample.stringify (Sample.js_bigint 1) =
    inl (TypeError "Do not know how to serialize a BigInt") /\
  trace (step (Reply 2 None)
           (enqueued (RT := Sample.runtime) Sample.mq (Sample.js_bigint 1)
              Sample.three_seconds (initial []))) =
  [sent 0 createChannel;
   replied 0 createChannel None;
   sent 1 (assertQueue 0%nat "fedify_queue"
             {| durable := Some true; autoDelete := None;
                deadLetterExchange := None; deadLetterRoutingKey := None;
                messageTtl := None |});
   sent 2 (assertQueue 0%nat "fedify_delayed_3000"
             {| autoDelete := Some true; durable := Some true;
                deadLetterExchange := Some "";
                deadLetterRoutingKey := Some "fedify_queue";
                messageTtl := Some (milliseconds 3000) |});
   replied 2 (assertQueue 0%nat "fedify_delayed_3000"
                {| autoDelete := Some true; durable := Some true;
                   deadLetterExchange := Some "";
                   deadLetterRoutingKey := Some "fedify_queue";
                   messageTtl := Some (milliseconds 3000) |}) None;
   threw (caller "enqueue")
     (TypeError "Do not know how to serialize a BigInt")].
Proof. split; reflexivity. Qed.

(** ** The sender channel *)

(** C3 fails on the code: when the instance has no sender channel and the
    broker has created one, [#getSenderChannel] sends the declaration of the
    main queue and returns at once; when its promise resolves the declaration
    is still unanswered (the call is outstanding, and no reply to it is in the
    trace).  Every later call returns the cached channel at once, whether the
    declaration has been answered or not. *)
Theorem getSenderChannel_returns_before_declared `{RT : Runtime}
  (this : AmqpMessageQueue) (w : world) :
  well_numbered w ->
  let getter := bind (getSenderChannel this) (fun _ => ret tt) in
  (senderChannel w = None ->
   let w' := step (Reply (next w) None)
                  (start "getSenderChannel" getter w) in
   trace w' =
     trace w ++
     [sent (next w) createChannel;
      replied (next w) createChannel None;
      sent (S (next w))
        (assertQueue (next w) (this_queue this)
           {| durable := Some (this_durable this); autoDelete := None;
              deadLetterExchange := None; deadLetterRoutingKey := None;
              messageTtl := None |});
      returned (caller "getSenderChannel")] /\
   map w_id (outstanding w') = map w_id (outstanding w) ++ [S (next w)] /\
   senderChannel w' = Some (next w)) /\
  (forall channel, senderChannel w = Some channel ->
   start "getSenderChannel" getter w =
   emit (returned (caller "getSenderChannel")) w).
Proof.
  intros Hw getter. split.
  - intros Hc. unfold getter, start, getSenderChannel, bind, call.
    simpl. rewrite Hc. simpl. rewrite take_waiter_last by auto. simpl.
    rewrite !app_cons_assoc, map_app. auto.
  - intros channel Hc. unfold getter, start, getSenderChannel, bind, call.
    simpl. rewrite Hc. reflexivity.
Qed.

Lemma getSenderChannel_returns_before_declared_witness :
  trace (step (Reply 0 None)
           (start (RT := Sample.runtime) "getSenderChannel"
              (bind (getSenderChannel Sample.mq) (fun _ => ret tt))
              (initial []))) =
  [sent 0 createChannel;
   replied 0 createChannel None;
   sent 1 (assertQueue 0%nat "fedify_queue"
             {| durable := Some true; autoDelete := None;
                deadLetterExchange := None; deadLetterRoutingKey := None;
                messageTtl := None |});
   returned (caller "getSenderChannel")] /\
  map w_id
    (outstanding
       (step (Reply 0 None)
          (start (RT := Sample.runtime) "getSenderChannel"
             (bind (getSenderChannel Sample.mq) (fun _ => ret tt))
             (initial [])))) = [1%nat].
Proof.
  destruct (proj1 (getSenderChannel_returns_before_declared
                     (RT := Sample.runtime) Sample.mq (initial [])
                     (Forall_nil _)) eq_refl) as [Ht [Ho _]].
  split; [exact Ht | exact Ho].
Defined.

(** ** listen: every world a listener can be in *)

Section Listen.
Context `{RT : Runtime}.
Variable this : AmqpMessageQueue.
Variable handler : payload -> HandlerResult.
Variable gone : list AbortSignal.

Local Abbreviation canon := (canon this handler).
Local Abbreviation at_stage sig := (at_stage this handler sig gone).
Local Arguments Nat.eqb : simpl never.
Local Arguments String.eqb : simpl never.

Lemma marks_app (a b : list event) : marks (a ++ b) = marks a ++ marks b.
Proof. apply flat_map_app. Qed.

Ltac calm_now :=
  unfold calm, core; simpl;
  repeat match goal with
         | |- _ /\ _ => split
         | |- marks (_ ++ _) = _ => rewrite !marks_app; simpl;
                                    rewrite ?app_nil_r; reflexivity
         | |- incl ?a ?a => apply incl_refl
         | |- _ = _ => reflexivity
         | |- Forall _ ?l -> Forall _ ?l => exact (fun H => H)
         end.

Lemma calm_refl w : calm w w.
Proof. repeat split; auto. apply incl_refl. Qed.

Lemma calm_trans w1 w2 w3 : calm w1 w2 -> calm w2 w3 -> calm w1 w3.
Proof.
  intros (A1 & A2 & A3 & A4 & A5) (B1 & B2 & B3 & B4 & B5).
  repeat split; try congruence; auto.
  eapply incl_tran; eauto.
Qed.

Lemma calm_emit e w : mark_of e = [] -> calm w (emit e w).
Proof.
  intros He. repeat split; simpl; auto.
  - rewrite marks_app. simpl. rewrite He, !app_nil_r. reflexivity.
  - apply incl_refl.
Qed.

Lemma at_stage_calm sig st w w' :
  at_stage sig st w -> calm w w' -> at_stage sig st w'.
Proof.
  intros (A1 & A2 & A3 & A4 & A5 & A6) (B1 & B2 & B3 & B4 & B5).
  split; [congruence | ].
  split; [destruct A2; [left | right]; congruence | ].
  split; [congruence | ].
  split; [auto | ].
  split; [eapply incl_tran; eauto | ].
  intros Hl. destruct (A6 Hl) as (s & Hs & Hin & Hn). eauto 6.
Qed.

Lemma calm_run_ack p msg w :
  calm w (run (reaction p) (Do (ack 0%nat msg) (fun _ => Done)) w).
Proof.
  simpl. eapply calm_trans; apply calm_emit; reflexivity.
Qed.

Lemma calm_run_acks p due : forall w,
  Forall is_ack due ->
  calm w (run_all (map (fun c => (reaction p, snd c)) due) w).
Proof.
  induction due as [ | [q t] due IH]; simpl; intros w H.
  - apply calm_refl.
  - inversion H as [ | ? ? [msg Hm] Hd]; subst. simpl in Hm. subst t.
    eapply calm_trans; [ | apply IH; exact Hd].
    apply (calm_run_ack p msg w).
Qed.

Lemma calm_settle p outcome w :
  Forall is_ack (reactions w) -> calm w (step (Settle p outcome) w).
Proof.
  intros Hr. simpl.
  set (w1 := if existsb (Nat.eqb p) (settled_promises w) then w
             else emit (handler_settled p outcome)
                       (with_settled (p :: settled_promises w) w)).
  assert (H1 : calm w w1).
  { unfold w1. destruct (existsb (Nat.eqb p) (settled_promises w)).
    - apply calm_refl.
    - repeat split; simpl; auto.
      + rewrite marks_app. simpl. apply app_nil_r.
      + apply incl_refl. }
  assert (Hr1 : Forall is_ack (reactions w1)) by (apply H1; exact Hr).
  eapply calm_trans; [exact H1 | ].
  eapply calm_trans; [ | apply calm_run_acks; apply Forall_filter; exact Hr1].
  repeat split; simpl; auto.
  - intros _. apply Forall_filter; exact Hr1.
  - apply incl_refl.
Qed.

(** The consume callback marks nothing and leaves behind, at most, a
    reaction that acknowledges the message. *)
Lemma calm_onMessage tag msg w :
  calm w (run (consumer tag) (onMessage 0%nat handler msg) w).
Proof.
  destruct msg as [msg | ]; simpl.
  - unfold bind, checked, call, ret, throw.
    destruct (JSON_parse (utf8_decode (content msg))) as [e | message]; simpl.
    + calm_now.
    + destruct (handler message) as [ | p | e]; simpl.
      * calm_now.
      * calm_now. intros H. apply Forall_app; split; auto.
        constructor; auto. exists msg. reflexivity.
      * calm_now.
  - calm_now.
Qed.

Lemma canon_consumers sig st :
  consumers (canon sig st) = [] \/
  consumers (canon sig st) = [(tag_of 3, onMessage 0%nat handler)].
Proof. destruct st, sig; simpl; auto. Qed.

Lemma calm_deliver sig st tag msg w :
  at_stage sig st w -> calm w (step (Deliver tag msg) w).
Proof.
  intros (Hc & _). unfold core in Hc.
  assert (E : consumers w = consumers (canon sig st)) by congruence.
  unfold step. rewrite E.
  destruct (canon_consumers sig st) as [-> | ->]; unfold find_consumer.
  - apply calm_refl.
  - destruct (String.eqb (tag_of 3) tag).
    + apply (calm_trans _ (emit (delivered tag msg) w)).
      * apply calm_emit; reflexivity.
      * apply calm_onMessage.
    + apply calm_refl.
Qed.



Lemma In_existsb s l : In s l <-> existsb (Nat.eqb s) l = true.
Proof.
  rewrite existsb_exists. split.
  - intros H. exists s. split; auto. apply Nat.eqb_refl.
  - intros [x [H E]]. apply Nat.eqb_eq in E. subst. exact H.
Qed.

Lemma core_eqs w c : core w = core c ->
  outstanding w = outstanding c /\ consumers w = consumers c /\
  listeners w = listeners c /\ awaiting w = awaiting c /\
  resolved_promises w = resolved_promises c.
Proof. unfold core. intros H. inversion H. auto. Qed.

Ltac settle_stage :=
  unfold at_stage, core; simpl;
  rewrite ?marks_app; simpl;
  repeat match goal with
         | H : _ = _ |- _ => rewrite H
         end; simpl;
  repeat split; auto; try discriminate;
  try (intros _;
       match goal with
       | H : late _ = true -> _ |- _ => apply H; reflexivity
       end).

Ltac find_stage :=
  first [ exists Failed; solve [settle_stage]
        | exists Orphaned; solve [settle_stage]
        | exists Creating; solve [settle_stage]
        | exists Declaring; solve [settle_stage]
        | exists Prefetching; solve [settle_stage]
        | exists Subscribing; solve [settle_stage]
        | exists Listening; solve [settle_stage]
        | exists Cancelling; solve [settle_stage]
        | exists CancelFailed; solve [settle_stage]
        | exists Closing; solve [settle_stage]
        | exists CloseFailed; solve [settle_stage]
        | exists Resolved; solve [settle_stage]
        | exists Returned; solve [settle_stage] ].

Lemma step_reply sig st id outcome w :
  at_stage sig st w ->
  exists st', at_stage sig st' (step (Reply id outcome) w).
Proof.
  intros H. assert (H' := H). revert H'.
  intros (Hc & Hn & Hm & Hr & Hg & Hl).
  apply core_eqs in Hc. destruct Hc as (Ho & Hcs & Hls & Ha & Hres).
  unfold step. rewrite Ho.
  destruct st, sig as [s | ]; simpl;
    try (eexists; exact H);
    (destruct Hn as [Hn | Hn]; [discriminate | ]); simpl in *;
    try (eexists; exact H);
    match goal with
    | |- context [Nat.eqb ?n id] =>
        destruct (Nat.eqb_spec n id) as [<- | ?]
    end;
    try (eexists; exact H);
    destruct outcome as [e | ]; simpl; rewrite ?Hn; find_stage.
Qed.


Lemma canon_listeners sig st :
  listeners (canon sig st) = [] \/
  exists s, sig = Some s /\
    listeners (canon sig st) =
    [(s, onAbort 0%nat {| consumerTag := tag_of 3 |}
           (fun _ => call (resolve 4%nat)) (fun _ => Done))].
Proof. destruct st, sig as [s | ]; simpl; eauto. Qed.

Lemma step_abort sig st s' w :
  at_stage sig st w -> exists st', at_stage sig st' (step (Abort s') w).
Proof.
  intros H. assert (H' := H). revert H'.
  intros (Hc & Hn & Hm & Hr & Hg & Hl).
  apply core_eqs in Hc. destruct Hc as (Ho & Hcs & Hls & Ha & Hres).
  unfold step.
  destruct (existsb (Nat.eqb s') (aborted w)) eqn:E; [eexists; exact H | ].
  assert (Hquiet : at_stage sig st
                     (emit (fired s') (with_aborted (s' :: aborted w) w))).
  { apply (at_stage_calm sig st w); auto.
    unfold calm, core; simpl. rewrite marks_app. simpl.
    rewrite app_nil_r. repeat split; auto. apply incl_tl, incl_refl. }
  cbn [listeners emit with_aborted]. rewrite Hls.
  destruct (canon_listeners sig st) as [EL | (s & -> & EL)]; rewrite EL;
    [eexists; exact Hquiet | ].
  cbn [filter fst]. destruct (Nat.eqb_spec s s') as [<- | Hne];
    [ | eexists; exact Hquiet].
  assert (Hs : ~ In s (aborted w)).
  { intros Hin. apply In_existsb in Hin. congruence. }
  assert (Hlate : late st = false).
  { destruct (late st) eqn:L; auto.
    destruct (Hl eq_refl) as (s0 & E0 & Hin & _). inversion E0; subst.
    contradiction. }
  exists Cancelling.
  destruct st; try discriminate Hlate; simpl in EL; try discriminate EL.
  destruct Hn as [Hn | Hn]; [discriminate | ]. simpl in *.
  unfold at_stage, core; simpl.
  rewrite !marks_app, Hm, Hn, Ho, Hcs, Hls, Ha, Hres.
  simpl. repeat split; auto.
  - apply incl_tl; auto.
  - intros _. exists s. repeat split; auto.
Qed.

Lemma step_resume sig st p w :
  at_stage sig st w -> exists st', at_stage sig st' (step (Resume p) w).
Proof.
  intros H. assert (H' := H). revert H'.
  intros (Hc & Hn & Hm & Hr & Hg & Hl).
  apply core_eqs in Hc. destruct Hc as (Ho & Hcs & Hls & Ha & Hres).
  unfold step. rewrite Hres, Ha.
  destruct st, sig as [s | ]; simpl;
    try (eexists; exact H);
    (destruct Hn as [Hn | Hn]; [discriminate | ]); simpl in *;
    (destruct (Nat.eqb_spec p 4) as [-> | ?];
     simpl; [ | eexists; exact H]);
    find_stage.
Qed.

Lemma step_at_stage sig st i w :
  at_stage sig st w -> exists st', at_stage sig st' (step i w).
Proof.
  intros H. destruct i as [id outcome | tag msg | p outcome | s | p].
  - apply (step_reply sig st); exact H.
  - exists st. apply (at_stage_calm sig st w); auto.
    apply (calm_deliver sig st); exact H.
  - exists st. apply (at_stage_calm sig st w); auto.
    apply calm_settle. apply H.
  - apply (step_abort sig st); exact H.
  - apply (step_resume sig st); exact H.
Qed.

Lemma exec_at_stage sig schedule : forall st w,
  at_stage sig st w -> exists st', at_stage sig st' (exec schedule w).
Proof.
  induction schedule as [ | i l IH]; simpl; intros st w H.
  - eauto.
  - destruct (step_at_stage sig st i w H) as [st' H']. eauto.
Qed.

Lemma listen_at_stage sig cached schedule :
  exists st,
    at_stage sig st
      (exec schedule
         (start "listen" (listen this handler {| signal := sig |})
            (instance cached gone))).
Proof.
  apply (exec_at_stage sig schedule Creating).
  unfold at_stage, core; simpl. repeat split; auto.
  - apply incl_refl.
  - discriminate.
Qed.

Lemma canon_marks sig st :
  exists n, marks (trace (canon sig st)) =
            firstn n (lifecycle 0%nat (tag_of 3) 4%nat).
Proof.
  destruct st, sig as [s | ];
    first [ exists 0%nat; reflexivity | exists 1%nat; reflexivity
          | exists 2%nat; reflexivity | exists 3%nat; reflexivity
          | exists 4%nat; reflexivity | exists 5%nat; reflexivity
          | exists 6%nat; reflexivity | exists 7%nat; reflexivity
          | exists 8%nat; reflexivity ].
Qed.
End Listen.

(** ** listen: shutting down *)

Lemma marks_In `{RT : Runtime} (e : event) (m : mark) (t : list event) :
  In e t -> In m (mark_of e) -> In m (marks t).
Proof. intros He Hm. apply in_flat_map. eauto. Qed.

Lemma not_In_existsb (s : nat) (l : list nat) :
  ~ In s l -> existsb (Nat.eqb s) l = false.
Proof.
  intros H. destruct (existsb (Nat.eqb s) l) eqn:E; auto.
  apply In_existsb in E. contradiction.
Qed.

(** C9: the marks of a [listen] call, under every schedule, are a beginning
    of its life in order: the request to cancel the consumer of this
    subscription, the broker's confirmation of it, the request to close the
    dedicated channel and its confirmation come in that order, and only then
    is the promise resolved and does [listen] return.  On the orderly
    schedule, where the signal fires once the listener is in place and the
    broker confirms, the whole life happens.  (On an instance where nothing
    is pending, the channel that [listen] opens is 0, the tag of its consumer
    is that of call 3 and its promise is 4.) *)
Theorem listen_shuts_down_in_order `{RT : Runtime}
  (this : AmqpMessageQueue) (handler : payload -> HandlerResult)
  (options : MessageQueueListenOptions) (cached : option Channel)
  (gone : list AbortSignal) (schedule : list input) :
  let called := start "listen" (listen this handler options)
                      (instance cached gone) in
  (exists n, marks (trace (exec schedule called)) =
             firstn n (lifecycle 0%nat (tag_of 3) 4%nat)) /\
  (forall s, signal options = Some s -> ~ In s gone ->
     marks (trace (exec (orderly s) called)) =
     lifecycle 0%nat (tag_of 3) 4%nat).
Proof.
  destruct options as [sig]. intros called. split.
  - destruct (listen_at_stage this handler gone sig cached schedule)
      as [st (_ & _ & Hm & _)].
    unfold called. rewrite Hm. apply canon_marks.
  - intros s Hsig Hs. simpl in Hsig. subst sig called.
    unfold orderly. cbn [exec fold_left].
    set (w4 := step (Reply 3 None) _).
    assert (E : step (Abort s) w4 =
                run (listener s)
                    (onAbort 0%nat {| consumerTag := tag_of 3 |}
                       (fun _ => call (resolve 4%nat)) (fun _ => Done))
                    (emit (fired s) (with_aborted (s :: gone) w4))).
    { unfold step at 1. change (aborted w4) with gone.
      rewrite (not_In_existsb s gone Hs).
      change (listeners (emit (fired s) (with_aborted (s :: gone) w4)))
        with [(s, onAbort 0%nat {| consumerTag := tag_of 3 |}
                    (fun _ => call (resolve 4%nat)) (fun _ => Done))].
      cbn [filter fst]. rewrite Nat.eqb_refl. reflexivity. }
    rewrite E. reflexivity.
Qed.

Lemma listen_shuts_down_in_order_witness :
  marks (trace (exec (RT := Sample.runtime) (orderly 7%nat)
                  (start "listen"
                     (listen (RT := Sample.runtime) Sample.mq
                        Sample.collecting {| signal := Some 7%nat |})
                     (initial [])))) =
  lifecycle 0%nat "amq.ctag-3" 4%nat.
Proof.
  apply (proj2 (listen_shuts_down_in_order
                  (RT := Sample.runtime) Sample.mq Sample.collecting
                  {| signal := Some 7%nat |} None [] []) 7%nat eq_refl).
  simpl. tauto.
Defined.

(** C10: when [listen] is called without a signal, or with a signal that has
    fired already, its promise is never resolved and [listen] never returns,
    whatever happens afterwards. *)
Theorem listen_without_live_signal_never_returns `{RT : Runtime}
  (this : AmqpMessageQueue) (handler : payload -> HandlerResult)
  (options : MessageQueueListenOptions) (cached : option Channel)
  (gone : list AbortSignal) (schedule : list input) :
  (signal options = None \/
   exists s, signal options = Some s /\ In s gone) ->
  let w := exec schedule
             (start "listen" (listen this handler options)
                (instance cached gone)) in
  ~ In (returned (caller "listen")) (trace w) /\
  (forall p, ~ In (resolved p) (trace w)).
Proof.
  destruct options as [sig]. simpl. intros Hsig.
  destruct (listen_at_stage this handler gone sig cached schedule)
    as [st (_ & _ & Hm & _ & _ & Hl)].
  assert (Hlate : late st = false).
  { destruct (late st); auto.
    destruct (Hl eq_refl) as (s & E & _ & Hn).
    destruct Hsig as [E' | (s' & E' & Hin)]; rewrite E' in E.
    - discriminate.
    - inversion E; subst. contradiction. }
  assert (Hearly : forall m, In m (marks (trace (canon this handler sig st))) ->
                     m = channel_opened 0%nat \/
                     m = subscribed 0%nat (tag_of 3)).
  { destruct st, sig; try discriminate Hlate; simpl; intuition auto. }
  rewrite <- Hm in Hearly. split.
  - intros Hin.
    destruct (Hearly listen_returned) as [E | E]; try discriminate E.
    eapply marks_In; [exact Hin | ]. simpl. auto.
  - intros p Hin.
    destruct (Hearly (promise_resolved p)) as [E | E]; try discriminate E.
    eapply marks_In; [exact Hin | ]. simpl. auto.
Qed.

Lemma listen_without_live_signal_never_returns_witness :
  ~ In (returned (caller "listen"))
       (trace (exec (RT := Sample.runtime) (orderly 7%nat)
                 (start "listen"
                    (listen (RT := Sample.runtime) Sample.mq
                       Sample.collecting {| signal := Some 7%nat |})
                    (initial [7%nat])))).
Proof.
  apply (listen_without_live_signal_never_returns
           (RT := Sample.runtime) Sample.mq Sample.collecting
           {| signal := Some 7%nat |} None [7%nat] (orderly 7%nat)).
  right. exists 7%nat. simpl. auto.
Defined.

(** ** listen: what happens to a delivery *)

Section Delivery.
Context `{RT : Runtime}.
Variable channel : Channel.
Variable handler : payload -> HandlerResult.
Variable tag : string.
Variable msg : ConsumeMessage.
Variable w : world.
Hypothesis subscribed_here :
  find_consumer tag (consumers w) = Some (onMessage channel handler).

(** A handler that returns nothing: the message is acknowledged at once. *)
Lemma delivery_to_plain_handler message :
  JSON_parse (utf8_decode (content msg)) = inr message ->
  handler message = returns_void ->
  step (Deliver tag (Some msg)) w =
  emit (returned (consumer tag))
    (emit (acked channel msg)
       (emit (invoked message) (emit (delivered tag (Some msg)) w))).
Proof.
  intros Hp Hh. unfold step. rewrite subscribed_here.
  unfold onMessage, bind, checked, call, ret. rewrite Hp.
  simpl. rewrite Hh. reflexivity.
Qed.

(** A handler that returns a promise: the acknowledgement is left as a
    reaction to that promise. *)
Lemma delivery_to_async_handler message p :
  JSON_parse (utf8_decode (content msg)) = inr message ->
  handler message = returns_promise p ->
  step (Deliver tag (Some msg)) w =
  emit (returned (consumer tag))
    (with_reactions
       (reactions w ++ [(p, Do (ack channel msg) (fun _ => Done))])
       (emit (invoked message) (emit (delivered tag (Some msg)) w))).
Proof.
  intros Hp Hh. unfold step. rewrite subscribed_here.
  unfold onMessage, bind, checked, call, ret. rewrite Hp.
  simpl. rewrite Hh. reflexivity.
Qed.

(** A handler that throws: the exception leaves the callback before the
    acknowledgement. *)
Lemma delivery_to_throwing_handler message e :
  JSON_parse (utf8_decode (content msg)) = inr message ->
  handler message = throws e ->
  step (Deliver tag (Some msg)) w =
  emit (threw (consumer tag) e)
    (emit (invoked message) (emit (delivered tag (Some msg)) w)).
Proof.
  intros Hp Hh. unfold step. rewrite subscribed_here.
  unfold onMessage, bind, checked, call, ret, throw. rewrite Hp.
  simpl. rewrite Hh. reflexivity.
Qed.

(** A payload that is not JSON: the exception of [JSON.parse] leaves the
    callback; the handler is not called. *)
Lemma delivery_undecodable e :
  JSON_parse (utf8_decode (content msg)) = inl e ->
  step (Deliver tag (Some msg)) w =
  emit (threw (consumer tag) e) (emit (delivered tag (Some msg)) w).
Proof.
  intros Hp. unfold step. rewrite subscribed_here.
  unfold onMessage, bind, checked, call, ret, throw. rewrite Hp.
  reflexivity.
Qed.

End Delivery.


(** All that [listen] can do, under any schedule: a message is acknowledged
    only when it was decoded and the handler did not throw on it. *)
Lemma listen_within `{RT : Runtime}
  (may_do : action -> Prop) (may_ask : request -> Prop)
  (this : AmqpMessageQueue) (handler : payload -> HandlerResult)
  (options : MessageQueueListenOptions) :
  (forall r, may_ask r) ->
  (forall p, may_do (resolve p)) ->
  (forall m, may_do (invoke handler m)) ->
  (forall ch msg message,
     JSON_parse (utf8_decode (content msg)) = inr message ->
     (forall e, handler message <> throws e) ->
     may_do (ack ch msg)) ->
  within may_do may_ask (listen this handler options (fun _ => Done)).
Proof.
  intros Hask Hresolve Hinvoke Hack.
  unfold listen, bind, await, prepareQueue, await_consume, new_Promise,
    await_promise, ret.
  constructor; auto. intros channel.
  constructor; auto. intros _.
  constructor; auto. intros _.
  constructor; auto.
  - intros [msg | ]; simpl; [ | constructor].
    unfold bind, checked, call, ret, throw, finally.
    destruct (JSON_parse (utf8_decode (content msg))) as [e | message] eqn:Hp;
      [constructor | ].
    constructor; auto. simpl. intros result Hr.
    assert (Hok : (forall e, handler message <> throws e) ->
                  within may_do may_ask
                    (Do (ack channel msg) (fun _ => Done))).
    { intros H. constructor; eauto. intros _ _. constructor. }
    destruct result as [ | p | e].
    + apply Hok. intros e E. rewrite E in Hr. discriminate.
    + constructor; [ | constructor].
      apply Hok. intros e E. rewrite E in Hr. discriminate.
    + constructor.
  - intros reply. constructor. intros p.
    destruct (signal options) as [s | ]; unfold addEventListener, onAbort,
      then_, float, bind, await, call, ret.
    + constructor.
      * constructor; [ | constructor].
        constructor; auto. intros _.
        constructor; [ | constructor].
        constructor; auto. intros _.
        constructor; auto. intros _ _. constructor.
      * constructor. constructor.
    + constructor. constructor.
Qed.

(** With a handler that always throws synchronously, no message is ever
    acknowledged. *)
Lemma always_throwing_handler_never_acknowledges `{RT : Runtime}
  (this : AmqpMessageQueue) (handler : payload -> HandlerResult)
  (options : MessageQueueListenOptions) (cached : option Channel)
  (gone : list AbortSignal) (schedule : list input)
  (ch : Channel) (msg : ConsumeMessage) :
  (forall message, exists e, handler message = throws e) ->
  ~ In (acked ch msg)
       (trace (exec schedule
                 (start "listen" (listen this handler options)
                    (instance cached gone)))).
Proof.
  intros Hthrows Hin.
  set (may_do := fun a : action =>
         match a with
         | ack _ _ => False
         | _ => True
         end).
  assert (H : permitted may_do (fun _ => True) (acked ch msg)).
  { eapply Forall_In_inv; [ | exact Hin].
    apply permitted_always.
    apply listen_within; simpl; auto.
    intros c m message _ Hnot.
    destruct (Hthrows message) as [e He]. exact (Hnot e He). }
  exact H.
Qed.

(** C1 fails on the code: a message delivered to a handler that throws
    synchronously is not acknowledged.  The step of the delivery adds to the
    trace the delivery, the call of the handler and the exception that leaves
    the consume callback, and it leaves no reaction and no call behind: no
    acknowledgement is sent and none is left to be sent later. *)
Theorem throwing_handler_leaves_message_unacknowledged `{RT : Runtime}
  (channel : Channel) (handler : payload -> HandlerResult) (tag : string)
  (msg : ConsumeMessage) (w : world) (message : payload) (e : exn) :
  find_consumer tag (consumers w) = Some (onMessage channel handler) ->
  JSON_parse (utf8_decode (content msg)) = inr message ->
  handler message = throws e ->
  let w' := step (Deliver tag (Some msg)) w in
  trace w' =
    trace w ++ [delivered tag (Some msg); invoked message;
                threw (consumer tag) e] /\
  reactions w' = reactions w /\
  outstanding w' = outstanding w.
Proof.
  intros Hc Hp Hh w'. unfold w'.
  rewrite (delivery_to_throwing_handler channel handler tag msg w Hc
             message e Hp Hh).
  simpl. rewrite !app_cons_assoc. auto.
Qed.

Lemma throwing_handler_leaves_message_unacknowledged_witness :
  trace (step (Deliver "amq.ctag-3"
                 (Some (Sample.delivery "null" 1)))
           (Sample.listening Sample.failing)) =
  trace (Sample.listening Sample.failing) ++
  [delivered "amq.ctag-3" (Some (Sample.delivery "null" 1));
   invoked (RT := Sample.runtime) Sample.js_null;
   threw (consumer "amq.ctag-3") (UserError "handler failed")].
Proof.
  apply (throwing_handler_leaves_message_unacknowledged
           (RT := Sample.runtime) 0%nat Sample.failing "amq.ctag-3"
           (Sample.delivery "null" 1) (Sample.listening Sample.failing)
           Sample.js_null (UserError "handler failed")
           eq_refl eq_refl eq_refl).
Defined.

(** C5, as amended: when the payload of a delivery cannot be deserialized,
    the exception of the deserialization leaves the consume callback: the
    step of the delivery adds the delivery and that exception to the world
    and nothing else; the handler is not called and the message is not
    acknowledged. *)
Theorem undecodable_delivery_escapes `{RT : Runtime}
  (channel : Channel) (handler : payload -> HandlerResult) (tag : string)
  (msg : ConsumeMessage) (w : world) (e : exn) :
  find_consumer tag (consumers w) = Some (onMessage channel handler) ->
  JSON_parse (utf8_decode (content msg)) = inl e ->
  step (Deliver tag (Some msg)) w =
  emit (threw (consumer tag) e) (emit (delivered tag (Some msg)) w).
Proof.
  intros Hc Hp. apply (delivery_undecodable channel handler); auto.
Qed.

Lemma undecodable_delivery_escapes_witness :
  step (Deliver "amq.ctag-3" (Some (Sample.delivery "" 1)))
       (Sample.listening Sample.collecting) =
  emit (threw (consumer "amq.ctag-3")
          (SyntaxError "Unexpected end of JSON input"))
    (emit (delivered "amq.ctag-3" (Some (Sample.delivery "" 1)))
       (Sample.listening Sample.collecting)).
Proof.
  apply (undecodable_delivery_escapes
           (RT := Sample.runtime) 0%nat Sample.collecting "amq.ctag-3"
           (Sample.delivery "" 1) (Sample.listening Sample.collecting)
           (SyntaxError "Unexpected end of JSON input") eq_refl eq_refl).
Defined.

(** C5, as stated, fails: the empty payload is no JSON text; delivered to a
    subscribed listener, the [SyntaxError] of [JSON.parse] leaves the consume
    callback, which the trace records as [threw] where a callback that ends
    normally leaves [returned]. *)
Lemma undecodable_delivery_not_swallowed :
  Sample.parse (string_of_list_byte (content (Sample.delivery "" 1))) =
    inl (SyntaxError "Unexpected end of JSON input") /\
  trace (step (Deliver "amq.ctag-3" (Some (Sample.delivery "" 1)))
           (Sample.listening Sample.collecting)) =
  trace (Sample.listening Sample.collecting) ++
  [delivered "amq.ctag-3" (Some (Sample.delivery "" 1));
   threw (consumer "amq.ctag-3")
     (SyntaxError "Unexpected end of JSON input")].
Proof. split; reflexivity. Qed.

(** ** The scenario of the repository's test

    "Hello, world!" is enqueued without delay and published to the main
    queue; delivered to a listener, its body is decoded, given to the handler
    and acknowledged. *)
Example hello_world_is_handled_and_acknowledged :
  trace (step (Deliver "amq.ctag-3"
                 (Some {| content := Sample.hello_body; deliveryTag := 1 |}))
           (Sample.listening Sample.collecting)) =
  trace (Sample.listening Sample.collecting) ++
  [delivered "amq.ctag-3"
     (Some {| content := Sample.hello_body; deliveryTag := 1 |});
   invoked (RT := Sample.runtime) Sample.hello;
   acked 0%nat {| content := Sample.hello_body; deliveryTag := 1 |};
   returned (consumer "amq.ctag-3")].
Proof. reflexivity. Qed.

(** A handler that returns a promise: the message is acknowledged when the
    promise settles, here rejected. *)
Example rejected_promise_is_acknowledged :
  trace (exec [Deliver "amq.ctag-3" (Some (Sample.delivery "true" 2));
               Settle 7%nat (Some (UserError "rejected"))]
           (Sample.listening Sample.collecting)) =
  trace (Sample.listening Sample.collecting) ++
  [delivered "amq.ctag-3" (Some (Sample.delivery "true" 2));
   invoked (RT := Sample.runtime) (Sample.js_bool true);
   returned (consumer "amq.ctag-3");
   handler_settled 7%nat (Some (UserError "rejected"));
   acked 0%nat (Sample.delivery "true" 2);
   returned (reaction 7%nat)].
Proof. reflexivity. Qed.

(** * Further properties of the class *)

(** ** What the calls never do *)

Section ChannelKept.
Context `{RT : Runtime}.
Variable may_do : action -> Prop.
Variable may_ask : request -> Prop.
Hypothesis never_set : forall ch, ~ may_do (set_senderChannel ch).

Lemma run_keeps_senderChannel t :
  within may_do may_ask t ->
  forall o w, senderChannel (run o t w) = senderChannel w.
Proof.
  induction 1 as [ | e | a k Ha Hk IH | r k Hr Hk IH
                 | ch q f opts k Hr Hf Hk IH | t k Ht IHt Hk IHk
                 | p c k Hc IHc Hk IHk | k Hk IH | p k Hk IH
                 | s l k Hl IHl Hk IHk ]; intros o w; simpl; auto.
  - destruct a; simpl; rewrite IH; simpl; auto.
    exfalso. exact (never_set ch Ha).
  - rewrite IHk, IHt. reflexivity.
  - rewrite IHk. reflexivity.
  - rewrite IH. reflexivity.
  - rewrite IHk. reflexivity.
Qed.

Lemma run_all_keeps_senderChannel l :
  Forall (fun c => within may_do may_ask (snd c)) l ->
  forall w, senderChannel (run_all l w) = senderChannel w.
Proof.
  induction 1 as [ | [o t] l Ht Hl IH]; intros w; simpl; auto.
  rewrite IH. apply run_keeps_senderChannel. exact Ht.
Qed.

Lemma confirm_keeps_senderChannel x w :
  senderChannel (confirm x w) = senderChannel w.
Proof.
  unfold confirm. destruct x as [xid xo xr xf xk]; simpl.
  destruct xr; simpl; auto. destruct xf; reflexivity.
Qed.

Lemma step_keeps_senderChannel i w :
  tidy may_do may_ask w -> senderChannel (step i w) = senderChannel w.
Proof.
  intros Hw. destruct i as [id outcome | tag msg | p outcome | s | p]; simpl.
  - destruct (take_waiter id (outstanding w)) as [[x rest] | ] eqn:E; auto.
    destruct (take_waiter_Forall _ _ _ _ _ E (tidy_outstanding _ _ _ Hw))
      as [[Hk Hf] Hrest].
    destruct outcome as [e | ]; simpl; auto.
    rewrite run_keeps_senderChannel by apply Hk.
    rewrite confirm_keeps_senderChannel. reflexivity.
  - destruct (find_consumer tag (consumers w)) as [f | ] eqn:E; auto.
    destruct (find_consumer_Forall _ _ _ _ E (tidy_consumers _ _ _ Hw))
      as [t Hf].
    rewrite run_keeps_senderChannel by apply Hf. reflexivity.
  - rewrite run_all_keeps_senderChannel.
    + simpl. destruct (existsb (Nat.eqb p) (settled_promises w)); reflexivity.
    + apply Forall_map; simpl. apply Forall_filter.
      destruct (existsb (Nat.eqb p) (settled_promises w)); simpl;
        apply (tidy_reactions _ _ _ Hw).
  - destruct (existsb (Nat.eqb s) (aborted w)); auto.
    rewrite run_all_keeps_senderChannel; auto.
    apply Forall_map; simpl. apply Forall_filter.
    apply (tidy_listeners _ _ _ Hw).
  - destruct (existsb (Nat.eqb p) (resolved_promises w)); auto.
    rewrite run_all_keeps_senderChannel; auto.
    apply Forall_map; simpl. apply Forall_filter.
    apply (tidy_awaiting _ _ _ Hw).
Qed.

Lemma exec_keeps_senderChannel schedule :
  forall w, tidy may_do may_ask w ->
  senderChannel (exec schedule w) = senderChannel w.
Proof.
  induction schedule as [ | i l IH]; simpl; intros w Hw; auto.
  rewrite IH by (apply step_tidy; exact Hw).
  apply step_keeps_senderChannel; exact Hw.
Qed.

End ChannelKept.

(** All that [listen] asks of the broker. *)
Lemma listen_within_requests `{RT : Runtime}
  (may_do : action -> Prop) (may_ask : request -> Prop)
  (this : AmqpMessageQueue) (handler : payload -> HandlerResult)
  (options : MessageQueueListenOptions) :
  may_ask createChannel ->
  (forall ch,
     may_ask (assertQueue ch (this_queue this)
                {| durable := Some (this_durable this); autoDelete := None;
                   deadLetterExchange := None; deadLetterRoutingKey := None;
                   messageTtl := None |})) ->
  (forall ch, may_ask (prefetch ch 1)) ->
  (forall ch, may_ask (consume ch (this_queue this) {| noAck := false |})) ->
  (forall ch tag, may_ask (cancel ch tag)) ->
  (forall ch, may_ask (close ch)) ->
  (forall p, may_do (resolve p)) ->
  (forall m, may_do (invoke handler m)) ->
  (forall ch msg, may_do (ack ch msg)) ->
  within may_do may_ask (listen this handler options (fun _ => Done)).
Proof.
  intros Hcreate Hmain Hprefetch Hconsume Hcancel Hclose Hresolve Hinvoke Hack.
  unfold listen, bind, await, prepareQueue, await_consume, new_Promise,
    await_promise, ret.
  constructor; auto. intros channel.
  constructor; auto. intros _.
  constructor; auto. intros _.
  constructor; auto.
  - intros [msg | ]; simpl; [ | constructor].
    unfold bind, checked, call, ret, throw, finally.
    destruct (JSON_parse (utf8_decode (content msg))) as [e | message];
      [constructor | ].
    constructor; auto. simpl. intros result _.
    destruct result as [ | p | e].
    + constructor; auto. intros _ _. constructor.
    + constructor; [ | constructor].
      constructor; auto. intros _ _. constructor.
    + constructor.
  - intros reply. constructor. intros p.
    destruct (signal options) as [s | ]; unfold addEventListener, onAbort,
      then_, float, bind, await, call, ret.
    + constructor.
      * constructor; [ | constructor].
        constructor; auto. intros _.
        constructor; [ | constructor].
        constructor; auto. intros _.
        constructor; auto. intros _ _. constructor.
      * constructor. constructor.
    + constructor. constructor.
Qed.


(** X8: [listen] never publishes and leaves the cached sender channel alone;
    it declares nothing but the main queue, limits the consumer to one
    unacknowledged message and subscribes to the main queue without automatic
    acknowledgement, whatever the schedule. *)
Theorem listen_only_subscribes `{RT : Runtime}
  (this : AmqpMessageQueue) (handler : payload -> HandlerResult)
  (options : MessageQueueListenOptions) (cached : option Channel)
  (gone : list AbortSignal) (schedule : list input) :
  let w := exec schedule
             (start "listen" (listen this handler options)
                (instance cached gone)) in
  senderChannel w = cached /\
  forall e, In e (trace w) ->
    match e with
    | published _ _ _ _ => False
    | sent _ (assertQueue _ q o) =>
        q = this_queue this /\
        o = {| durable := Some (this_durable this); autoDelete := None;
               deadLetterExchange := None; deadLetterRoutingKey := None;
               messageTtl := None |}
    | sent _ (prefetch _ count) => count = 1%nat
    | sent _ (consume _ q o) => q = this_queue this /\ noAck o = false
    | _ => True
    end.
Proof.
  set (may_do := fun a : action =>
         match a with
         | sendToQueue _ _ _ _ => False
         | set_senderChannel _ => False
         | _ => True
         end).
  set (may_ask := fun r : request =>
         match r with
         | assertQueue _ q o =>
             q = this_queue this /\
             o = {| durable := Some (this_durable this); autoDelete := None;
                    deadLetterExchange := None;
                    deadLetterRoutingKey := None; messageTtl := None |}
         | prefetch _ count => count = 1%nat
         | consume _ q o => q = this_queue this /\ noAck o = false
         | _ => True
         end).
  assert (Hin : within may_do may_ask
                  (listen this handler options (fun _ => Done))).
  { apply listen_within_requests; simpl; auto. }
  intros w. split.
  - assert (Hnever : forall ch, ~ may_do (set_senderChannel ch))
      by (intros ch H; exact H).
    unfold w. rewrite (exec_keeps_senderChannel may_do may_ask Hnever).
    + apply (run_keeps_senderChannel may_do may_ask Hnever _ Hin).
    + apply run_tidy; auto. apply tidy_instance.
  - intros e He.
    assert (H : permitted may_do may_ask e).
    { eapply Forall_In_inv; [ | exact He].
      apply permitted_always. exact Hin. }
    destruct e; simpl in H; auto.
Qed.

(** X2: [enqueue] asks the broker for nothing but a channel and queue
    declarations: it never consumes, limits, cancels, acknowledges or closes
    the channel it opened; and what it publishes goes to the queue that its
    options select, whatever the schedule. *)
Theorem enqueue_only_declares_and_publishes `{RT : Runtime}
  (this : AmqpMessageQueue) (message : payload)
  (options : option MessageQueueEnqueueOptions) (cached : option Channel)
  (gone : list AbortSignal) (schedule : list input) (e : event) :
  In e (trace (exec schedule
                 (start "enqueue" (enqueue this message options)
                    (instance cached gone)))) ->
  match e with
  | sent _ createChannel => True
  | sent _ (assertQueue _ _ _) => True
  | sent _ _ => False
  | published _ q _ _ => q = target this options
  | acked _ _ => False
  | resolved _ => False
  | _ => True
  end.
Proof.
  intros He.
  set (may_do := fun a : action =>
         match a with
         | sendToQueue _ q _ _ => q = target this options
         | ack _ _ => False
         | resolve _ => False
         | _ => True
         end).
  set (may_ask := fun r : request =>
         match r with
         | createChannel => True
         | assertQueue _ _ _ => True
         | _ => False
         end).
  assert (H : permitted may_do may_ask e).
  { eapply Forall_In_inv; [ | exact He].
    apply permitted_always.
    apply enqueue_within; simpl; auto. }
  destruct e; simpl in H; auto.
Qed.

Lemma enqueue_only_declares_and_publishes_witness :
  "fedify_delayed_3000" = target Sample.mq Sample.three_seconds.
Proof.
  apply (enqueue_only_declares_and_publishes
           (RT := Sample.runtime) Sample.mq Sample.hello
           Sample.three_seconds None [] [Reply 0 None; Reply 2 None]
           (published 0%nat "fedify_delayed_3000" Sample.hello_body
              {| persistent := true; contentType := "application/json" |})).
  simpl. auto 10.
Defined.

(** X1: the options given to the constructor, or their defaults, are what the
    broker is told: every queue that [enqueue] or [listen] declares is
    declared with the configured durability, [listen] consumes from the
    configured queue, delay queues dead-letter to it, and every message is
    published with the configured durability as its persistence. *)
Theorem configuration_reaches_the_broker `{RT : Runtime}
  (config : AmqpMessageQueueOptions) (message : payload)
  (options : option MessageQueueEnqueueOptions)
  (handler : payload -> HandlerResult) (listening : MessageQueueListenOptions)
  (cached : option Channel) (gone : list AbortSignal)
  (schedule : list input) (e : event) :
  let this := new_AmqpMessageQueue config in
  let queue := nullish (opt_queue config) "fedify_queue" in
  let durability := nullish (opt_durable config) true in
  In e (trace (exec schedule
                 (start "enqueue" (enqueue this message options)
                    (instance cached gone)))) \/
  In e (trace (exec schedule
                 (start "listen" (listen this handler listening)
                    (instance cached gone)))) ->
  match e with
  | sent _ (assertQueue _ q o) =>
      durable o = Some durability /\
      (q = queue \/ deadLetterRoutingKey o = Some queue)
  | sent _ (consume _ q _) => q = queue
  | published _ _ _ o => persistent o = durability
  | _ => True
  end.
Proof.
  intros this queue durability He.
  set (may_do := fun a : action =>
         match a with
         | sendToQueue _ _ _ o => persistent o = durability
         | _ => True
         end).
  set (may_ask := fun r : request =>
         match r with
         | assertQueue _ q o =>
             durable o = Some durability /\
             (q = queue \/ deadLetterRoutingKey o = Some queue)
         | consume _ q _ => q = queue
         | _ => True
         end).
  assert (H : permitted may_do may_ask e).
  { destruct He as [He | He]; (eapply Forall_In_inv; [ | exact He]);
      apply permitted_always.
    - apply enqueue_within; simpl; auto.
    - apply listen_within_requests; simpl; auto. }
  destruct e; simpl in H; auto.
Qed.

Lemma configuration_reaches_the_broker_witness :
  durable {| durable := Some true; autoDelete := None;
             deadLetterExchange := None; deadLetterRoutingKey := None;
             messageTtl := None |} = Some true /\
  ("fedify_queue" = "fedify_queue" \/
   deadLetterRoutingKey
     {| durable := Some true; autoDelete := None;
        deadLetterExchange := None; deadLetterRoutingKey := None;
        messageTtl := None |} = Some "fedify_queue").
Proof.
  apply (configuration_reaches_the_broker
           (RT := Sample.runtime)
           {| opt_queue := None; opt_delayedQueuePrefix := None;
              opt_durable := None |}
           Sample.hello None Sample.collecting {| signal := None |}
           None [] [Reply 0 None]
           (sent 1 (assertQueue 0%nat "fedify_queue"
                      {| durable := Some true; autoDelete := None;
                         deadLetterExchange := None;
                         deadLetterRoutingKey := None;
                         messageTtl := None |}))).
  left. simpl. auto.
Defined.

(** ** Answers of the broker, one at a time *)

Section Answers.
Context `{RT : Runtime}.

(** The answer to a pending call runs the code that waits for it. *)
Lemma step_reply_accepted id x rest w :
  take_waiter id (outstanding w) = Some (x, rest) ->
  step (Reply id None) w =
  run (w_owner x) (w_k x (fresh_reply (w_request x) id))
      (confirm x (emit (replied id (w_request x) None)
                       (with_outstanding rest w))).
Proof. intros E. unfold step. rewrite E. reflexivity. Qed.

(** A refusal leaves as an exception of the code that waited. *)
Lemma step_reply_refused id e x rest w :
  take_waiter id (outstanding w) = Some (x, rest) ->
  step (Reply id (Some e)) w =
  emit (threw (w_owner x) e)
       (emit (replied id (w_request x) (Some e)) (with_outstanding rest w)).
Proof. intros E. unfold step. rewrite E. reflexivity. Qed.

Variable this : AmqpMessageQueue.

Lemma enqueue_asks_for_channel message options w :
  senderChannel w = None ->
  start "enqueue" (enqueue this message options) w =
  suspend (caller "enqueue") createChannel None
          (created this message options) w.
Proof.
  intros Hc. unfold start, enqueue, getSenderChannel, bind, call.
  simpl. rewrite Hc. reflexivity.
Qed.

Lemma enqueue_on_cached_channel message options body channel w :
  senderChannel w = Some channel ->
  no_delay (delay_of options) = true ->
  message_body message = inr body ->
  start "enqueue" (enqueue this message options) w =
  emit (returned (caller "enqueue"))
       (emit (published channel (this_queue this) body (sending this)) w).
Proof.
  intros Hc Hd Hb. unfold start, enqueue, getSenderChannel, bind, call.
  simpl. rewrite Hc. unfold route, ret, publish, bind, checked, call, ret.
  destruct (delay_of options) as [d | ]; [rewrite Hd | ]; rewrite Hb;
    reflexivity.
Qed.

Lemma run_created_direct o message options body channel w :
  no_delay (delay_of options) = true ->
  message_body message = inr body ->
  run o (created this message options channel) w =
  emit (returned o)
    (emit (published channel (this_queue this) body (sending this))
       (suspend dropped
          (assertQueue channel (this_queue this) (main_queue this)) None
          (fun _ => Done) (with_senderChannel (Some channel) w))).
Proof.
  intros Hd Hb.
  unfold created, float, prepareQueue, await, route, publish, bind, call,
    checked, ret.
  destruct (delay_of options) as [d | ]; [rewrite Hd | ]; rewrite Hb;
    reflexivity.
Qed.

End Answers.


(** ** The sender channel over several calls *)

Section SenderChannel.
Context `{RT : Runtime}.
Variable this : AmqpMessageQueue.

Lemma take_waiter_middle id (l rest : list waiter) x :
  Forall (fun y => (w_id y < id)%nat) l -> w_id x = id ->
  take_waiter id (l ++ x :: rest) = Some (x, l ++ rest).
Proof.
  intros Hl Hx. induction Hl as [ | y l Hy Hl IH]; simpl.
  - rewrite Hx, Nat.eqb_refl. reflexivity.
  - destruct (Nat.eqb_spec (w_id y) id) as [E | _]; [lia | ].
    rewrite IH. reflexivity.
Qed.

Lemma older_than_next w :
  well_numbered w ->
  Forall (fun y => (w_id y < S (next w))%nat) (outstanding w).
Proof.
  intros Hw. eapply Forall_impl; [ | exact Hw]. simpl; intros; lia.
Qed.

(** After a call without delay the instance holds the channel the call
    published on. *)
Lemma enqueued_direct_caches message options w :
  well_numbered w ->
  no_delay (delay_of options) = true ->
  senderChannel (enqueued this message options w) = Some (sender w).
Proof.
  intros Hw Hd.
  unfold enqueued, sender, start, enqueue, getSenderChannel, publish,
    bind, call, checked.
  simpl. destruct (senderChannel w) as [channel | ] eqn:Hc; simpl.
  - unfold route, ret.
    destruct (delay_of options) as [d | ]; [rewrite Hd | ];
      destruct (message_body message); simpl; exact Hc.
  - rewrite take_waiter_last by auto. simpl.
    unfold route, ret.
    destruct (delay_of options) as [d | ]; [rewrite Hd | ];
      destruct (message_body message); reflexivity.
Qed.

Lemma enqueued_well_numbered message options w :
  well_numbered w -> well_numbered (enqueued this message options w).
Proof.
  intros Hw. unfold enqueued.
  destruct (senderChannel w).
  - apply start_well_numbered, Hw.
  - apply step_well_numbered, start_well_numbered, Hw.
Qed.

End SenderChannel.

(** X4: two calls of [enqueue] without delay, one after the other: the
    channel is created and the main queue declared for the first call only;
    the second call publishes at once on the channel the first one left. *)
Theorem second_enqueue_reuses_channel `{RT : Runtime}
  (this : AmqpMessageQueue) (m1 m2 : payload)
  (o1 o2 : option MessageQueueEnqueueOptions) (b1 b2 : Buffer) (w : world) :
  well_numbered w ->
  no_delay (delay_of o1) = true -> no_delay (delay_of o2) = true ->
  message_body m1 = inr b1 -> message_body m2 = inr b2 ->
  let w1 := enqueued this m1 o1 w in
  let w2 := start "enqueue" (enqueue this m2 o2) w1 in
  senderChannel w2 = Some (sender w) /\
  trace w2 =
  trace w ++ opening this w ++
  [published (sender w) (this_queue this) b1
     {| persistent := this_durable this; contentType := "application/json" |};
   returned (caller "enqueue");
   published (sender w) (this_queue this) b2
     {| persistent := this_durable this; contentType := "application/json" |};
   returned (caller "enqueue")].
Proof.
  intros Hw Hd1 Hd2 Hb1 Hb2 w1 w2.
  assert (Hc : senderChannel w1 = Some (sender w))
    by (apply enqueued_direct_caches; auto).
  assert (Hw1 : well_numbered w1) by (apply enqueued_well_numbered; auto).
  assert (E : w2 = enqueued this m2 o2 w1).
  { unfold enqueued. rewrite Hc. reflexivity. }
  rewrite E. split.
  - rewrite (enqueued_direct_caches this m2 o2 w1 Hw1 Hd2).
    unfold sender at 1. rewrite Hc. reflexivity.
  - rewrite (enqueued_direct this m2 o2 b2 w1 Hw1 Hd2 Hb2).
    unfold opening at 1, sender at 1. rewrite Hc.
    unfold w1. rewrite (enqueued_direct this m1 o1 b1 w Hw Hd1 Hb1).
    simpl. rewrite <- !app_assoc. reflexivity.
Qed.

Lemma second_enqueue_reuses_channel_witness :
  trace (start "enqueue"
           (enqueue (RT := Sample.runtime) Sample.mq (Sample.js_bool true)
              None)
           (enqueued (RT := Sample.runtime) Sample.mq Sample.hello None
              (initial []))) =
  [sent 0 createChannel;
   replied 0 createChannel None;
   sent 1 (assertQueue 0%nat "fedify_queue"
             {| durable := Some true; autoDelete := None;
                deadLetterExchange := None; deadLetterRoutingKey := None;
                messageTtl := None |});
   published 0%nat "fedify_queue" Sample.hello_body
     {| persistent := true; contentType := "application/json" |};
   returned (caller "enqueue");
   published 0%nat "fedify_queue" (list_byte_of_string "true")
     {| persistent := true; contentType := "application/json" |};
   returned (caller "enqueue")].
Proof.
  apply (proj2 (second_enqueue_reuses_channel
                  (RT := Sample.runtime) Sample.mq Sample.hello
                  (Sample.js_bool true) None None Sample.hello_body
                  (list_byte_of_string "true") (initial [])
                  (Forall_nil _) eq_refl eq_refl eq_refl eq_refl)).
Defined.

(** X5: two calls of [enqueue] made before the broker has answered the first:
    each asks for a channel, each declares the main queue on its own channel
    and publishes on it, and the instance keeps the channel that was created
    last. *)
Theorem concurrent_first_enqueues_open_two_channels `{RT : Runtime}
  (this : AmqpMessageQueue) (m1 m2 : payload)
  (o1 o2 : option MessageQueueEnqueueOptions) (b1 b2 : Buffer) (w : world) :
  well_numbered w -> senderChannel w = None ->
  no_delay (delay_of o1) = true -> no_delay (delay_of o2) = true ->
  message_body m1 = inr b1 -> message_body m2 = inr b2 ->
  let n := next w in
  let main :=
    {| durable := Some (this_durable this); autoDelete := None;
       deadLetterExchange := None; deadLetterRoutingKey := None;
       messageTtl := None |} in
  let sending :=
    {| persistent := this_durable this; contentType := "application/json" |} in
  let w' := exec [Reply n None; Reply (S n) None]
              (start "enqueue" (enqueue this m2 o2)
                 (start "enqueue" (enqueue this m1 o1) w)) in
  senderChannel w' = Some (S n) /\
  trace w' =
  trace w ++
  [sent n createChannel; sent (S n) createChannel;
   replied n createChannel None;
   sent (S (S n)) (assertQueue n (this_queue this) main);
   published n (this_queue this) b1 sending;
   returned (caller "enqueue");
   replied (S n) createChannel None;
   sent (S (S (S n))) (assertQueue (S n) (this_queue this) main);
   published (S n) (this_queue this) b2 sending;
   returned (caller "enqueue")].
Proof.
  intros Hw Hc Hd1 Hd2 Hb1 Hb2 n main sending w'.
  unfold w'. cbn [exec fold_left].
  rewrite (enqueue_asks_for_channel this m1 o1 w Hc).
  rewrite (enqueue_asks_for_channel this m2 o2) by exact Hc.
  set (x1 := {| w_id := n; w_owner := caller "enqueue";
                w_request := createChannel; w_onMessage := None;
                w_k := created this m1 o1 |}).
  set (x2 := {| w_id := S n; w_owner := caller "enqueue";
                w_request := createChannel; w_onMessage := None;
                w_k := created this m2 o2 |}).
  rewrite (step_reply_accepted n x1 (outstanding w ++ [x2])).
  2: { unfold suspend; simpl. rewrite <- app_assoc.
       apply take_waiter_middle; auto. }
  cbn [w_owner w_k w_request x1 fresh_reply confirm w_onMessage].
  rewrite (run_created_direct this _ m1 o1 b1 n _ Hd1 Hb1).
  erewrite (step_reply_accepted (S n) x2).
  2: { unfold suspend; simpl. rewrite <- app_assoc.
       apply take_waiter_middle;
         [apply older_than_next; exact Hw | reflexivity]. }
  cbn [w_owner w_k w_request x2 fresh_reply confirm w_onMessage].
  rewrite (run_created_direct this _ m2 o2 b2 (S n) _ Hd2 Hb2).
  split; [reflexivity | ].
  simpl. rewrite <- !app_assoc. reflexivity.
Qed.

Lemma concurrent_first_enqueues_open_two_channels_witness :
  senderChannel
    (exec [Reply 0 None; Reply 1 None]
       (start "enqueue"
          (enqueue (RT := Sample.runtime) Sample.mq (Sample.js_bool true)
             None)
          (start "enqueue"
             (enqueue (RT := Sample.runtime) Sample.mq Sample.hello None)
             (initial [])))) = Some 1%nat.
Proof.
  apply (proj1 (concurrent_first_enqueues_open_two_channels
                  (RT := Sample.runtime) Sample.mq Sample.hello
                  (Sample.js_bool true) None None Sample.hello_body
                  (list_byte_of_string "true") (initial [])
                  (Forall_nil _) eq_refl eq_refl eq_refl eq_refl eq_refl)).
Defined.

(** X6: when the broker refuses the channel, [enqueue] fails with the error
    of the broker, publishes nothing and keeps no channel: the next call asks
    for a channel again. *)
Theorem refused_channel_is_not_cached `{RT : Runtime}
  (this : AmqpMessageQueue) (m1 m2 : payload)
  (o1 o2 : option MessageQueueEnqueueOptions) (e : exn) (w : world) :
  well_numbered w -> senderChannel w = None ->
  let n := next w in
  let failed := step (Reply n (Some e))
                     (start "enqueue" (enqueue this m1 o1) w) in
  trace failed =
    trace w ++ [sent n createChannel; replied n createChannel (Some e);
                threw (caller "enqueue") e] /\
  senderChannel failed = None /\
  outstanding failed = outstanding w /\
  trace (start "enqueue" (enqueue this m2 o2) failed) =
    trace failed ++ [sent (S n) createChannel].
Proof.
  intros Hw Hc n failed.
  assert (E : failed =
              emit (threw (caller "enqueue") e)
                (emit (replied n createChannel (Some e))
                   (with_outstanding (outstanding w)
                      (suspend (caller "enqueue") createChannel None
                         (created this m1 o1) w)))).
  { unfold failed. rewrite (enqueue_asks_for_channel this m1 o1 w Hc).
    rewrite (step_reply_refused n e
               {| w_id := n; w_owner := caller "enqueue";
                  w_request := createChannel; w_onMessage := None;
                  w_k := created this m1 o1 |} (outstanding w));
      [reflexivity | ].
    unfold suspend; simpl. apply take_waiter_last; auto. }
  rewrite (enqueue_asks_for_channel this m2 o2 failed)
    by (rewrite E; exact Hc).
  rewrite E. simpl. rewrite <- !app_assoc. auto.
Qed.

Lemma refused_channel_is_not_cached_witness :
  trace (start "enqueue"
           (enqueue (RT := Sample.runtime) Sample.mq Sample.hello None)
           (step (Reply 0 (Some (AmqpError "channel refused")))
              (start "enqueue"
                 (enqueue (RT := Sample.runtime) Sample.mq Sample.hello None)
                 (initial [])))) =
  [sent 0 createChannel;
   replied 0 createChannel (Some (AmqpError "channel refused"));
   threw (caller "enqueue") (AmqpError "channel refused");
   sent 1 createChannel].
Proof.
  destruct (refused_channel_is_not_cached
              (RT := Sample.runtime) Sample.mq Sample.hello Sample.hello
              None None (AmqpError "channel refused") (initial [])
              (Forall_nil _) eq_refl) as (Ht & _ & _ & Hnext).
  etransitivity; [exact Hnext | ]. rewrite Ht. reflexivity.
Defined.

(** X7: when the broker refuses the declaration of the main queue that
    [#getSenderChannel] sent without waiting, the call of [enqueue] has
    published and returned already: the error goes to a promise that nobody
    holds, the channel stays cached, and the next call publishes on it
    without declaring the queue again. *)
Theorem refused_declaration_is_not_reported `{RT : Runtime}
  (this : AmqpMessageQueue) (m1 m2 : payload)
  (o1 o2 : option MessageQueueEnqueueOptions) (b1 b2 : Buffer) (e : exn)
  (w : world) :
  well_numbered w -> senderChannel w = None ->
  no_delay (delay_of o1) = true -> no_delay (delay_of o2) = true ->
  message_body m1 = inr b1 -> message_body m2 = inr b2 ->
  let n := next w in
  let declaration := assertQueue n (this_queue this) (main_queue this) in
  let refused := step (Reply (S n) (Some e)) (enqueued this m1 o1 w) in
  trace refused =
    trace w ++
    [sent n createChannel; replied n createChannel None;
     sent (S n) declaration;
     published n (this_queue this) b1 (sending this);
     returned (caller "enqueue");
     replied (S n) declaration (Some e); threw dropped e] /\
  senderChannel refused = Some n /\
  trace (start "enqueue" (enqueue this m2 o2) refused) =
    trace refused ++
    [published n (this_queue this) b2 (sending this);
     returned (caller "enqueue")].
Proof.
  intros Hw Hc Hd1 Hd2 Hb1 Hb2 n declaration refused.
  set (x := {| w_id := n; w_owner := caller "enqueue";
               w_request := createChannel; w_onMessage := None;
               w_k := created this m1 o1 |}).
  set (y := {| w_id := S n; w_owner := dropped;
               w_request := declaration; w_onMessage := None;
               w_k := fun _ => Done |}).
  assert (E : refused =
              emit (threw dropped e)
                (emit (replied (S n) declaration (Some e))
                   (with_outstanding (outstanding w)
                      (run (caller "enqueue") (created this m1 o1 n)
                         (emit (replied n createChannel None)
                            (with_outstanding (outstanding w)
                               (suspend (caller "enqueue") createChannel None
                                  (created this m1 o1) w))))))).
  { unfold refused, enqueued. rewrite Hc.
    rewrite (enqueue_asks_for_channel this m1 o1 w Hc).
    rewrite (step_reply_accepted n x (outstanding w))
      by (unfold suspend; simpl; apply take_waiter_last; auto).
    cbn [w_owner w_k w_request x fresh_reply confirm w_onMessage].
    rewrite (step_reply_refused (S n) e y (outstanding w)); [reflexivity | ].
    rewrite (run_created_direct this _ m1 o1 b1 n _ Hd1 Hb1).
    unfold suspend; simpl. apply take_waiter_last; [ | reflexivity].
    apply older_than_next; exact Hw. }
  assert (Hkept : senderChannel refused = Some n).
  { rewrite E, (run_created_direct this _ m1 o1 b1 n _ Hd1 Hb1).
    reflexivity. }
  rewrite (enqueue_on_cached_channel this m2 o2 b2 n refused Hkept Hd2 Hb2).
  split; [ | split; [exact Hkept | ] ].
  - rewrite E, (run_created_direct this _ m1 o1 b1 n _ Hd1 Hb1).
    simpl. rewrite <- !app_assoc. reflexivity.
  - simpl. rewrite <- !app_assoc. reflexivity.
Qed.

Lemma refused_declaration_is_not_reported_witness :
  trace (start "enqueue"
           (enqueue (RT := Sample.runtime) Sample.mq (Sample.js_bool true)
              None)
           (step (Reply 1 (Some (AmqpError "declaration refused")))
              (enqueued (RT := Sample.runtime) Sample.mq Sample.hello None
                 (initial [])))) =
  [sent 0 createChannel; replied 0 createChannel None;
   sent 1 (assertQueue 0%nat "fedify_queue" (main_queue Sample.mq));
   published 0%nat "fedify_queue" Sample.hello_body (sending Sample.mq);
   returned (caller "enqueue");
   replied 1 (assertQueue 0%nat "fedify_queue" (main_queue Sample.mq))
     (Some (AmqpError "declaration refused"));
   threw dropped (AmqpError "declaration refused");
   published 0%nat "fedify_queue" (list_byte_of_string "true")
     (sending Sample.mq);
   returned (caller "enqueue")].
Proof.
  destruct (refused_declaration_is_not_reported
              (RT := Sample.runtime) Sample.mq Sample.hello
              (Sample.js_bool true) None None Sample.hello_body
              (list_byte_of_string "true")
              (AmqpError "declaration refused") (initial [])
              (Forall_nil _) eq_refl eq_refl eq_refl eq_refl eq_refl)
    as (Ht & _ & Hnext).
  etransitivity; [exact Hnext | ]. rewrite Ht. reflexivity.
Defined.

(** ** listen: setting up *)

(** X9: [listen] makes its four calls one after the other, each when the
    broker has answered the one before: it opens a channel of its own,
    declares the main queue and, unlike [#getSenderChannel], waits for the
    answer, limits the consumer to one unacknowledged message and subscribes.
    The consumer and the listener for the signal are in place only when the
    broker has answered the last of the four, and the sender channel is left
    alone. *)
Theorem listen_sets_up_in_order `{RT : Runtime}
  (this : AmqpMessageQueue) (handler : payload -> HandlerResult)
  (options : MessageQueueListenOptions) (w : world) (k : nat) :
  well_numbered w ->
  let n := next w in
  let w' := exec (firstn k (setup n))
                 (start "listen" (listen this handler options) w) in
  trace w' = trace w ++ firstn (2 * k + 1) (subscription this n) /\
  consumers w' =
    consumers w ++
    (if (4 <=? k)%nat then [(tag_of (S (S (S n))), onMessage n handler)]
     else []) /\
  map fst (listeners w') =
    map fst (listeners w) ++
    (if (4 <=? k)%nat
     then match signal options with Some s => [s] | None => [] end
     else []) /\
  senderChannel w' = senderChannel w.
Proof.
  intros Hw n w'.
  assert (Hlast : forall x,
            w_id x = S n ->
            take_waiter (S n) (outstanding w ++ [x]) = Some (x, outstanding w)).
  { intros x Hx. apply take_waiter_last; auto.
    apply older_than_next; exact Hw. }
  assert (Hlast2 : forall x,
            w_id x = S (S n) ->
            take_waiter (S (S n)) (outstanding w ++ [x]) =
            Some (x, outstanding w)).
  { intros x Hx. apply take_waiter_last; auto.
    eapply Forall_impl; [ | exact Hw]. simpl; intros; lia. }
  assert (Hlast3 : forall x,
            w_id x = S (S (S n)) ->
            take_waiter (S (S (S n))) (outstanding w ++ [x]) =
            Some (x, outstanding w)).
  { intros x Hx. apply take_waiter_last; auto.
    eapply Forall_impl; [ | exact Hw]. simpl; intros; lia. }
  assert (Hk : (k = 0 \/ k = 1 \/ k = 2 \/ k = 3 \/ 4 <= k)%nat) by lia.
  destruct Hk as [-> | [-> | [-> | [-> | Hk] ] ] ].
  - unfold w'. simpl. rewrite !app_nil_r. repeat split; reflexivity.
  - unfold w'. simpl. rewrite take_waiter_last by auto. simpl.
    rewrite !app_nil_r, <- !app_assoc. repeat split; reflexivity.
  - unfold w'. simpl. rewrite take_waiter_last by auto. simpl.
    rewrite Hlast by reflexivity. simpl.
    rewrite !app_nil_r, <- !app_assoc. repeat split; reflexivity.
  - unfold w'. simpl. rewrite take_waiter_last by auto. simpl.
    rewrite Hlast by reflexivity. simpl.
    rewrite Hlast2 by reflexivity. simpl.
    rewrite !app_nil_r, <- !app_assoc. repeat split; reflexivity.
  - assert (E4 : (4 <=? k)%nat = true) by (apply Nat.leb_le; exact Hk).
    rewrite E4. unfold w'.
    rewrite (firstn_all2 (setup n)) by (simpl; lia).
    rewrite (firstn_all2 (subscription this n)) by (simpl; lia).
    simpl. rewrite take_waiter_last by auto. simpl.
    rewrite Hlast by reflexivity. simpl.
    rewrite Hlast2 by reflexivity. simpl.
    rewrite Hlast3 by reflexivity. simpl.
    unfold new_Promise, await_promise, addEventListener, ret.
    destruct (signal options) as [s | ]; simpl;
      rewrite ?map_app, ?app_nil_r, <- ?app_assoc; repeat split; reflexivity.
Qed.

Lemma listen_sets_up_in_order_witness :
  trace (exec (RT := Sample.runtime) (firstn 4 (setup 0))
           (start "listen"
              (listen (RT := Sample.runtime) Sample.mq Sample.collecting
                 {| signal := None |})
              (initial []))) =
  [] ++ firstn (2 * 4 + 1) (subscription Sample.mq 0).
Proof.
  apply (proj1 (listen_sets_up_in_order
                  (RT := Sample.runtime) Sample.mq Sample.collecting
                  {| signal := None |} (initial []) 4 (Forall_nil _))).
Defined.

(** ** listen: when the setup fails *)

Section Idle.
Context `{RT : Runtime}.

(** In a world where nothing waits, nothing but the outside moves. *)
Lemma idle_step i w :
  idle w ->
  idle (step i w) /\
  (trace (step i w) = trace w \/
   exists e, outside e /\ trace (step i w) = trace w ++ [e]).
Proof.
  intros Hw. assert (Hw' := Hw). destruct Hw' as (Ho & Hc & Hr & Hl & Ha).
  destruct i as [id outcome | tag msg | p outcome | s | p]; unfold step.
  - rewrite Ho. simpl. split; [exact Hw | left; reflexivity].
  - rewrite Hc. simpl. split; [exact Hw | left; reflexivity].
  - destruct (existsb (Nat.eqb p) (settled_promises w)); simpl;
      rewrite Hr; simpl.
    + split; [repeat split; simpl; auto | left; reflexivity].
    + split; [repeat split; simpl; auto | right].
      exists (handler_settled p outcome). simpl. auto.
  - destruct (existsb (Nat.eqb s) (aborted w)); simpl;
      [split; [exact Hw | left; reflexivity] | ].
    rewrite Hl. simpl. split; [repeat split; simpl; auto | right].
    exists (fired s). simpl. auto.
  - destruct (existsb (Nat.eqb p) (resolved_promises w));
      [ | split; [exact Hw | left; reflexivity] ].
    rewrite Ha. simpl. split; [repeat split; simpl; auto | left; reflexivity].
Qed.

Lemma idle_exec schedule : forall w,
  idle w ->
  idle (exec schedule w) /\
  forall e, In e (trace (exec schedule w)) -> In e (trace w) \/ outside e.
Proof.
  induction schedule as [ | i l IH]; simpl; intros w Hw; auto.
  destruct (idle_step i w Hw) as [Hi Ht].
  destruct (IH _ Hi) as [Hi' Ht']. split; auto.
  intros e He. destruct (Ht' e He) as [Hin | Hout]; auto.
  destruct Ht as [E | (e' & Hout & E)]; rewrite E in Hin; auto.
  apply in_app_or in Hin. destruct Hin as [Hin | [<- | [ ] ] ]; auto.
Qed.

End Idle.

Lemma In_of_firstn {A} (x : A) n : forall l, In x (firstn n l) -> In x l.
Proof.
  induction n as [ | n IH]; intros [ | y l]; simpl; auto; try tauto.
  intros [E | H]; auto.
Qed.

(** X10: when the broker refuses one of the four calls of the setup, [listen]
    fails with the error of the broker and leaves nothing behind: no call is
    pending and no code waits, so that nothing more is ever asked of the
    broker.  In particular a channel that was opened before the failure is
    never closed. *)
Theorem failed_setup_is_abandoned `{RT : Runtime}
  (this : AmqpMessageQueue) (handler : payload -> HandlerResult)
  (options : MessageQueueListenOptions) (cached : option Channel)
  (gone : list AbortSignal) (k : nat) (e : exn) (later : list input) :
  (k < 4)%nat ->
  let called := start "listen" (listen this handler options)
                      (instance cached gone) in
  let failed := exec (firstn k (setup 0) ++ [Reply k (Some e)]) called in
  (exists r,
     nth_error (subscription this 0) (2 * k) = Some (sent k r) /\
     trace failed =
       firstn (2 * k + 1) (subscription this 0) ++
       [replied k r (Some e); threw (caller "listen") e]) /\
  idle failed /\
  (forall e', In e' (trace (exec later failed)) ->
     In e' (trace failed) \/ outside e') /\
  (forall id ch, ~ In (sent id (close ch)) (trace (exec later failed))).
Proof.
  intros Hk called failed.
  assert (Hidle : idle failed).
  { assert (E : (k = 0 \/ k = 1 \/ k = 2 \/ k = 3)%nat) by lia.
    destruct E as [-> | [-> | [-> | ->] ] ]; repeat split. }
  assert (Htrace : exists r,
            nth_error (subscription this 0) (2 * k) = Some (sent k r) /\
            trace failed =
              firstn (2 * k + 1) (subscription this 0) ++
              [replied k r (Some e); threw (caller "listen") e]).
  { assert (E : (k = 0 \/ k = 1 \/ k = 2 \/ k = 3)%nat) by lia.
    destruct E as [-> | [-> | [-> | ->] ] ]; eexists; split; reflexivity. }
  destruct (idle_exec later failed Hidle) as [_ Hlater].
  repeat split; try apply Hidle; auto.
  intros id ch Hin.
  destruct (Hlater _ Hin) as [Hin' | [ ] ].
  destruct Htrace as (r & _ & E). rewrite E in Hin'.
  apply in_app_or in Hin'. destruct Hin' as [Hin' | Hin'].
  - apply In_of_firstn in Hin'. simpl in Hin'.
    repeat (destruct Hin' as [Hin' | Hin']; [discriminate Hin' | ]).
    exact Hin'.
  - simpl in Hin'.
    repeat (destruct Hin' as [Hin' | Hin']; [discriminate Hin' | ]).
    exact Hin'.
Qed.

Lemma failed_setup_is_abandoned_witness :
  ~ In (sent 3 (close 0%nat))
       (trace (exec (RT := Sample.runtime)
                 [Abort 7%nat; Reply 2 None; Reply 3 None]
                 (exec (RT := Sample.runtime)
                    (firstn 2 (setup 0) ++
                     [Reply 2 (Some (AmqpError "prefetch refused"))])
                    (start "listen"
                       (listen (RT := Sample.runtime) Sample.mq
                          Sample.collecting {| signal := Some 7%nat |})
                       (instance None []))))).
Proof.
  apply (failed_setup_is_abandoned
           (RT := Sample.runtime) Sample.mq Sample.collecting
           {| signal := Some 7%nat |} None [] 2
           (AmqpError "prefetch refused")
           [Abort 7%nat; Reply 2 None; Reply 3 None]).
  lia.
Defined.

(** ** The trace only grows *)

Section TraceGrows.
Context `{RT : Runtime}.

Lemma run_extends t : forall o w, exists l, trace (run o t w) = trace w ++ l.
Proof.
  induction t as [ | e | a k IH | r k IH | ch q f IHf opts k IH
                 | t IHt k IHk | p c IHc k IHk | k IH | p k IH
                 | s l IHl k IHk ]; intros o w; simpl.
  - eauto.
  - eauto.
  - destruct a; simpl;
      match goal with
      | |- context [run o (k ?r) ?w'] =>
          destruct (IH r o w') as [l E]; rewrite E; simpl;
          rewrite <- ?app_assoc; eauto
      end.
  - eauto.
  - eauto.
  - destruct (IHt dropped w) as [l1 E1].
    destruct (IHk o (run dropped t w)) as [l2 E2].
    rewrite E2, E1, <- app_assoc. eauto.
  - destruct (IHk o (with_reactions (reactions w ++ [(p, c)]) w)) as [l E].
    rewrite E. simpl. eauto.
  - destruct (IH (next w) o (with_next (S (next w)) w)) as [l E].
    rewrite E. simpl. eauto.
  - exists []. rewrite app_nil_r. reflexivity.
  - destruct (IHk o (with_listeners (listeners w ++ [(s, l)]) w)) as [l' E].
    rewrite E. simpl. eauto.
Qed.

Lemma run_all_extends l : forall w,
  exists t, trace (run_all l w) = trace w ++ t.
Proof.
  induction l as [ | [o t] l IH]; intros w.
  - exists []. rewrite app_nil_r. reflexivity.
  - change (run_all ((o, t) :: l) w) with (run_all l (run o t w)).
    destruct (IH (run o t w)) as [t2 E2].
    destruct (run_extends t o w) as [t1 E1].
    rewrite E2, E1, <- app_assoc. eauto.
Qed.

Lemma confirm_trace x w : trace (confirm x w) = trace w.
Proof.
  unfold confirm. destruct x as [xid xo xr xf xk]; simpl.
  destruct xr; simpl; auto. destruct xf; reflexivity.
Qed.

Lemma step_extends i w : exists t, trace (step i w) = trace w ++ t.
Proof.
  destruct i as [id outcome | tag msg | p outcome | s | p]; simpl.
  - destruct (take_waiter id (outstanding w)) as [[x rest] | ];
      [ | exists []; rewrite app_nil_r; reflexivity].
    destruct outcome as [e | ].
    + simpl. rewrite <- app_assoc. eauto.
    + match goal with
      | |- context [run ?o ?t ?w'] => destruct (run_extends t o w') as [l E]
      end.
      rewrite E, confirm_trace. simpl. rewrite <- app_assoc. eauto.
  - destruct (find_consumer tag (consumers w)) as [f | ];
      [ | exists []; rewrite app_nil_r; reflexivity].
    match goal with
    | |- context [run ?o ?t ?w'] => destruct (run_extends t o w') as [l E]
    end.
    rewrite E. simpl. rewrite <- app_assoc. eauto.
  - match goal with
    | |- context [run_all ?l ?w'] => destruct (run_all_extends l w') as [t E]
    end.
    rewrite E. simpl.
    destruct (existsb (Nat.eqb p) (settled_promises w)); simpl;
      rewrite <- ?app_assoc; eauto.
  - destruct (existsb (Nat.eqb s) (aborted w));
      [exists []; rewrite app_nil_r; reflexivity | ].
    match goal with
    | |- context [run_all ?l ?w'] => destruct (run_all_extends l w') as [t E]
    end.
    rewrite E. simpl. rewrite <- app_assoc. eauto.
  - destruct (existsb (Nat.eqb p) (resolved_promises w));
      [ | exists []; rewrite app_nil_r; reflexivity].
    match goal with
    | |- context [run_all ?l ?w'] => destruct (run_all_extends l w') as [t E]
    end.
    rewrite E. simpl. eauto.
Qed.

Lemma exec_extends schedule : forall w,
  exists t, trace (exec schedule w) = trace w ++ t.
Proof.
  induction schedule as [ | i l IH]; intros w.
  - exists []. rewrite app_nil_r. reflexivity.
  - change (exec (i :: l) w) with (exec l (step i w)).
    destruct (IH (step i w)) as [t2 E2].
    destruct (step_extends i w) as [t1 E1].
    rewrite E2, E1, <- app_assoc. eauto.
Qed.

Lemma step_keeps_trace i e w : In e (trace w) -> In e (trace (step i w)).
Proof.
  intros H. destruct (step_extends i w) as [t E].
  rewrite E. apply in_or_app. auto.
Qed.

(** What has happened stays in the trace. *)
Lemma exec_keeps_trace schedule e w :
  In e (trace w) -> In e (trace (exec schedule w)).
Proof.
  intros H. destruct (exec_extends schedule w) as [t E].
  rewrite E. apply in_or_app. auto.
Qed.

Lemma exec_app (l1 l2 : list input) w :
  exec (l1 ++ l2) w = exec l2 (exec l1 w).
Proof. apply fold_left_app. Qed.

Lemma exec_cons (i : input) (l : list input) w :
  exec (i :: l) w = exec l (step i w).
Proof. reflexivity. Qed.

End TraceGrows.

(** ** listen: ways not to return *)

Section Halts.
Context `{RT : Runtime}.
Variable this : AmqpMessageQueue.
Variable handler : payload -> HandlerResult.
Variable gone : list AbortSignal.

Local Abbreviation canon := (canon this handler).
Local Arguments Nat.eqb : simpl never.
Local Arguments String.eqb : simpl never.

(** A listener that has not been told to stop has neither cancelled nor
    closed anything, and has not returned. *)
Lemma early_marks sig st w m :
  at_stage this handler sig gone st w -> late st = false ->
  In m (marks (trace w)) ->
  m = channel_opened 0%nat \/ m = subscribed 0%nat (tag_of 3).
Proof.
  intros (_ & _ & Hm & _) Hl. rewrite Hm.
  destruct st, sig; try discriminate Hl; simpl; intuition auto.
Qed.

(** From these stages a listener does not move, whatever happens. *)
Lemma stuck_step sig st i w :
  stuck st = true -> at_stage this handler sig gone st w ->
  at_stage this handler sig gone st (step i w).
Proof.
  intros Hs H. assert (H' := H). revert H'.
  intros (Hc & Hn & Hm & Hr & Hg & Hl).
  apply core_eqs in Hc. destruct Hc as (Ho & Hcs & Hls & Ha & Hres).
  destruct i as [id outcome | tag msg | p outcome | s' | p].
  - unfold step. rewrite Ho.
    destruct st; try discriminate Hs; destruct sig; simpl; exact H.
  - apply (at_stage_calm this handler gone sig st w); auto.
    apply (calm_deliver this handler gone sig st); exact H.
  - apply (at_stage_calm this handler gone sig st w); auto.
    apply calm_settle. exact Hr.
  - unfold step.
    destruct (existsb (Nat.eqb s') (aborted w)) eqn:E; [exact H | ].
    assert (Hquiet : at_stage this handler sig gone st
                       (emit (fired s') (with_aborted (s' :: aborted w) w))).
    { apply (at_stage_calm this handler gone sig st w); auto.
      unfold calm, core; simpl. rewrite marks_app. simpl.
      rewrite app_nil_r. repeat split; auto. apply incl_tl, incl_refl. }
    cbn [listeners emit with_aborted]. rewrite Hls.
    destruct (canon_listeners this handler sig st) as [EL | (s & -> & EL)];
      rewrite EL; [exact Hquiet | ].
    cbn [filter fst]. destruct (Nat.eqb_spec s s') as [<- | Hne];
      [ | exact Hquiet].
    exfalso.
    destruct st; try discriminate Hs; simpl in EL; try discriminate EL;
      destruct (Hl eq_refl) as (s0 & E0 & Hin & _); inversion E0; subst;
      apply In_existsb in Hin; congruence.
  - unfold step. rewrite Hres, Ha.
    destruct st; try discriminate Hs; destruct sig as [s | ]; simpl;
      try exact H;
      (destruct (Nat.eqb p 4); simpl; [ | exact H]);
      (destruct Hn as [Hn | Hn]; [discriminate | ]);
      unfold at_stage, core; simpl;
      rewrite Ho, Hcs, Hls, Hres, Hm, Hn; repeat split; auto.
Qed.

Lemma stuck_exec sig st schedule : forall w,
  stuck st = true -> at_stage this handler sig gone st w ->
  at_stage this handler sig gone st (exec schedule w).
Proof.
  induction schedule as [ | i l IH]; simpl; intros w Hs H; auto.
  apply IH; auto. apply stuck_step; auto.
Qed.

End Halts.

Section Refusals.
Context `{RT : Runtime}.
Variable this : AmqpMessageQueue.
Variable handler : payload -> HandlerResult.
Variable gone : list AbortSignal.

Local Abbreviation canon := (canon this handler).

Ltac restage :=
  unfold at_stage, core; simpl;
  rewrite ?marks_app; simpl;
  repeat match goal with
         | H : _ = _ |- _ => rewrite H
         end; simpl;
  repeat split; auto; try discriminate;
  try (intros _;
       match goal with
       | H : late _ = true -> _ |- _ => apply H; reflexivity
       end).

(** A signal that fires while no listener for it is in place goes by
    unnoticed: the listener is where it was, and the signal counts as one
    that had fired before. *)
Lemma missed_abort sig st s w :
  at_stage this handler sig gone st w ->
  listeners (canon sig st) = [] -> late st = false ->
  at_stage this handler sig (s :: gone) st (step (Abort s) w).
Proof.
  intros (Hc & Hn & Hm & Hr & Hg & Hl) EL Hlate.
  assert (Hc' := Hc). apply core_eqs in Hc'.
  destruct Hc' as (Ho & Hcs & Hls & Ha & Hres).
  unfold step. destruct (existsb (Nat.eqb s) (aborted w)) eqn:E.
  - repeat split; auto.
    + intros x [<- | Hx]; [apply In_existsb, E | apply Hg, Hx].
    + rewrite Hlate. discriminate.
  - cbn [listeners emit with_aborted]. rewrite Hls, EL. simpl.
    unfold at_stage. split; [exact Hc | ].
    split; [exact Hn | ]. split.
    { simpl. rewrite marks_app. simpl. rewrite app_nil_r. exact Hm. }
    split; [exact Hr | ]. split.
    { simpl. intros x [<- | Hx]; [left; reflexivity | right; apply Hg, Hx]. }
    rewrite Hlate. discriminate.
Qed.

(** The listener learns of the signal and asks the broker to cancel the
    consumer. *)
Lemma aborted_listener_cancels cached s :
  ~ In s gone ->
  at_stage this handler (Some s) gone Cancelling
    (exec (setup 0 ++ [Abort s])
       (start "listen" (listen this handler {| signal := Some s |})
          (instance cached gone))).
Proof.
  intros Hs. unfold setup. cbn [app exec fold_left].
  set (w4 := step (Reply 3 None) _).
  assert (E : step (Abort s) w4 =
              run (listener s)
                  (onAbort 0%nat {| consumerTag := tag_of 3 |}
                     (fun _ => call (resolve 4%nat)) (fun _ => Done))
                  (emit (fired s) (with_aborted (s :: gone) w4))).
  { unfold step at 1. change (aborted w4) with gone.
    rewrite (not_In_existsb s gone Hs).
    change (listeners (emit (fired s) (with_aborted (s :: gone) w4)))
      with [(s, onAbort 0%nat {| consumerTag := tag_of 3 |}
                  (fun _ => call (resolve 4%nat)) (fun _ => Done))].
    cbn [filter fst]. rewrite Nat.eqb_refl. reflexivity. }
  rewrite E. unfold at_stage.
  split; [reflexivity | ]. split; [right; reflexivity | ].
  split; [reflexivity | ]. split; [apply Forall_nil | ].
  split; [apply incl_tl, incl_refl | ].
  intros _. exists s. split; [reflexivity | ].
  split; [left; reflexivity | exact Hs].
Qed.

(** The broker refuses to cancel the consumer: the error is nobody's, and
    the listener goes no further. *)
Lemma cancel_refused sig e w :
  at_stage this handler sig gone Cancelling w ->
  at_stage this handler sig gone CancelFailed (step (Reply 5 (Some e)) w) /\
  In (threw dropped e) (trace (step (Reply 5 (Some e)) w)).
Proof.
  intros (Hc & Hn & Hm & Hr & Hg & Hl).
  apply core_eqs in Hc. destruct Hc as (Ho & Hcs & Hls & Ha & Hres).
  destruct Hn as [Hn | Hn]; [discriminate | ].
  unfold step. rewrite Ho. destruct sig as [s | ]; simpl in *;
    (split; [restage | apply in_or_app; simpl; auto]).
Qed.

(** The broker confirms the cancellation: the listener asks it to close the
    channel. *)
Lemma cancel_accepted sig w :
  at_stage this handler sig gone Cancelling w ->
  at_stage this handler sig gone Closing (step (Reply 5 None) w) /\
  In (sent 6 (close 0%nat)) (trace (step (Reply 5 None) w)).
Proof.
  intros (Hc & Hn & Hm & Hr & Hg & Hl).
  apply core_eqs in Hc. destruct Hc as (Ho & Hcs & Hls & Ha & Hres).
  destruct Hn as [Hn | Hn]; [discriminate | ].
  unfold step. rewrite Ho. destruct sig as [s | ]; simpl in *;
    (split; [restage | rewrite Hn, !in_app_iff; simpl; auto 10]).
Qed.

(** The broker refuses to close the channel: the error is nobody's, and the
    listener goes no further. *)
Lemma close_refused sig e w :
  at_stage this handler sig gone Closing w ->
  at_stage this handler sig gone CloseFailed (step (Reply 6 (Some e)) w) /\
  In (threw dropped e) (trace (step (Reply 6 (Some e)) w)).
Proof.
  intros (Hc & Hn & Hm & Hr & Hg & Hl).
  apply core_eqs in Hc. destruct Hc as (Ho & Hcs & Hls & Ha & Hres).
  destruct Hn as [Hn | Hn]; [discriminate | ].
  unfold step. rewrite Ho. destruct sig as [s | ]; simpl in *;
    (split; [restage | apply in_or_app; simpl; auto]).
Qed.

(** What is in the trace of a listener has its marks in the life so far. *)
Lemma marked_at sig st w e m :
  at_stage this handler sig gone st w -> In e (trace w) -> In m (mark_of e) ->
  In m (marks (trace (canon sig st))).
Proof.
  intros (_ & _ & Hm & _) He Hin. rewrite <- Hm.
  eapply marks_In; eauto.
Qed.

End Refusals.

(** X11: a signal that fires while [listen] is still setting up, before the
    broker has answered the subscription, is missed: the listener for it is
    added only afterwards and nothing looks at the state of the signal.  The
    consumer is never cancelled, the channel never closed, and [listen] never
    returns, whatever happens later. *)
Theorem abort_during_setup_is_missed `{RT : Runtime}
  (this : AmqpMessageQueue) (handler : payload -> HandlerResult)
  (options : MessageQueueListenOptions) (cached : option Channel)
  (gone : list AbortSignal) (s : AbortSignal) (k : nat)
  (later : list input) :
  signal options = Some s -> (k < 4)%nat ->
  let w := exec (firstn k (setup 0) ++ Abort s :: later)
             (start "listen" (listen this handler options)
                (instance cached gone)) in
  ~ In (returned (caller "listen")) (trace w) /\
  (forall p, ~ In (resolved p) (trace w)) /\
  (forall id ch tag, ~ In (sent id (cancel ch tag)) (trace w)) /\
  (forall id ch, ~ In (sent id (close ch)) (trace w)).
Proof.
  destruct options as [sig]. simpl. intros -> Hk.
  rewrite exec_app, exec_cons.
  set (W := exec (firstn k (setup 0)) _).
  assert (HW : exists st,
             at_stage this handler (Some s) gone st W /\
             listeners (canon this handler (Some s) st) = [] /\
             late st = false).
  { assert (E : (k = 0 \/ k = 1 \/ k = 2 \/ k = 3)%nat) by lia.
    unfold W.
    destruct E as [-> | [-> | [-> | ->] ] ];
      [exists Creating | exists Declaring | exists Prefetching
       | exists Subscribing];
      (split; [ | split; reflexivity]);
      unfold at_stage, core; simpl; repeat split; auto using incl_refl;
      discriminate. }
  destruct HW as (st & Hst & EL & Hlate).
  destruct (exec_at_stage this handler (s :: gone) (Some s) later st
              (step (Abort s) W)
              (missed_abort this handler gone (Some s) st s W Hst EL Hlate))
    as [st' H'].
  assert (Hearly : late st' = false).
  { destruct (late st') eqn:L; auto.
    destruct H' as (_ & _ & _ & _ & _ & Hl).
    destruct (Hl L) as (s0 & E0 & _ & Hn). inversion E0; subst.
    exfalso. apply Hn. left. reflexivity. }
  assert (Hmarks : forall e m, In e (trace (exec later (step (Abort s) W))) ->
                     In m (mark_of e) ->
                     m = channel_opened 0%nat \/
                     m = subscribed 0%nat (tag_of 3)).
  { intros e m He Hm.
    apply (early_marks this handler (s :: gone) (Some s) st' _ m H' Hearly).
    eapply marks_In; eauto. }
  repeat split.
  - intros Hin.
    destruct (Hmarks _ listen_returned Hin) as [E | E]; try discriminate E.
    simpl. auto.
  - intros p Hin.
    destruct (Hmarks _ (promise_resolved p) Hin) as [E | E];
      try discriminate E.
    simpl. auto.
  - intros id ch tag Hin.
    destruct (Hmarks _ (cancel_requested ch tag) Hin) as [E | E];
      try discriminate E.
    simpl. auto.
  - intros id ch Hin.
    destruct (Hmarks _ (close_requested ch) Hin) as [E | E];
      try discriminate E.
    simpl. auto.
Qed.

Lemma abort_during_setup_is_missed_witness :
  ~ In (returned (caller "listen"))
       (trace (exec (RT := Sample.runtime)
                 (firstn 3 (setup 0) ++
                  Abort 7%nat :: [Reply 3 None; Abort 7%nat; Resume 4%nat])
                 (start "listen"
                    (listen (RT := Sample.runtime) Sample.mq
                       Sample.collecting {| signal := Some 7%nat |})
                    (instance None [])))).
Proof.
  apply (abort_during_setup_is_missed
           (RT := Sample.runtime) Sample.mq Sample.collecting
           {| signal := Some 7%nat |} None [] 7%nat 3
           [Reply 3 None; Abort 7%nat; Resume 4%nat] eq_refl).
  lia.
Defined.

(** X12: when the broker refuses to cancel the consumer, the error is caught
    by nobody ([cancel(...).then(...)] has no rejection handler), the channel
    is never closed, the promise of [listen] is never resolved and [listen]
    never returns, whatever happens later.  (On an instance where nothing is
    pending, the call that cancels the consumer is call 5.) *)
Theorem refused_cancel_leaves_channel_open `{RT : Runtime}
  (this : AmqpMessageQueue) (handler : payload -> HandlerResult)
  (options : MessageQueueListenOptions) (cached : option Channel)
  (gone : list AbortSignal) (s : AbortSignal) (e : exn)
  (later : list input) :
  signal options = Some s -> ~ In s gone ->
  let w := exec (setup 0 ++ [Abort s] ++ Reply 5 (Some e) :: later)
             (start "listen" (listen this handler options)
                (instance cached gone)) in
  In (threw dropped e) (trace w) /\
  (forall id ch, ~ In (sent id (close ch)) (trace w)) /\
  (forall p, ~ In (resolved p) (trace w)) /\
  ~ In (returned (caller "listen")) (trace w).
Proof.
  destruct options as [sig]. simpl signal. intros -> Hs.
  rewrite app_assoc, exec_app, exec_cons.
  set (W := exec (setup 0 ++ [Abort s]) _).
  destruct (cancel_refused this handler gone (Some s) e W
              (aborted_listener_cancels this handler gone cached s Hs))
    as [Hst Hthrew].
  assert (H' := stuck_exec this handler gone (Some s) CancelFailed later _
                  eq_refl Hst).
  assert (Hmarks : forall e' m,
            In e' (trace (exec later (step (Reply 5 (Some e)) W))) ->
            In m (mark_of e') ->
            In m [channel_opened 0%nat; subscribed 0%nat (tag_of 3);
                  cancel_requested 0%nat (tag_of 3)]).
  { intros e' m He Hm.
    exact (marked_at this handler gone (Some s) CancelFailed _ e' m
             H' He Hm). }
  split; [apply exec_keeps_trace; exact Hthrew | ].
  repeat split.
  - intros id ch Hin.
    assert (H := Hmarks _ (close_requested ch) Hin (or_introl eq_refl)).
    simpl in H. intuition discriminate.
  - intros p Hin.
    assert (H := Hmarks _ (promise_resolved p) Hin (or_introl eq_refl)).
    simpl in H. intuition discriminate.
  - intros Hin.
    assert (H := Hmarks _ listen_returned Hin (or_introl eq_refl)).
    simpl in H. intuition discriminate.
Qed.

Lemma refused_cancel_leaves_channel_open_witness :
  ~ In (sent 6 (close 0%nat))
       (trace (exec (RT := Sample.runtime)
                 (setup 0 ++ [Abort 7%nat] ++
                  Reply 5 (Some (AmqpError "cancel refused")) ::
                  [Reply 5 None; Abort 7%nat])
                 (start "listen"
                    (listen (RT := Sample.runtime) Sample.mq
                       Sample.collecting {| signal := Some 7%nat |})
                    (instance None [])))).
Proof.
  apply (refused_cancel_leaves_channel_open
           (RT := Sample.runtime) Sample.mq Sample.collecting
           {| signal := Some 7%nat |} None [] 7%nat
           (AmqpError "cancel refused") [Reply 5 None; Abort 7%nat] eq_refl).
  simpl. tauto.
Defined.

(** X13: when the broker confirms the cancellation and then refuses to close
    the channel, the error is caught by nobody, the promise of [listen] is
    never resolved and [listen] never returns, whatever happens later.  (The
    call that cancels the consumer is call 5, the one that closes the channel
    call 6.) *)
Theorem refused_close_never_resolves `{RT : Runtime}
  (this : AmqpMessageQueue) (handler : payload -> HandlerResult)
  (options : MessageQueueListenOptions) (cached : option Channel)
  (gone : list AbortSignal) (s : AbortSignal) (e : exn)
  (later : list input) :
  signal options = Some s -> ~ In s gone ->
  let w := exec (setup 0 ++ [Abort s] ++
                 Reply 5 None :: Reply 6 (Some e) :: later)
             (start "listen" (listen this handler options)
                (instance cached gone)) in
  In (sent 6 (close 0%nat)) (trace w) /\
  In (threw dropped e) (trace w) /\
  (forall p, ~ In (resolved p) (trace w)) /\
  ~ In (returned (caller "listen")) (trace w).
Proof.
  destruct options as [sig]. simpl signal. intros -> Hs.
  rewrite app_assoc, exec_app, !exec_cons.
  set (W := exec (setup 0 ++ [Abort s]) _).
  destruct (cancel_accepted this handler gone (Some s) W
              (aborted_listener_cancels this handler gone cached s Hs))
    as [Hclosing Hsent].
  destruct (close_refused this handler gone (Some s) e _ Hclosing)
    as [Hst Hthrew].
  assert (H' := stuck_exec this handler gone (Some s) CloseFailed later _
                  eq_refl Hst).
  assert (Hmarks : forall e' m,
            In e' (trace (exec later (step (Reply 6 (Some e))
                                        (step (Reply 5 None) W)))) ->
            In m (mark_of e') ->
            In m [channel_opened 0%nat; subscribed 0%nat (tag_of 3);
                  cancel_requested 0%nat (tag_of 3);
                  cancel_confirmed 0%nat (tag_of 3);
                  close_requested 0%nat]).
  { intros e' m He Hm.
    exact (marked_at this handler gone (Some s) CloseFailed _ e' m
             H' He Hm). }
  split.
  { apply exec_keeps_trace.
    apply step_keeps_trace. exact Hsent. }
  split; [apply exec_keeps_trace; exact Hthrew | ].
  split.
  - intros p Hin.
    assert (H := Hmarks _ (promise_resolved p) Hin (or_introl eq_refl)).
    simpl in H. intuition discriminate.
  - intros Hin.
    assert (H := Hmarks _ listen_returned Hin (or_introl eq_refl)).
    simpl in H. intuition discriminate.
Qed.

Lemma refused_close_never_resolves_witness :
  ~ In (returned (caller "listen"))
       (trace (exec (RT := Sample.runtime)
                 (setup 0 ++ [Abort 7%nat] ++
                  Reply 5 None ::
                  Reply 6 (Some (AmqpError "close refused")) ::
                  [Resume 4%nat])
                 (start "listen"
                    (listen (RT := Sample.runtime) Sample.mq
                       Sample.collecting {| signal := Some 7%nat |})
                    (instance None [])))).
Proof.
  apply (refused_close_never_resolves
           (RT := Sample.runtime) Sample.mq Sample.collecting
           {| signal := Some 7%nat |} None [] 7%nat
           (AmqpError "close refused") [Resume 4%nat] eq_refl).
  simpl. tauto.
Defined.

(** ** listen: a handler that returns a promise *)






(** ** From enqueue to the handler *)

(** What [enqueue] publishes is the encoding of the JSON text of its
    message. *)
Lemma published_body_is_encoded `{RT : Runtime}
  (this : AmqpMessageQueue) (message : payload)
  (options : option MessageQueueEnqueueOptions)
  (cached : option Channel) (gone : list AbortSignal) (schedule : list input)
  (ch : Channel) (q : string) (body : Buffer) (o : PublishOptions) :
  In (published ch q body o)
     (trace (exec schedule
               (start "enqueue" (enqueue this message options)
                  (instance cached gone)))) ->
  exists text,
    JSON_stringify message = inr (Some text) /\ body = utf8_encode text.
Proof.
  intros He.
  set (may_do := fun a : action =>
         match a with
         | sendToQueue _ _ b _ =>
             exists text,
               JSON_stringify message = inr (Some text) /\
               b = utf8_encode text
         | _ => True
         end).
  assert (H : permitted may_do (fun _ => True) (published ch q body o)).
  { eapply Forall_In_inv; [ | exact He].
    apply permitted_always.
    apply enqueue_within; simpl; auto.
    intros c b Hb. unfold message_body in Hb.
    destruct (JSON_stringify message) as [e | [text | ] ]; try discriminate.
    simpl in Hb. inversion Hb. eauto. }
  exact H.
Qed.

(** X17: a message that [enqueue] has published, delivered to a consumer that
    [listen] has subscribed, reaches the handler as the value that was
    enqueued, provided that the JSON codec of the platform reads back what it
    wrote for that value; the message is then acknowledged, or not, as the
    handler decides. *)
Theorem enqueued_message_reaches_handler `{RT : Runtime}
  (this : AmqpMessageQueue) (message : payload)
  (options : option MessageQueueEnqueueOptions)
  (cached : option Channel) (gone : list AbortSignal) (schedule : list input)
  (ch : Channel) (q : string) (body : Buffer) (o : PublishOptions)
  (channel : Channel) (handler : payload -> HandlerResult) (tag : string)
  (n : nat) (w : world) :
  (forall text, JSON_stringify message = inr (Some text) ->
     JSON_parse (utf8_decode (utf8_encode text)) = inr message) ->
  In (published ch q body o)
     (trace (exec schedule
               (start "enqueue" (enqueue this message options)
                  (instance cached gone)))) ->
  find_consumer tag (consumers w) = Some (onMessage channel handler) ->
  let msg := {| content := body; deliveryTag := n |} in
  trace (step (Deliver tag (Some msg)) w) =
  trace w ++
  delivered tag (Some msg) :: invoked message ::
  match handler message with
  | returns_void => [acked channel msg; returned (consumer tag)]
  | returns_promise _ => [returned (consumer tag)]
  | throws e => [threw (consumer tag) e]
  end.
Proof.
  intros Hcodec Hpub Hc msg.
  destruct (published_body_is_encoded this message options cached gone
              schedule ch q body o Hpub) as (text & Htext & ->).
  assert (Hp : JSON_parse (utf8_decode (content msg)) = inr message)
    by (apply Hcodec; exact Htext).
  destruct (handler message) as [ | p | e] eqn:Hh.
  - rewrite (delivery_to_plain_handler channel handler tag msg w Hc
               message Hp Hh).
    simpl. rewrite !app_cons_assoc. reflexivity.
  - rewrite (delivery_to_async_handler channel handler tag msg w Hc
               message p Hp Hh).
    simpl. rewrite !app_cons_assoc. reflexivity.
  - rewrite (delivery_to_throwing_handler channel handler tag msg w Hc
               message e Hp Hh).
    simpl. rewrite !app_cons_assoc. reflexivity.
Qed.

Lemma enqueued_message_reaches_handler_witness :
  trace (step (Deliver "amq.ctag-3"
                 (Some {| content := Sample.hello_body; deliveryTag := 1 |}))
           (Sample.listening Sample.collecting)) =
  trace (Sample.listening Sample.collecting) ++
  [delivered "amq.ctag-3"
     (Some {| content := Sample.hello_body; deliveryTag := 1 |});
   invoked (RT := Sample.runtime) Sample.hello;
   acked 0%nat {| content := Sample.hello_body; deliveryTag := 1 |};
   returned (consumer "amq.ctag-3")].
Proof.
  apply (enqueued_message_reaches_handler
           (RT := Sample.runtime) Sample.mq Sample.hello None
           None [] [Reply 0 None] 0%nat "fedify_queue" Sample.hello_body
           {| persistent := true; contentType := "application/json" |}
           0%nat Sample.collecting "amq.ctag-3" 1
           (Sample.listening Sample.collecting)).
  - intros text E. injection E as <-. reflexivity.
  - simpl. auto 10.
  - reflexivity.
Defined.

(** ** listen: what is acknowledged *)

(** X16: whatever the schedule, [listen] acknowledges a message only if its
    payload could be decoded and the handler, called with the decoded value,
    did not throw. *)
Theorem acknowledged_only_if_handled `{RT : Runtime}
  (this : AmqpMessageQueue) (handler : payload -> HandlerResult)
  (options : MessageQueueListenOptions) (cached : option Channel)
  (gone : list AbortSignal) (schedule : list input)
  (ch : Channel) (msg : ConsumeMessage) :
  In (acked ch msg)
     (trace (exec schedule
               (start "listen" (listen this handler options)
                  (instance cached gone)))) ->
  exists message,
    JSON_parse (utf8_decode (content msg)) = inr message /\
    forall e, handler message <> throws e.
Proof.
  intros Hin.
  set (may_do := fun a : action =>
         match a with
         | ack _ m =>
             exists message,
               JSON_parse (utf8_decode (content m)) = inr message /\
               forall e, handler message <> throws e
         | _ => True
         end).
  assert (H : permitted may_do (fun _ => True) (acked ch msg)).
  { eapply Forall_In_inv; [ | exact Hin].
    apply permitted_always.
    apply listen_within; simpl; auto.
    intros c m message Hp Hnot. eauto. }
  exact H.
Qed.

Lemma acknowledged_only_if_handled_witness :
  exists message,
    Sample.parse (string_of_list_byte Sample.hello_body) = inr message /\
    forall e, Sample.collecting message <> throws e.
Proof.
  apply (acknowledged_only_if_handled
           (RT := Sample.runtime) Sample.mq Sample.collecting
           {| signal := None |} None []
           [Reply 0 None; Reply 1 None; Reply 2 None; Reply 3 None;
            Deliver "amq.ctag-3"
              (Some {| content := Sample.hello_body; deliveryTag := 1 |})]
           0%nat {| content := Sample.hello_body; deliveryTag := 1 |}).
  simpl. auto 20.
Defined.

(** ** listen: shutting down while a handler is at work *)



(** ** enqueue: one call, one message *)

Section Once.
Context `{RT : Runtime}.

Lemma publications_app (a b : list event) :
  publications (a ++ b) = (publications a + publications b)%nat.
Proof. unfold publications. rewrite filter_app, length_app. reflexivity. Qed.

Ltac count :=
  simpl in *; rewrite ?publications_app in *; unfold publications in *;
  simpl in *; lia.

Lemma budget_app l l' a b :
  budget l a -> budget l' b -> budget (l ++ l') (a + b).
Proof.
  induction 1 as [ | x l a1 a2 Hx Hk Hl IH]; simpl; intros H'; auto.
  rewrite <- Nat.add_assoc. constructor; auto.
Qed.

Lemma budget_take id : forall l x rest n,
  take_waiter id l = Some (x, rest) -> budget l n ->
  exists a b, n = (a + b)%nat /\ w_onMessage x = None /\
              (forall v, publishes_at_most a (w_k x v)) /\ budget rest b.
Proof.
  induction l as [ | y l IH]; simpl; intros x rest n E H; [discriminate | ].
  inversion H as [ | ? ? a b Hy Hk Hl]; subst.
  destruct (Nat.eqb (w_id y) id).
  - inversion E; subst. exists a, b. auto.
  - destruct (take_waiter id l) as [[z rest'] | ]; [ | discriminate].
    inversion E; subst x rest.
    destruct (IH z rest' b eq_refl Hl) as (a' & b' & -> & Hz & Hkz & Hr).
    exists a', (a + b')%nat. repeat split; auto; [lia | ].
    constructor; auto.
Qed.

(** Running code spends its allowance or leaves it to the code it puts
    aside. *)
Lemma run_owes a t :
  publishes_at_most a t ->
  forall o w m, plain w -> budget (outstanding w) m ->
  plain (run o t w) /\
  exists m', budget (outstanding (run o t w)) m' /\
    (publications (trace (run o t w)) + m' <=
     publications (trace w) + m + a)%nat.
Proof.
  induction 1 as [ n | n e | n ch q body opts k Hk IH | n a k Hnot Hk IH
                 | n r k Hk IH | a b t k Ht IHt Hk IHk ];
    intros o w m Hp Hb; simpl.
  - split; [exact Hp | ]. exists m. split; [exact Hb | ].
    count.
  - split; [exact Hp | ]. exists m. split; [exact Hb | ].
    count.
  - destruct (IH true o (emit (published ch q body opts) w) m Hp Hb)
      as (Hp' & m' & Hb' & Hle).
    split; [exact Hp' | ]. exists m'. split; [exact Hb' | ].
    count.
  - destruct a as [ | c | c q0 b0 o0 | c msg | h message | p ]; simpl.
    + apply (IH (senderChannel w) o w m Hp Hb).
    + apply (IH tt o (with_senderChannel (Some c) w) m Hp Hb).
    + exfalso. exact (Hnot c q0 b0 o0 eq_refl).
    + destruct (IH tt o (emit (acked c msg) w) m Hp Hb)
        as (Hp' & m' & Hb' & Hle).
      split; [exact Hp' | ]. exists m'. split; [exact Hb' | ].
      count.
    + destruct (IH (h message) o (emit (invoked message) w) m Hp Hb)
        as (Hp' & m' & Hb' & Hle).
      split; [exact Hp' | ]. exists m'. split; [exact Hb' | ].
      count.
    + destruct (IH tt o
                  (emit (resolved p)
                     (with_resolved (p :: resolved_promises w) w))
                  m Hp Hb) as (Hp' & m' & Hb' & Hle).
      split; [exact Hp' | ]. exists m'. split; [exact Hb' | ].
      count.
  - split; [exact Hp | ]. exists (m + n)%nat. split.
    + apply budget_app; auto.
      rewrite <- (Nat.add_0_r n). constructor; auto. constructor.
    + count.
  - destruct (IHt dropped w m Hp Hb) as (Hp1 & m1 & Hb1 & Hle1).
    destruct (IHk o (run dropped t w) m1 Hp1 Hb1) as (Hp2 & m2 & Hb2 & Hle2).
    split; [exact Hp2 | ]. exists m2. split; [exact Hb2 | lia].
Qed.

Lemma confirm_plain x w :
  w_onMessage x = None -> plain w ->
  plain (confirm x w) /\ outstanding (confirm x w) = outstanding w /\
  trace (confirm x w) = trace w.
Proof.
  unfold confirm. destruct x as [xid xo xr xf xk]; simpl.
  intros -> Hp. destruct xr; simpl; auto.
  destruct Hp as (Hc & Hr & Hl & Ha).
  unfold plain; simpl. rewrite Hc. auto.
Qed.

Lemma step_owes n i w : owes n w -> owes n (step i w).
Proof.
  intros H. assert (H' := H). revert H'.
  intros (Hp & m & Hb & Hle).
  assert (Hp' := Hp). destruct Hp' as (Hc & Hr & Hl & Ha).
  destruct i as [id outcome | tag msg | p outcome | s | p]; unfold step.
  - destruct (take_waiter id (outstanding w)) as [[x rest] | ] eqn:E;
      [ | exact H].
    destruct (budget_take id _ x rest m E Hb)
      as (a & b & -> & Hx & Hk & Hrest).
    destruct outcome as [e | ].
    + split; [exact Hp | ]. exists b. split; [exact Hrest | ].
      count.
    + set (w1 := emit (replied id (w_request x) None)
                      (with_outstanding rest w)).
      assert (Hp1 : plain w1) by exact Hp.
      destruct (confirm_plain x w1 Hx Hp1) as (Hp2 & Ho2 & Ht2).
      assert (Hb2 : budget (outstanding (confirm x w1)) b)
        by (rewrite Ho2; exact Hrest).
      destruct (run_owes a _ (Hk (fresh_reply (w_request x) id))
                  (w_owner x) (confirm x w1) b Hp2 Hb2)
        as (Hp3 & m3 & Hb3 & Hle3).
      split; [exact Hp3 | ]. exists m3. split; [exact Hb3 | ].
      assert (Ht1 : publications (trace w1) = publications (trace w)).
      { unfold w1. simpl. rewrite publications_app.
        unfold publications. simpl. lia. }
      rewrite Ht2, Ht1 in Hle3. lia.
  - rewrite Hc. exact H.
  - destruct (existsb (Nat.eqb p) (settled_promises w)); simpl;
      rewrite Hr; simpl.
    + split; [repeat split; simpl; auto | ].
      exists m. split; [exact Hb | exact Hle].
    + split; [repeat split; simpl; auto | ].
      exists m. split; [exact Hb | ]. count.
  - destruct (existsb (Nat.eqb s) (aborted w)); [exact H | ].
    simpl. rewrite Hl. simpl.
    split; [repeat split; simpl; auto | ].
    exists m. split; [exact Hb | ]. count.
  - destruct (existsb (Nat.eqb p) (resolved_promises w)); [ | exact H].
    rewrite Ha. simpl.
    split; [repeat split; simpl; auto | ].
    exists m. split; [exact Hb | exact Hle].
Qed.

Lemma exec_owes n schedule : forall w, owes n w -> owes n (exec schedule w).
Proof.
  induction schedule as [ | i l IH]; simpl; intros w H; auto.
  apply IH, step_owes, H.
Qed.

Lemma publish_once (this : AmqpMessageQueue) ch queue message :
  publishes_at_most 1 (publish this ch queue message (fun _ => Done)).
Proof.
  unfold publish, bind, checked, call, ret, throw.
  destruct (message_body message) as [e | body]; constructor.
  intros _. constructor.
Qed.

Lemma route_once (this : AmqpMessageQueue) ch options message :
  publishes_at_most 1
    (route this ch options
       (fun queue => publish this ch queue message (fun _ => Done))).
Proof.
  unfold route, bind, await, ret.
  destruct (delay_of options) as [d | ]; [ | apply publish_once].
  destruct (no_delay (Some d)); [apply publish_once | ].
  constructor. intros _. apply publish_once.
Qed.

Lemma enqueue_once (this : AmqpMessageQueue) message options :
  publishes_at_most 1 (enqueue this message options (fun _ => Done)).
Proof.
  unfold enqueue, getSenderChannel, bind, call.
  apply pam_Do; [discriminate | ].
  intros [channel | ]; simpl.
  - apply route_once.
  - constructor. intros channel.
    apply pam_Do; [discriminate | ]. intros _.
    unfold float, prepareQueue, await, ret.
    apply (pam_Float 0 1).
    + constructor. intros _. constructor.
    + apply route_once.
Qed.

End Once.

(** X3: a call of [enqueue] hands at most one message to the channel,
    whatever the broker answers, in whatever order, and however often. *)
Theorem enqueue_publishes_at_most_once `{RT : Runtime}
  (this : AmqpMessageQueue) (message : payload)
  (options : option MessageQueueEnqueueOptions)
  (cached : option Channel) (gone : list AbortSignal)
  (schedule : list input) :
  (publications
     (trace (exec schedule
               (start "enqueue" (enqueue this message options)
                  (instance cached gone)))) <= 1)%nat.
Proof.
  assert (H0 : plain (instance cached gone)) by (repeat split).
  destruct (run_owes 1 _ (enqueue_once this message options)
              (caller "enqueue") (instance cached gone) 0 H0 budget_nil)
    as (Hp & m & Hb & Hle).
  assert (H : owes 1 (start "enqueue" (enqueue this message options)
                        (instance cached gone))).
  { split; [exact Hp | ]. exists m. split; [exact Hb | ].
    change (publications (trace (instance cached gone))) with 0%nat in Hle.
    unfold start. lia. }
  destruct (exec_owes 1 schedule _ H) as (_ & m' & _ & Hle').
  lia.
Qed.

(** ** listen: every delivery once *)

Section Attentive.
Context `{RT : Runtime}.
Variable handler : payload -> HandlerResult.

Local Abbreviation quiet := (quiet handler).
Local Abbreviation attentive := (attentive handler).

Lemma handled_app (a b : list event) :
  handled (a ++ b) = handled a ++ handled b.
Proof. apply flat_map_app. Qed.

Lemma deliveries_app (a b : list event) :
  deliveries (a ++ b) = deliveries a ++ deliveries b.
Proof. apply flat_map_app. Qed.

Lemma acknowledged_app (a b : list event) :
  acknowledged (a ++ b) = acknowledged a ++ acknowledged b.
Proof. apply flat_map_app. Qed.

Lemma decoded_app (a b : list ConsumeMessage) :
  decoded (a ++ b) = decoded a ++ decoded b.
Proof. apply flat_map_app. Qed.

Lemma heard_emit e w :
  heard [e] = ([], [], []) -> heard (trace (emit e w)) = heard (trace w).
Proof.
  unfold heard. simpl trace. intros E.
  assert (Hh : handled [e] = []) by congruence.
  assert (Hd : deliveries [e] = []) by congruence.
  assert (Ha : acknowledged [e] = []) by congruence.
  rewrite handled_app, deliveries_app, acknowledged_app, Hh, Hd, Ha,
    !app_nil_r.
  reflexivity.
Qed.

Lemma attentive_same ms w w' :
  outstanding w' = outstanding w -> consumers w' = consumers w ->
  reactions w' = reactions w -> listeners w' = listeners w ->
  awaiting w' = awaiting w ->
  attentive ms w -> attentive ms w'.
Proof.
  intros E1 E2 E3 E4 E5 [H1 H2 H3 H4 H5].
  constructor; congruence.
Qed.

(** Quiet code leaves a world attentive and says nothing of the handler or
    of the messages. *)
Lemma run_quiet t :
  quiet t ->
  forall o w ms, attentive ms w ->
  attentive ms (run o t w) /\ heard (trace (run o t w)) = heard (trace w).
Proof.
  induction 1 as [ | e | a k Ha Hk IH | r k Hk IH | ch q opts k Hk IH
                 | t k Ht IHt Hk IHk | k Hk IH | p k Hk IH
                 | s l k Hl IHl Hk IHk ]; intros o w ms Hw; simpl.
  - split; [ | apply heard_emit; reflexivity].
    apply (attentive_same ms w); auto.
  - split; [ | apply heard_emit; reflexivity].
    apply (attentive_same ms w); auto.
  - destruct a as [ | c | c q b opts | c msg | h message | p ]; simpl;
      try contradiction.
    + apply IH, Hw.
    + destruct (IH tt o (with_senderChannel (Some c) w) ms) as [H1 H2].
      * apply (attentive_same ms w); auto.
      * split; [exact H1 | exact H2].
    + destruct (IH true o (emit (published c q b opts) w) ms) as [H1 H2].
      * apply (attentive_same ms w); auto.
      * split; [exact H1 | ]. rewrite H2. apply heard_emit. reflexivity.
    + destruct (IH tt o
                  (emit (resolved p)
                     (with_resolved (p :: resolved_promises w) w)) ms)
        as [H1 H2].
      * apply (attentive_same ms w); auto.
      * split; [exact H1 | ]. rewrite H2.
        apply (heard_emit (resolved p)
                 (with_resolved (p :: resolved_promises w) w)).
        reflexivity.
  - unfold suspend. split.
    + destruct Hw as [H1 H2 H3 H4 H5]. constructor; simpl; auto.
      apply Forall_app; split; auto. constructor; auto.
      simpl. split; auto. discriminate.
    + apply (heard_emit (sent (next w) r) w). reflexivity.
  - unfold suspend. split.
    + destruct Hw as [H1 H2 H3 H4 H5]. constructor; simpl; auto.
      apply Forall_app; split; auto. constructor; auto.
      simpl. split; auto. intros f E. inversion E. eauto.
    + apply (heard_emit (sent (next w) (consume ch q opts)) w). reflexivity.
  - destruct (IHt dropped w ms Hw) as [H1 H2].
    destruct (IHk o (run dropped t w) ms H1) as [H3 H4].
    split; [exact H3 | congruence].
  - destruct (IH (next w) o (with_next (S (next w)) w) ms) as [H1 H2].
    + apply (attentive_same ms w); auto.
    + split; [exact H1 | exact H2].
  - split; [ | reflexivity].
    destruct Hw as [H1 H2 H3 H4 H5]. constructor; simpl; auto.
    apply Forall_app; split; auto.
  - destruct (IHk o (with_listeners (listeners w ++ [(s, l)]) w) ms)
      as [H6 H7].
    + destruct Hw as [H1 H2 H3 H4 H5].
      constructor; simpl; auto. apply Forall_app; split; auto.
    + split; [exact H6 | exact H7].
Qed.

Lemma run_all_quiet l :
  Forall (fun c => quiet (snd c)) l ->
  forall w ms, attentive ms w ->
  attentive ms (run_all l w) /\ heard (trace (run_all l w)) = heard (trace w).
Proof.
  induction 1 as [ | [o t] l Ht Hl IH]; intros w ms Hw; [auto | ].
  change (run_all ((o, t) :: l) w) with (run_all l (run o t w)).
  destruct (run_quiet t Ht o w ms Hw) as [H1 H2].
  destruct (IH _ ms H1) as [H3 H4].
  split; [exact H3 | congruence].
Qed.

End Attentive.

Lemma Forall2_filter {A B} (R : A -> B -> Prop) (f : A -> bool) l ms :
  Forall2 R l ms ->
  exists ms1 ms2,
    Forall2 R (filter f l) ms1 /\
    Forall2 R (filter (fun x => negb (f x)) l) ms2 /\
    Permutation (ms1 ++ ms2) ms.
Proof.
  induction 1 as [ | x y l ms Hxy Hl (ms1 & ms2 & H1 & H2 & Hp)]; simpl.
  - exists [], []. auto.
  - destruct (f x); simpl.
    + exists (y :: ms1), ms2. repeat split; auto.
      simpl. apply perm_skip, Hp.
    + exists ms1, (y :: ms2). repeat split; auto.
      apply Permutation_sym, Permutation_cons_app, Permutation_sym, Hp.
Qed.

Lemma Permutation_add {A} (m : A) (l1 l2 d : list A) :
  Permutation (l1 ++ l2) d -> Permutation (l1 ++ m :: l2) (d ++ [m]).
Proof.
  intros H. apply Permutation_sym.
  eapply Permutation_trans;
    [apply Permutation_sym, Permutation_cons_append | ].
  apply Permutation_cons_app, Permutation_sym, H.
Qed.

Section Faithful.
Context `{RT : Runtime}.
Variable handler : payload -> HandlerResult.

Local Abbreviation quiet := (quiet handler).
Local Abbreviation attentive := (attentive handler).
Local Abbreviation faithful := (faithful handler).

Lemma heard_eqs (t t' : list event) :
  heard t' = heard t ->
  handled t' = handled t /\ deliveries t' = deliveries t /\
  acknowledged t' = acknowledged t.
Proof. unfold heard. intros E. repeat split; congruence. Qed.

Lemma faithful_heard ms w w' :
  attentive ms w' -> heard (trace w') = heard (trace w) ->
  handled (trace w) = decoded (deliveries (trace w)) ->
  balanced ms (trace w) -> faithful w'.
Proof.
  intros Ha Hh Hd [rest Hb]. apply heard_eqs in Hh.
  destruct Hh as (E1 & E2 & E3).
  exists ms. split; [exact Ha | ]. split; [congruence | ].
  exists rest. rewrite E2, E3. exact Hb.
Qed.

Lemma confirm_attentive ms x w :
  (forall f, w_onMessage x = Some f -> exists ch, f = onMessage ch handler) ->
  attentive ms w -> attentive ms (confirm x w).
Proof.
  unfold confirm. destruct x as [xid xo xr xf xk]; simpl.
  intros Hf [H1 H2 H3 H4 H5].
  destruct xr; simpl; try (constructor; assumption).
  - destruct xf as [f | ]; constructor; simpl; auto.
    apply Forall_app; split; auto.
  - constructor; simpl; auto. apply Forall_filter, H2.
Qed.

(** The reactions to a settled promise acknowledge their messages. *)
Lemma run_acknowledgements p due : forall ms1 w ms,
  Forall2 acknowledges due ms1 -> attentive ms w ->
  let w' := run_all (map (fun c => (reaction p, snd c)) due) w in
  attentive ms w' /\
  handled (trace w') = handled (trace w) /\
  deliveries (trace w') = deliveries (trace w) /\
  acknowledged (trace w') = acknowledged (trace w) ++ ms1.
Proof.
  induction due as [ | c due IH]; intros ms1 w ms H Hw.
  - inversion H; subst. simpl. rewrite app_nil_r. auto.
  - inversion H as [ | c' msg due' ms1' Hc Hd]; subst.
    destruct Hc as [ch Hc].
    simpl map.
    change (run_all ((reaction p, snd c) :: ?l) w)
      with (run_all l (run (reaction p) (snd c) w)).
    rewrite Hc. simpl run.
    destruct (IH ms1' (emit (returned (reaction p)) (emit (acked ch msg) w))
                ms Hd) as (A1 & A2 & A3 & A4).
    + apply (attentive_same handler ms w); auto.
    + split; [exact A1 | ].
      rewrite A2, A3, A4. simpl trace.
      rewrite !handled_app, !deliveries_app, !acknowledged_app. simpl.
      rewrite !app_nil_r, <- app_assoc. auto.
Qed.

(** The callback of [listen], given a delivery. *)
Lemma deliver_faithful ch tag msg ms w :
  attentive ms w ->
  handled (trace w) = decoded (deliveries (trace w)) ->
  balanced ms (trace w) ->
  faithful (run (consumer tag) (onMessage ch handler msg)
              (emit (delivered tag msg) w)).
Proof.
  intros Hw Hh [rest Hb]. destruct msg as [m | ]; simpl.
  - assert (Hleft : Permutation
                      (acknowledged (trace w) ++ ms ++ m :: rest)
                      (deliveries (trace w) ++ [m])).
    { rewrite app_assoc.
      apply (Permutation_add m (acknowledged (trace w) ++ ms) rest).
      rewrite <- app_assoc. exact Hb. }
    unfold bind, checked, call, ret, throw.
    destruct (JSON_parse (utf8_decode (content m))) as [e | message] eqn:Hp;
      simpl.
    + exists ms. split; [apply (attentive_same handler ms w); auto | ].
      unfold balanced. simpl trace.
      rewrite !handled_app, !deliveries_app, !acknowledged_app, !decoded_app.
      simpl. rewrite Hp, !app_nil_r. split; [exact Hh | ].
      exists (m :: rest). exact Hleft.
    + destruct (handler message) as [ | p | e]; simpl.
      * exists ms. split; [apply (attentive_same handler ms w); auto | ].
        unfold balanced. simpl trace.
        rewrite !handled_app, !deliveries_app, !acknowledged_app,
          !decoded_app.
        simpl. rewrite Hp, !app_nil_r. split; [congruence | ].
        exists rest. rewrite <- app_assoc.
        apply (Permutation_add m (acknowledged (trace w)) (ms ++ rest)).
        exact Hb.
      * exists (ms ++ [m]). split.
        { destruct Hw as [H1 H2 H3 H4 H5]. constructor; simpl; auto.
          apply Forall2_app; auto. constructor; auto.
          exists ch. reflexivity. }
        unfold balanced. simpl trace.
        rewrite !handled_app, !deliveries_app, !acknowledged_app,
          !decoded_app.
        simpl. rewrite Hp, !app_nil_r. split; [congruence | ].
        exists rest. rewrite <- app_assoc. exact Hleft.
      * exists ms. split; [apply (attentive_same handler ms w); auto | ].
        unfold balanced. simpl trace.
        rewrite !handled_app, !deliveries_app, !acknowledged_app,
          !decoded_app.
        simpl. rewrite Hp, !app_nil_r. split; [congruence | ].
        exists (m :: rest). exact Hleft.
  - exists ms. split; [apply (attentive_same handler ms w); auto | ].
    unfold balanced. simpl trace.
    rewrite !handled_app, !deliveries_app, !acknowledged_app.
    simpl. rewrite !app_nil_r. split; [exact Hh | ].
    exists rest. exact Hb.
Qed.

Lemma step_faithful i w : faithful w -> faithful (step i w).
Proof.
  intros H. assert (H' := H). revert H'.
  intros (ms & Hw & Hh & Hb).
  assert (Hw' := Hw). destruct Hw' as [H1 H2 H3 H4 H5].
  destruct i as [id outcome | tag msg | p outcome | s | p]; unfold step.
  - destruct (take_waiter id (outstanding w)) as [[x rest] | ] eqn:E;
      [ | exact H].
    destruct (take_waiter_Forall _ _ _ _ _ E H1) as [[Hk Hf] Hrest].
    set (w1 := emit (replied id (w_request x) outcome)
                    (with_outstanding rest w)).
    assert (A1 : attentive ms w1) by (constructor; assumption).
    assert (E1 : heard (trace w1) = heard (trace w))
      by (apply (heard_emit (replied id (w_request x) outcome)
                   (with_outstanding rest w)); reflexivity).
    destruct outcome as [e | ].
    + apply (faithful_heard ms w); auto.
      * apply (attentive_same handler ms w1); auto.
      * simpl run. rewrite <- E1. apply heard_emit. reflexivity.
    + destruct (run_quiet handler _ (Hk (fresh_reply (w_request x) id))
                  (w_owner x) (confirm x w1) ms
                  (confirm_attentive ms x w1 Hf A1)) as [A2 E2].
      apply (faithful_heard ms w); auto.
      rewrite E2, confirm_trace. exact E1.
  - destruct (find_consumer tag (consumers w)) as [f | ] eqn:E; [ | exact H].
    destruct (find_consumer_Forall _ _ _ _ E H2) as [t [ch Hf] ].
    simpl in Hf. subst f. apply (deliver_faithful ch tag msg ms w); auto.
  - set (w1 := if existsb (Nat.eqb p) (settled_promises w) then w
               else emit (handler_settled p outcome)
                         (with_settled (p :: settled_promises w) w)).
    assert (A1 : attentive ms w1).
    { unfold w1. destruct (existsb (Nat.eqb p) (settled_promises w)); auto.
      apply (attentive_same handler ms w); auto. }
    assert (E1 : heard (trace w1) = heard (trace w)).
    { unfold w1. destruct (existsb (Nat.eqb p) (settled_promises w)); auto.
      apply (heard_emit (handler_settled p outcome)
               (with_settled (p :: settled_promises w) w)).
      reflexivity. }
    assert (R1 : reactions w1 = reactions w).
    { unfold w1. destruct (existsb (Nat.eqb p) (settled_promises w)); auto. }
    rewrite R1.
    destruct (Forall2_filter acknowledges
                (fun c : HandlerPromise * task => Nat.eqb (fst c) p)
                (reactions w) ms H3) as (ms1 & ms2 & F1 & F2 & Hp).
    assert (A2 : attentive ms2
                   (with_reactions
                      (filter (fun c : HandlerPromise * task =>
                                 negb (Nat.eqb (fst c) p)) (reactions w))
                      w1)).
    { destruct A1 as [B1 B2 B3 B4 B5]. constructor; simpl; auto. }
    destruct (run_acknowledgements p _ ms1 _ ms2 F1 A2)
      as (A3 & E3 & E4 & E5).
    apply heard_eqs in E1. destruct E1 as (G1 & G2 & G3).
    simpl trace in E3, E4, E5. unfold HandlerPromise in *.
    exists ms2. split; [exact A3 | ]. split; [congruence | ].
    destruct Hb as [rest Hb]. exists rest.
    rewrite E4, E5, G2, G3, <- app_assoc.
    eapply Permutation_trans; [ | exact Hb].
    apply Permutation_app_head. rewrite app_assoc.
    apply Permutation_app_tail, Hp.
  - destruct (existsb (Nat.eqb s) (aborted w)); [exact H | ].
    set (w1 := emit (fired s) (with_aborted (s :: aborted w) w)).
    assert (A1 : attentive ms w1)
      by (apply (attentive_same handler ms w); auto).
    assert (E1 : heard (trace w1) = heard (trace w))
      by (apply (heard_emit (fired s) (with_aborted (s :: aborted w) w));
          reflexivity).
    assert (Q : Forall (fun c : owner * task => quiet (snd c))
                  (map (fun c : AbortSignal * task => (listener s, snd c))
                     (filter (fun c => Nat.eqb (fst c) s) (listeners w1)))).
    { apply Forall_map; simpl. apply Forall_filter, H4. }
    destruct (run_all_quiet handler _ Q w1 ms A1) as [A2 E2].
    apply (faithful_heard ms w); auto.
    etransitivity; [exact E2 | exact E1].
  - destruct (existsb (Nat.eqb p) (resolved_promises w)); [ | exact H].
    set (w1 := with_awaiting
                 (filter (fun c => negb (Nat.eqb (fst c) p)) (awaiting w)) w).
    assert (A1 : attentive ms w1).
    { constructor; simpl; auto. apply Forall_filter, H5. }
    assert (Q : Forall (fun c : owner * task => quiet (snd c))
                  (map snd
                     (filter (fun c : Promise * (owner * task) =>
                                Nat.eqb (fst c) p) (awaiting w)))).
    { apply Forall_map; simpl. apply Forall_filter, H5. }
    destruct (run_all_quiet handler _ Q w1 ms A1) as [A2 E2].
    apply (faithful_heard ms w); auto.
Qed.

Lemma exec_faithful schedule : forall w,
  faithful w -> faithful (exec schedule w).
Proof.
  induction schedule as [ | i l IH]; simpl; intros w H; auto.
  apply IH, step_faithful, H.
Qed.

Lemma listen_quiet (this : AmqpMessageQueue)
  (options : MessageQueueListenOptions) :
  quiet (listen this handler options (fun _ => Done)).
Proof.
  unfold listen, bind, await, prepareQueue, await_consume, new_Promise,
    await_promise, ret.
  constructor. intros channel.
  constructor. intros _.
  constructor. intros _.
  constructor. intros reply. constructor. intros p.
  destruct (signal options) as [s | ]; unfold addEventListener, onAbort,
    then_, float, bind, await, call, ret.
  - constructor.
    + constructor; [ | constructor].
      constructor. intros _.
      constructor; [ | constructor].
      constructor. intros _.
      constructor; [exact I | ]. intros _. constructor.
    + constructor. constructor.
  - constructor. constructor.
Qed.

Lemma listen_faithful (this : AmqpMessageQueue)
  (options : MessageQueueListenOptions) cached gone schedule :
  faithful (exec schedule
              (start "listen" (listen this handler options)
                 (instance cached gone))).
Proof.
  apply exec_faithful.
  assert (A0 : attentive [] (instance cached gone))
    by (constructor; simpl; constructor).
  destruct (run_quiet handler _ (listen_quiet this options)
              (caller "listen") (instance cached gone) [] A0) as [A1 E1].
  apply (faithful_heard [] (instance cached gone)); auto.
  exists []. simpl. constructor.
Qed.

End Faithful.

(** X20: under any schedule, [listen] calls the handler once for every
    delivered message whose payload can be decoded, with the decoded value
    and in the order of the deliveries, and never otherwise. *)
Theorem handler_called_once_per_delivery `{RT : Runtime}
  (this : AmqpMessageQueue) (handler : payload -> HandlerResult)
  (options : MessageQueueListenOptions) (cached : option Channel)
  (gone : list AbortSignal) (schedule : list input) :
  let w := exec schedule
             (start "listen" (listen this handler options)
                (instance cached gone)) in
  handled (trace w) = decoded (deliveries (trace w)).
Proof.
  destruct (listen_faithful handler this options cached gone schedule)
    as (ms & _ & H & _).
  exact H.
Qed.

(** X21: under any schedule, the messages that [listen] acknowledges are,
    each counted as often as it is acknowledged, among the messages that were
    delivered: no delivery is acknowledged twice. *)
Theorem no_delivery_acknowledged_twice `{RT : Runtime}
  (this : AmqpMessageQueue) (handler : payload -> HandlerResult)
  (options : MessageQueueListenOptions) (cached : option Channel)
  (gone : list AbortSignal) (schedule : list input) :
  let w := exec schedule
             (start "listen" (listen this handler options)
                (instance cached gone)) in
  exists unacknowledged,
    Permutation (acknowledged (trace w) ++ unacknowledged)
                (deliveries (trace w)).
Proof.
  destruct (listen_faithful handler this options cached gone schedule)
    as (ms & _ & _ & rest & H).
  exists (ms ++ rest). exact H.
Qed.

(** ** The polling helper: how it ends *)

Section Polling.
Variable predicate : nat -> bool.
Variable now : nat -> Z.
Variable timeoutMs : Z.

Lemma waitFor_returned fuel : forall k m,
  waitFor fuel predicate now timeoutMs k = Some (wait_returned m) <->
  (k <= m < k + fuel)%nat /\ predicate m = true /\
  (forall i, (k <= i < m)%nat ->
     predicate i = false /\ now (S i) - now 0%nat <= timeoutMs).
Proof.
  induction fuel as [ | fuel IH]; intros k m; simpl.
  - split; [discriminate | ]. intros [H _]. lia.
  - destruct (predicate k) eqn:Hk.
    + split.
      * intros E. inversion E; subst m. repeat split; auto; lia.
      * intros (Hm & Hp & Hbefore).
        destruct (Nat.eq_dec k m) as [-> | Hne]; [reflexivity | ].
        destruct (Hbefore k) as [Hf _]; [lia | congruence].
    + destruct (Z.gtb_spec (now (S k) - now 0%nat) timeoutMs) as [Hgt | Hle].
      * split; [discriminate | ].
        intros (Hm & Hp & Hbefore).
        destruct (Nat.eq_dec k m) as [-> | Hne]; [congruence | ].
        destruct (Hbefore k) as [_ Hf]; lia.
      * rewrite IH. split.
        -- intros (Hm & Hp & Hbefore). repeat split; auto; try lia.
           ++ destruct (Nat.eq_dec i k) as [-> | Hne]; [exact Hk | ].
              apply Hbefore. lia.
           ++ destruct (Nat.eq_dec i k) as [-> | Hne]; [exact Hle | ].
              apply Hbefore. lia.
        -- intros (Hm & Hp & Hbefore).
           assert (k <> m) by congruence.
           repeat split; auto; try lia; apply Hbefore; lia.
Qed.

Lemma waitFor_timed_out fuel : forall k m,
  waitFor fuel predicate now timeoutMs k = Some (wait_timed_out m) <->
  (k < m <= k + fuel)%nat /\ now m - now 0%nat > timeoutMs /\
  (forall i, (k <= i < m)%nat -> predicate i = false) /\
  (forall i, (k < i < m)%nat -> now i - now 0%nat <= timeoutMs).
Proof.
  induction fuel as [ | fuel IH]; intros k m; simpl.
  - split; [discriminate | ]. intros [H _]. lia.
  - destruct (predicate k) eqn:Hk.
    + split; [discriminate | ].
      intros (Hm & _ & Hbefore & _).
      rewrite (Hbefore k) in Hk by lia. discriminate.
    + destruct (Z.gtb_spec (now (S k) - now 0%nat) timeoutMs) as [Hgt | Hle].
      * split.
        -- intros E. inversion E; subst m. repeat split; auto; try lia.
           intros i Hi. replace i with k by lia. exact Hk.
        -- intros (Hm & Hover & Hbefore & Hearly).
           destruct (Nat.eq_dec m (S k)) as [-> | Hne]; [reflexivity | ].
           specialize (Hearly (S k)). lia.
      * rewrite IH. split.
        -- intros (Hm & Hover & Hbefore & Hearly).
           repeat split; auto; try lia.
           ++ intros i Hi.
              destruct (Nat.eq_dec i k) as [-> | Hne]; [exact Hk | ].
              apply Hbefore. lia.
           ++ intros i Hi.
              destruct (Nat.eq_dec i (S k)) as [-> | Hne]; [exact Hle | ].
              apply Hearly. lia.
        -- intros (Hm & Hover & Hbefore & Hearly).
           assert (m <> S k) by (intros ->; lia).
           repeat split; auto; try lia.
           ++ intros i Hi. apply Hbefore. lia.
           ++ intros i Hi. apply Hearly. lia.
Qed.

Lemma clock_advances :
  (forall k, now k + 500 <= now (S k)) ->
  forall k, now 0%nat + 500 * Z.of_nat k <= now k.
Proof.
  intros Hstep. induction k as [ | k IH]; [lia | ].
  specialize (Hstep k). lia.
Qed.

Lemma waitFor_enough fuel : forall k,
  (forall k, now k + 500 <= now (S k)) ->
  timeoutMs < 500 * Z.of_nat (k + fuel) ->
  (0 < fuel)%nat ->
  exists r, waitFor fuel predicate now timeoutMs k = Some r.
Proof.
  induction fuel as [ | fuel IH]; intros k Hstep Hlong Hfuel; [lia | ].
  simpl. destruct (predicate k); [eauto | ].
  destruct (Z.gtb_spec (now (S k) - now 0%nat) timeoutMs) as [Hgt | Hle];
    [eauto | ].
  apply IH; auto.
  - replace (S k + fuel)%nat with (k + S fuel)%nat by lia. exact Hlong.
  - destruct fuel; [ | lia].
    assert (H := clock_advances Hstep (S k)).
    replace (k + 1)%nat with (S k) in Hlong by lia. lia.
Qed.

End Polling.

(** X18: [waitFor] comes to an end.  When every delay lasts at least the 500
    milliseconds asked for, the loop is over after at most [timeoutMs / 500 +
    1] rounds: it has returned or thrown by then. *)
Theorem waitFor_settles (predicate : nat -> bool) (now : nat -> Z)
  (timeoutMs : Z) :
  (forall k, now k + 500 <= now (S k)) -> 0 <= timeoutMs ->
  let rounds := S (Z.to_nat (timeoutMs / 500)) in
  exists r,
    waitFor rounds predicate now timeoutMs 0 = Some r /\
    match r with
    | wait_returned delays => (delays < rounds)%nat
    | wait_timed_out delays => (delays <= rounds)%nat
    end.
Proof.
  intros Hstep Hpos rounds.
  destruct (waitFor_enough predicate now timeoutMs rounds 0%nat Hstep)
    as [r E]; [ | unfold rounds; lia | ].
  - unfold rounds. simpl plus. rewrite Nat2Z.inj_succ, Z2Nat.id.
    + assert (H := Z.mod_pos_bound timeoutMs 500 ltac:(lia)).
      assert (H' := Z.div_mod timeoutMs 500 ltac:(lia)). lia.
    + apply Z.div_pos; lia.
  - exists r. split; [exact E | ].
    destruct r as [m | m].
    + apply waitFor_returned in E. lia.
    + apply waitFor_timed_out in E. lia.
Qed.

Lemma waitFor_settles_witness :
  exists r,
    waitFor 31 (fun _ => false) (fun k => 500 * Z.of_nat k) 15000 0 =
      Some r /\
    match r with
    | wait_returned delays => (delays < 31)%nat
    | wait_timed_out delays => (delays <= 31)%nat
    end.
Proof.
  apply (waitFor_settles (fun _ => false) (fun k => 500 * Z.of_nat k) 15000).
  - intros k. lia.
  - lia.
Defined.

(** X19: how [waitFor] ends.  It returns after [m] delays exactly when the
    predicate first holds then and the time was not up after any of the
    delays; it throws after [m] delays exactly when that delay is the first
    after which the time is up and the predicate did not hold before any of
    the [m] delays.  After a delay the time is looked at first: when it is up
    the call throws without asking the predicate again. *)
Theorem waitFor_outcome (predicate : nat -> bool) (now : nat -> Z)
  (timeoutMs : Z) (fuel m : nat) :
  (waitFor fuel predicate now timeoutMs 0 = Some (wait_returned m) <->
   (m < fuel)%nat /\ predicate m = true /\
   (forall i, (i < m)%nat ->
      predicate i = false /\ now (S i) - now 0%nat <= timeoutMs)) /\
  (waitFor fuel predicate now timeoutMs 0 = Some (wait_timed_out m) <->
   (0 < m <= fuel)%nat /\ now m - now 0%nat > timeoutMs /\
   (forall i, (i < m)%nat -> predicate i = false) /\
   (forall i, (0 < i < m)%nat -> now i - now 0%nat <= timeoutMs)).
Proof.
  split.
  - rewrite waitFor_returned. simpl. split.
    + intros (Hm & Hp & Hbefore). repeat split; auto; try lia;
        apply Hbefore; lia.
    + intros (Hm & Hp & Hbefore). repeat split; auto; try lia;
        apply Hbefore; lia.
  - rewrite waitFor_timed_out. simpl. split.
    + intros (Hm & Hover & Hbefore & Hearly). repeat split; auto; try lia.
      intros i Hi. apply Hbefore. lia.
    + intros (Hm & Hover & Hbefore & Hearly). repeat split; auto; try lia.
      intros i Hi. apply Hbefore. lia.
Qed.
